(** * Shortest-path engine of the graph visualizer: embedding and properties

    The repository holds two copies of the class [GraphAlgorithms]:
    - [client/lib/graphAlgorithms.ts], the one imported by the pages and
      components, embedded below as [Module GraphAlgorithms];
    - a second, longer variant (an unnamed source file), embedded as
      [Module Part001].

    Modelling conventions.
    - A JS [number] that holds a distance is [JsNum]: a finite integer
      ([parseInt] produces the weights), [Infinity], or [NaN].  Sums are
      formed in [Z]; binary64 forms the same sums as long as they stay
      within [2^53] in absolute value, which [exactSums] guarantees of a
      whole run ([runs_stay_exact]).  Reading a key that an object does not
      own yields [undefined], which becomes [NaN] in every arithmetic and
      relational use made of it here.
    - [Record<string, _>] objects are finite maps [gmap string _] of their
      own properties; [{ ...obj }] snapshots are the map values themselves.
      The object literals of the source also inherit the members of
      [Object.prototype]: a key naming one of them ([inheritedNames]) reads
      as a function or an object when it is not an own property, and
      ["__proto__"] never becomes one.  The maps agree with the objects on
      every other key ([plainKey]).
    - [Set<string>] is [gset string].
    - A thrown [TypeError] is the result [None] in [client/lib].  The second
      variant throws only on keys that are not plain, and is embedded by
      total functions.
    - Properties of whole runs are therefore stated on inputs with
      [plainKeys], and with [exactSums] where they depend on the value of a
      sum; the properties of trace shape, of the relation between the two
      Bellman-Ford variants and of the page do not depend on either. *)

From Stdlib Require Import ZArith Lia.
From stdpp Require Import gmap strings list fin_maps pretty.

Local Open Scope Z_scope.

(** ** Data model *)

Record GraphEdge := mkEdge {
  source : string;
  destination : string;
  weight : Z
}.

(** The optional display coordinates [x?], [y?] of a node are never read by
    the engine and are left out. *)
Record GraphNode := mkNode { id : string }.

Inductive JsNum := Fin (z : Z) | Infinity | NaN.

Inductive StepType :=
  | initial | select | relax | update | complete | negative_cycle.

Module Step.
Record t := mk {
  type : StepType;
  iteration : nat;
  currentNode : option string;
  currentEdge : option (string * string);
  distances : gmap string JsNum;
  previous : gmap string (option string);
  updatedNodes : option (list string);
  message : string
}.
End Step.
Abbreviation AlgorithmStep := Step.t.

Module Result.
Record t := mk {
  distances : gmap string JsNum;
  previous : gmap string (option string);
  steps : list AlgorithmStep;
  hasNegativeCycle : bool;
  shortestPathTree : list GraphEdge
}.
End Result.
Abbreviation AlgorithmResult := Result.t.

Abbreviation AdjacencyList := (gmap string (list (string * Z))).

#[global] Instance GraphEdge_eq_dec : EqDecision GraphEdge.
Proof. solve_decision. Defined.
#[global] Instance JsNum_eq_dec : EqDecision JsNum.
Proof. solve_decision. Defined.
#[global] Instance StepType_eq_dec : EqDecision StepType.
Proof. solve_decision. Defined.

(** ** JavaScript primitives used by the engine *)

(** [obj[k]] in a numeric context, for a key that is an own property or
    that nothing inherits: a missing key reads as [undefined]. *)
Definition get (distances : gmap string JsNum) (k : string) : JsNum :=
  default NaN (distances !! k).

(** [a + w] for an integer [w], as binary64 computes it while the sum stays
    within [2^53] in absolute value. *)
Definition jsAdd (a : JsNum) (w : Z) : JsNum :=
  match a with
  | Fin x => Fin (x + w)
  | Infinity => Infinity
  | NaN => NaN
  end.

(** [a < b]. *)
Definition jsLt (a b : JsNum) : bool :=
  match a, b with
  | Fin x, Fin y => bool_decide (x < y)
  | Fin _, Infinity => true
  | _, _ => false
  end.

(** [a !== Infinity]. *)
Definition notInfinity (a : JsNum) : bool :=
  match a with Infinity => false | _ => true end.

(** Truthiness of a string: only the empty string is falsy. *)
Definition truthy (s : string) : bool := negb (bool_decide (s = EmptyString)).

(** Template-literal rendering of a number. *)
Definition showNum (a : JsNum) : string :=
  match a with
  | Fin x => pretty x
  | Infinity => "Infinity"
  | NaN => "NaN"
  end.

Definition ids (nodes : list GraphNode) : list string := id <$> nodes.

(** ** Parts shared by the two variants *)

(** [nodes.forEach(n => { distances[n.id] = n.id === sourceNode ? 0 : Infinity;
    previous[n.id] = null })]: every id becomes an own key (in the source,
    every id but ["__proto__"]). *)
Definition initDistances (nodes : list GraphNode) (sourceNode : string)
  : gmap string JsNum :=
  foldl (fun d n =>
           <[id n := if bool_decide (id n = sourceNode) then Fin 0 else Infinity]> d)
        ∅ nodes.

Definition initPrevious (nodes : list GraphNode) : gmap string (option string) :=
  foldl (fun p n => <[id n := None]> p) ∅ nodes.

(** [edges.find(e => e.source === p && e.destination === n)] *)
Definition findEdge (edges : list GraphEdge) (p n : string) : option GraphEdge :=
  List.find (fun e => bool_decide (source e = p) && bool_decide (destination e = n))
            edges.

(** The improving-relaxation test [distances[source] + weight <
    distances[destination]]. *)
Definition improves (distances : gmap string JsNum) (e : GraphEdge) : bool :=
  jsLt (jsAdd (get distances (source e)) (weight e)) (get distances (destination e)).

(** ** client/lib/graphAlgorithms.ts *)

Module GraphAlgorithms.

(** [edges.forEach(e => adjList[e.source].push(...))]: [push] on a missing
    entry throws. *)
Fixpoint pushEdges (edges : list GraphEdge) (adjList : AdjacencyList)
  : option AdjacencyList :=
  match edges with
  | [] => Some adjList
  | e :: rest =>
      match adjList !! source e with
      | Some l =>
          pushEdges rest (<[source e := l ++ [(destination e, weight e)]]> adjList)
      | None => None
      end
  end.

Definition buildAdjacencyList (nodes : list GraphNode) (edges : list GraphEdge)
  : option AdjacencyList :=
  pushEdges edges (foldl (fun a n => <[id n := []]> a) ∅ nodes).

(** The mutable locals of [dijkstra]. *)
Record DState := mkD {
  distances : gmap string JsNum;
  previous : gmap string (option string);
  visited : gset string;
  steps : list AlgorithmStep;
  iteration : nat
}.

(** The scan [for (const n of nodes)] that picks [minNode], [minDist]. *)
Definition selectMin (nodes : list GraphNode) (visited : gset string)
           (distances : gmap string JsNum) : option string * JsNum :=
  foldl (fun '(minNode, minDist) n =>
           if bool_decide (id n ∉ visited) && jsLt (get distances (id n)) minDist
           then (Some (id n), get distances (id n))
           else (minNode, minDist))
        (None, Infinity) nodes.

(** [for (const { node: neighbor, weight } of adjList[minNode])] *)
Fixpoint relaxNeighbors (minNode : string) (neighbors : list (string * Z))
         (st : DState) : DState :=
  match neighbors with
  | [] => st
  | (neighbor, weight) :: rest =>
      let newDist := jsAdd (get (distances st) minNode) weight in
      if jsLt newDist (get (distances st) neighbor) then
        let distances' := <[neighbor := newDist]> (distances st) in
        let previous' := <[neighbor := Some minNode]> (previous st) in
        relaxNeighbors minNode rest
          (mkD distances' previous' (visited st)
             (steps st ++
                [Step.mk relax (iteration st) None (Some (minNode, neighbor))
                   distances' previous' (Some [neighbor])
                   ("Relax " +:+ minNode +:+ "→" +:+ neighbor +:+
                    ", new dist=" +:+ showNum newDist)])
             (iteration st))
      else relaxNeighbors minNode rest st
  end.

(** One turn of the [while] body once [minNode] is known and truthy.
    [minNode] is a listed node, so [adjList[minNode]] is an entry the builder
    created (see [selectMin_has_entry]) and the [for ... of] never meets
    [undefined]; the total lookup stands for it. *)
Definition visit (adjList : AdjacencyList) (minNode : string) (minDist : JsNum)
           (st : DState) : DState :=
  let st1 :=
    mkD (distances st) (previous st) ({[minNode]} ∪ visited st)
        (steps st ++
           [Step.mk select (iteration st) (Some minNode) None
              (distances st) (previous st) None
              ("Select " +:+ minNode +:+ " with dist = " +:+ showNum minDist)])
        (iteration st) in
  let st2 := relaxNeighbors minNode (adjList !!! minNode) st1 in
  mkD (distances st2) (previous st2) (visited st2) (steps st2) (S (iteration st2)).

(** [while (visited.size < nodes.length)].  Every turn adds one node to
    [visited], so [length nodes] turns always suffice
    (see [whileLoop_fuel]). *)
Fixpoint whileLoop (fuel : nat) (nodes : list GraphNode) (adjList : AdjacencyList)
         (st : DState) : DState :=
  match fuel with
  | O => st
  | S fuel' =>
      if bool_decide (size (visited st) < length nodes)%nat then
        match selectMin nodes (visited st) (distances st) with
        | (Some minNode, minDist) =>
            if truthy minNode
            then whileLoop fuel' nodes adjList (visit adjList minNode minDist st)
            else st
        | (None, _) => st
        end
      else st
  end.

(** [nodes.forEach(n => { if (previous[n.id]) { const e = edges.find(...);
    if (e) shortestPathTree.push(e) } })] *)
Definition buildTree (nodes : list GraphNode) (edges : list GraphEdge)
           (previous : gmap string (option string)) : list GraphEdge :=
  foldl (fun tree n =>
           match previous !! id n with
           | Some (Some p) =>
               if truthy p then
                 match findEdge edges p (id n) with
                 | Some e => tree ++ [e]
                 | None => tree
                 end
               else tree
           | _ => tree
           end)
        [] nodes.

Definition initialStep (name : string) (nodes : list GraphNode) (sourceNode : string)
  : AlgorithmStep :=
  Step.mk initial 0 None None (initDistances nodes sourceNode) (initPrevious nodes)
    None ("Initialize " +:+ name +:+ ": " +:+ sourceNode +:+ "=0, others=∞").

Definition dijkstra (nodes : list GraphNode) (edges : list GraphEdge)
           (sourceNode : string) : option AlgorithmResult :=
  match buildAdjacencyList nodes edges with
  | None => None
  | Some adjList =>
      let st0 :=
        mkD (initDistances nodes sourceNode) (initPrevious nodes) ∅
            [initialStep "Dijkstra" nodes sourceNode] 1 in
      let st := whileLoop (length nodes) nodes adjList st0 in
      let shortestPathTree := buildTree nodes edges (previous st) in
      Some (Result.mk (distances st) (previous st)
              (steps st ++
                 [Step.mk complete (iteration st) None None
                    (distances st) (previous st) None "Dijkstra complete"])
              false shortestPathTree)
  end.

(** The mutable locals of [bellmanFord]. *)
Record BState := mkB {
  bdistances : gmap string JsNum;
  bprevious : gmap string (option string);
  bsteps : list AlgorithmStep
}.

(** [for (const { source, destination, weight } of edges)] of pass [i];
    the boolean is the flag [relaxed]. *)
Fixpoint relaxEdges (i : nat) (edges : list GraphEdge) (st : BState) (relaxed : bool)
  : BState * bool :=
  match edges with
  | [] => (st, relaxed)
  | e :: rest =>
      if notInfinity (get (bdistances st) (source e)) && improves (bdistances st) e
      then
        let distances' :=
          <[destination e := jsAdd (get (bdistances st) (source e)) (weight e)]>
            (bdistances st) in
        let previous' := <[destination e := Some (source e)]> (bprevious st) in
        relaxEdges i rest
          (mkB distances' previous'
             (bsteps st ++
                [Step.mk relax i None (Some (source e, destination e))
                   distances' previous' (Some [destination e])
                   ("Iteration " +:+ pretty i +:+ ": Relax " +:+ source e +:+
                    "→" +:+ destination e)]))
          true
      else relaxEdges i rest st relaxed
  end.

(** [for (let i = 1; i <= nodes.length - 1; i++)] with its [break];
    [count] is the number of passes still allowed. *)
Fixpoint passes (count : nat) (i : nat) (edges : list GraphEdge) (st : BState)
  : BState :=
  match count with
  | O => st
  | S count' =>
      let '(st', relaxed) := relaxEdges i edges st false in
      if relaxed then passes count' (S i) edges st'
      else
        mkB (bdistances st') (bprevious st')
            (bsteps st' ++
               [Step.mk update i None None (bdistances st') (bprevious st') None
                  ("Iteration " +:+ pretty i +:+ ": No updates")])
  end.

Definition bellmanFord (nodes : list GraphNode) (edges : list GraphEdge)
           (sourceNode : string) : AlgorithmResult :=
  let st0 :=
    mkB (initDistances nodes sourceNode) (initPrevious nodes)
        [initialStep "Bellman-Ford" nodes sourceNode] in
  let st := passes (length nodes - 1) 1 edges st0 in
  match List.find (improves (bdistances st)) edges with
  | Some e =>
      Result.mk (bdistances st) (bprevious st)
        (bsteps st ++
           [Step.mk negative_cycle (length nodes) None
              (Some (source e, destination e)) (bdistances st) (bprevious st) None
              ("⚠️ Negative cycle detected at " +:+ source e +:+ "→" +:+
               destination e)])
        true []
  | None =>
      let shortestPathTree := buildTree nodes edges (bprevious st) in
      Result.mk (bdistances st) (bprevious st)
        (bsteps st ++
           [Step.mk complete (length nodes) None None
              (bdistances st) (bprevious st) None
              "Bellman-Ford complete — no negative cycle"])
        false shortestPathTree
  end.

End GraphAlgorithms.

(** ** The second variant of the class (unnamed source file) *)

Module Part001.

(** Both loops create a missing entry before use, so nothing throws on
    plain keys. *)
Definition buildAdjacencyList (nodes : list GraphNode) (edges : list GraphEdge)
  : AdjacencyList :=
  let adjList :=
    foldl (fun a n => match a !! id n with
                      | Some _ => a
                      | None => <[id n := []]> a
                      end) ∅ nodes in
  foldl (fun a e =>
           let a' := match a !! source e with
                     | Some _ => a
                     | None => <[source e := []]> a
                     end in
           <[source e := (a' !!! source e) ++ [(destination e, weight e)]]> a')
        adjList edges.

Record DState := mkD {
  distances : gmap string JsNum;
  previous : gmap string (option string);
  visited : gset string;
  steps : list AlgorithmStep;
  iteration : nat
}.

Definition selectMin (nodes : list GraphNode) (visited : gset string)
           (distances : gmap string JsNum) : option string * JsNum :=
  foldl (fun '(minNode, minDist) n =>
           if bool_decide (id n ∉ visited) && jsLt (get distances (id n)) minDist
           then (Some (id n), get distances (id n))
           else (minNode, minDist))
        (None, Infinity) nodes.

Fixpoint relaxNeighbors (minNode : string) (neighbors : list (string * Z))
         (st : DState) : DState :=
  match neighbors with
  | [] => st
  | (neighbor, weight) :: rest =>
      let newDist := jsAdd (get (distances st) minNode) weight in
      if jsLt newDist (get (distances st) neighbor) then
        let distances' := <[neighbor := newDist]> (distances st) in
        let previous' := <[neighbor := Some minNode]> (previous st) in
        relaxNeighbors minNode rest
          (mkD distances' previous' (visited st)
             (steps st ++
                [Step.mk relax (iteration st) (Some minNode)
                   (Some (minNode, neighbor)) distances' previous'
                   (Some [neighbor])
                   ("Relax edge " +:+ minNode +:+ "→" +:+ neighbor +:+
                    ": update distance to " +:+ showNum newDist)])
             (iteration st))
      else relaxNeighbors minNode rest st
  end.

(** [const neighbors = adjList[minNode] || []], for a plain [minNode]. *)
Definition visit (adjList : AdjacencyList) (minNode : string) (minDist : JsNum)
           (st : DState) : DState :=
  let st1 :=
    mkD (distances st) (previous st) ({[minNode]} ∪ visited st)
        (steps st ++
           [Step.mk select (iteration st) (Some minNode) None
              (distances st) (previous st) None
              ("Select node " +:+ minNode +:+ " with distance " +:+
               showNum minDist)])
        (iteration st) in
  let st2 := relaxNeighbors minNode (default [] (adjList !! minNode)) st1 in
  mkD (distances st2) (previous st2) (visited st2) (steps st2) (S (iteration st2)).

(** [while (visited.size < nodes.length)] with
    [if (minNode === null || minDist === Infinity) break]; as in the first
    variant, [length nodes] turns always suffice
    (see [part001_whileLoop_fuel]). *)
Fixpoint whileLoop (fuel : nat) (nodes : list GraphNode) (adjList : AdjacencyList)
         (st : DState) : DState :=
  match fuel with
  | O => st
  | S fuel' =>
      if bool_decide (size (visited st) < length nodes)%nat then
        match selectMin nodes (visited st) (distances st) with
        | (Some minNode, minDist) =>
            if notInfinity minDist
            then whileLoop fuel' nodes adjList (visit adjList minNode minDist st)
            else st
        | (None, _) => st
        end
      else st
  end.

(** [previous[node.id] !== null && previous[node.id] !== undefined] *)
Definition buildTree (nodes : list GraphNode) (edges : list GraphEdge)
           (previous : gmap string (option string)) : list GraphEdge :=
  foldl (fun tree n =>
           match previous !! id n with
           | Some (Some p) =>
               match findEdge edges p (id n) with
               | Some e => tree ++ [e]
               | None => tree
               end
           | _ => tree
           end)
        [] nodes.

Definition initialStep (nodes : list GraphNode) (sourceNode : string)
  : AlgorithmStep :=
  Step.mk initial 0 None None (initDistances nodes sourceNode) (initPrevious nodes)
    None ("Initialize: Set distance to " +:+ sourceNode +:+ " as 0, others as ∞").

Definition dijkstra (nodes : list GraphNode) (edges : list GraphEdge)
           (sourceNode : string) : AlgorithmResult :=
  let adjList := buildAdjacencyList nodes edges in
  let st0 :=
    mkD (initDistances nodes sourceNode) (initPrevious nodes) ∅
        [initialStep nodes sourceNode] 1 in
  let st := whileLoop (length nodes) nodes adjList st0 in
  let shortestPathTree := buildTree nodes edges (previous st) in
  Result.mk (distances st) (previous st)
    (steps st ++
       [Step.mk complete (iteration st) None None
          (distances st) (previous st) None "Algorithm complete"])
    false shortestPathTree.

Record BState := mkB {
  bdistances : gmap string JsNum;
  bprevious : gmap string (option string);
  bsteps : list AlgorithmStep;
  biteration : nat
}.

Fixpoint relaxEdges (i : nat) (edges : list GraphEdge) (st : BState) (relaxed : bool)
  : BState * bool :=
  match edges with
  | [] => (st, relaxed)
  | e :: rest =>
      if notInfinity (get (bdistances st) (source e)) then
        let newDist := jsAdd (get (bdistances st) (source e)) (weight e) in
        if jsLt newDist (get (bdistances st) (destination e)) then
          let distances' := <[destination e := newDist]> (bdistances st) in
          let previous' := <[destination e := Some (source e)]> (bprevious st) in
          relaxEdges i rest
            (mkB distances' previous'
               (bsteps st ++
                  [Step.mk relax (biteration st) None
                     (Some (source e, destination e)) distances' previous'
                     (Some [destination e])
                     ("Iteration " +:+ pretty (i + 1)%nat +:+ ": Relax " +:+
                      source e +:+ "→" +:+ destination e +:+ ", distance = " +:+
                      showNum newDist)])
               (biteration st))
            true
        else relaxEdges i rest st relaxed
      else relaxEdges i rest st relaxed
  end.

(** [for (let i = 0; i < nodes.length - 1; i++)]: no [break]; [count] is
    the number of passes left. *)
Fixpoint passes (count : nat) (i : nat) (edges : list GraphEdge) (st : BState)
  : BState :=
  match count with
  | O => st
  | S count' =>
      let '(st', relaxed) := relaxEdges i edges st false in
      let steps' :=
        if relaxed then bsteps st'
        else bsteps st' ++
               [Step.mk update (biteration st') None None
                  (bdistances st') (bprevious st') None
                  ("Iteration " +:+ pretty (i + 1)%nat +:+ ": No updates")] in
      passes count' (S i) edges
        (mkB (bdistances st') (bprevious st') steps' (S (biteration st')))
  end.

(** The negative-cycle scan with its [break]; the boolean is
    [hasNegativeCycle]. *)
Fixpoint cycleCheck (edges : list GraphEdge) (st : BState) : BState * bool :=
  match edges with
  | [] => (st, false)
  | e :: rest =>
      if notInfinity (get (bdistances st) (source e)) then
        let newDist := jsAdd (get (bdistances st) (source e)) (weight e) in
        if jsLt newDist (get (bdistances st) (destination e)) then
          (mkB (bdistances st) (bprevious st)
             (bsteps st ++
                [Step.mk negative_cycle (biteration st) None
                   (Some (source e, destination e))
                   (bdistances st) (bprevious st) None
                   ("⚠️ Negative weight cycle detected: " +:+ source e +:+ "→" +:+
                    destination e)])
             (biteration st), true)
        else cycleCheck rest st
      else cycleCheck rest st
  end.

Definition bellmanFord (nodes : list GraphNode) (edges : list GraphEdge)
           (sourceNode : string) : AlgorithmResult :=
  let st0 :=
    mkB (initDistances nodes sourceNode) (initPrevious nodes)
        [initialStep nodes sourceNode] 1 in
  let st1 := passes (length nodes - 1) 0 edges st0 in
  let '(st, hasNegativeCycle) := cycleCheck edges st1 in
  let shortestPathTree := buildTree nodes edges (bprevious st) in
  Result.mk (bdistances st) (bprevious st)
    (bsteps st ++
       [Step.mk complete (biteration st) None None
          (bdistances st) (bprevious st) None
          (if hasNegativeCycle
           then "Algorithm complete - Negative cycle detected"
           else "Algorithm complete")])
    hasNegativeCycle shortestPathTree.

End Part001.

(** * The page: [client/pages/Index.tsx] and the panels of [part_000]

    The React state of [Index] is a record and every handler a function on
    it; a handler whose call into the engine throws returns [None].  The
    pieces of state that only affect rendering ([animationSpeed],
    [showInstructions], [sidebarCollapsed]) are left out. *)

Inductive Algorithm := Dijkstra | BellmanFord.

(** [nodes.some((n) => n.id === k)] *)
Definition hasNode (nodes : list GraphNode) (k : string) : bool :=
  existsb (fun n => bool_decide (id n = k)) nodes.

(** [edges.some((e) => e.source === s && e.destination === d)] *)
Definition hasEdge (edges : list GraphEdge) (s d : string) : bool :=
  existsb (fun e => bool_decide (source e = s) && bool_decide (destination e = d))
          edges.

(** [array.filter((element, idx) => f(element, idx))], counting from [i]. *)
Fixpoint filterIdx {A} (f : A -> nat -> bool) (l : list A) (i : nat) : list A :=
  match l with
  | [] => []
  | x :: l' => if f x i then x :: filterIdx f l' (S i) else filterIdx f l' (S i)
  end.

Module Index.

Record State := mk {
  nodes : list GraphNode;
  edges : list GraphEdge;
  selectedAlgorithm : Algorithm;
  sourceNode : string;
  isRunning : bool;
  isPaused : bool;
  currentStep : nat;
  result : option AlgorithmResult;
  steps : list AlgorithmStep;
  manualMode : bool
}.

(** The [useState] defaults. *)
Definition initialState : State :=
  mk [] [] Dijkstra EmptyString false false 0 None [] false.

Definition setNodes (ns : list GraphNode) (st : State) : State :=
  mk ns (edges st) (selectedAlgorithm st) (sourceNode st) (isRunning st)
     (isPaused st) (currentStep st) (result st) (steps st) (manualMode st).

Definition setEdges (es : list GraphEdge) (st : State) : State :=
  mk (nodes st) es (selectedAlgorithm st) (sourceNode st) (isRunning st)
     (isPaused st) (currentStep st) (result st) (steps st) (manualMode st).

Definition setSelectedAlgorithm (a : Algorithm) (st : State) : State :=
  mk (nodes st) (edges st) a (sourceNode st) (isRunning st)
     (isPaused st) (currentStep st) (result st) (steps st) (manualMode st).

Definition setSourceNode (s : string) (st : State) : State :=
  mk (nodes st) (edges st) (selectedAlgorithm st) s (isRunning st)
     (isPaused st) (currentStep st) (result st) (steps st) (manualMode st).

Definition setIsRunning (b : bool) (st : State) : State :=
  mk (nodes st) (edges st) (selectedAlgorithm st) (sourceNode st) b
     (isPaused st) (currentStep st) (result st) (steps st) (manualMode st).

Definition setIsPaused (b : bool) (st : State) : State :=
  mk (nodes st) (edges st) (selectedAlgorithm st) (sourceNode st) (isRunning st)
     b (currentStep st) (result st) (steps st) (manualMode st).

Definition setCurrentStep (i : nat) (st : State) : State :=
  mk (nodes st) (edges st) (selectedAlgorithm st) (sourceNode st) (isRunning st)
     (isPaused st) i (result st) (steps st) (manualMode st).

Definition setManualMode (b : bool) (st : State) : State :=
  mk (nodes st) (edges st) (selectedAlgorithm st) (sourceNode st) (isRunning st)
     (isPaused st) (currentStep st) (result st) (steps st) b.

(** [if (!nodes.some((n) => n.id === nodeId)) setNodes([...nodes, { id: nodeId }])] *)
Definition handleAddNode (nodeId : string) (st : State) : State :=
  if negb (hasNode (nodes st) nodeId)
  then setNodes (nodes st ++ [mkNode nodeId]) st
  else st.

Definition handleAddEdge (edge : GraphEdge) (st : State) : State :=
  if negb (hasEdge (edges st) (source edge) (destination edge))
  then setEdges (edges st ++ [edge]) st
  else st.

Definition handleRemoveNode (nodeId : string) (st : State) : State :=
  setEdges
    (List.filter (fun e => negb (bool_decide (source e = nodeId)) &&
                           negb (bool_decide (destination e = nodeId)))
                 (edges st))
    (setNodes (List.filter (fun n => negb (bool_decide (id n = nodeId))) (nodes st))
              st).

(** [setEdges(edges.filter((_, idx) => idx !== index))] *)
Definition handleRemoveEdge (index : nat) (st : State) : State :=
  setEdges (filterIdx (fun _ idx => negb (idx =? index)%nat) (edges st) 0) st.

Definition handleClear (st : State) : State :=
  mk [] [] (selectedAlgorithm st) EmptyString false false 0 None [] (manualMode st).

(** [handleRun]: nothing happens without a source or without nodes;
    otherwise the selected algorithm of [client/lib] runs, and an exception
    of the engine escapes the handler. *)
Definition handleRun (st : State) : option State :=
  if negb (truthy (sourceNode st)) || (length (nodes st) =? 0)%nat then Some st
  else
    match
      match selectedAlgorithm st with
      | Dijkstra => GraphAlgorithms.dijkstra (nodes st) (edges st) (sourceNode st)
      | BellmanFord =>
          Some (GraphAlgorithms.bellmanFord (nodes st) (edges st) (sourceNode st))
      end
    with
    | Some algorithmResult =>
        Some (mk (nodes st) (edges st) (selectedAlgorithm st) (sourceNode st)
                 true false 0 (Some algorithmResult) (Result.steps algorithmResult)
                 (manualMode st))
    | None => None
    end.

Definition handlePause (st : State) : State := setIsPaused true st.

Definition handleResume (st : State) : State := setIsPaused false st.

Definition handleReset (st : State) : State :=
  mk (nodes st) (edges st) (selectedAlgorithm st) (sourceNode st)
     false false 0 None [] (manualMode st).

Definition handlePreviousStep (st : State) : State :=
  if (0 <? currentStep st)%nat then setCurrentStep (currentStep st - 1) st else st.

(** [if (currentStep < steps.length - 1) setCurrentStep(currentStep + 1)] *)
Definition handleNextStep (st : State) : State :=
  if (S (currentStep st) <? length (steps st))%nat
  then setCurrentStep (currentStep st + 1) st
  else st.

(** One firing of the auto-advance interval, which [useEffect] installs
    only while running, not paused, with steps, outside manual mode. *)
Definition tick (st : State) : State :=
  if negb (isRunning st) || isPaused st || (length (steps st) =? 0)%nat
     || manualMode st
  then st
  else if (S (currentStep st) <? length (steps st))%nat
       then setCurrentStep (currentStep st + 1) st
       else setIsRunning false st.

(** [const currentStepData = steps[currentStep]] *)
Definition currentStepData (st : State) : option AlgorithmStep :=
  steps st !! currentStep st.

End Index.

(** The handlers of [InputPanel].  The string functions of the platform
    are taken as given: [trim], [split(/\s+/)], and [parseInt(_, 10)] with
    [None] for [NaN]. *)
Module InputPanel.
Section Handlers.
Context (trim : string -> string) (splitSpaces : string -> list string)
        (parseInt : string -> option Z).

Definition handleAddNode (nodeInput : string) (st : Index.State) : Index.State :=
  let nodeId := trim nodeInput in
  if truthy nodeId && negb (hasNode (Index.nodes st) nodeId)
  then Index.handleAddNode nodeId st
  else st.

Definition handleAddEdge (edgeInput : string) (st : Index.State) : Index.State :=
  match splitSpaces (trim edgeInput) with
  | [source; destination; weightStr] =>
      match parseInt weightStr with
      | Some weight =>
          if hasNode (Index.nodes st) source && hasNode (Index.nodes st) destination
          then Index.handleAddEdge (mkEdge source destination weight) st
          else st
      | None => st
      end
  | _ => st
  end.

End Handlers.
End InputPanel.

(** What a user can do on the page: the buttons and fields of [InputPanel]
    and [ControlPanel], the buttons of [Index], and the timer. *)
Inductive Action :=
  | AddNode (nodeInput : string)
  | AddEdge (edgeInput : string)
  | RemoveNode (nodeId : string)
  | RemoveEdge (index : nat)
  | Clear
  | ChooseAlgorithm (a : Algorithm)
  | ChooseSource (s : string)
  | ChooseManualMode (b : bool)
  | Run
  | Pause
  | Resume
  | Reset
  | PreviousStep
  | NextStep
  | Tick.

Section Session.
Context (trim : string -> string) (splitSpaces : string -> list string)
        (parseInt : string -> option Z).

Definition act (a : Action) (st : Index.State) : option Index.State :=
  match a with
  | AddNode nodeInput => Some (InputPanel.handleAddNode trim nodeInput st)
  | AddEdge edgeInput =>
      Some (InputPanel.handleAddEdge trim splitSpaces parseInt edgeInput st)
  | RemoveNode nodeId => Some (Index.handleRemoveNode nodeId st)
  | RemoveEdge index => Some (Index.handleRemoveEdge index st)
  | Clear => Some (Index.handleClear st)
  | ChooseAlgorithm a => Some (Index.setSelectedAlgorithm a st)
  | ChooseSource s => Some (Index.setSourceNode s st)
  | ChooseManualMode b => Some (Index.setManualMode b st)
  | Run => Index.handleRun st
  | Pause => Some (Index.handlePause st)
  | Resume => Some (Index.handleResume st)
  | Reset => Some (Index.handleReset st)
  | PreviousStep => Some (Index.handlePreviousStep st)
  | NextStep => Some (Index.handleNextStep st)
  | Tick => Some (Index.tick st)
  end.

(** A session: the actions in order, from a given state. *)
Fixpoint session (actions : list Action) (st : Index.State) : option Index.State :=
  match actions with
  | [] => Some st
  | a :: rest =>
      match act a st with
      | Some st' => session rest st'
      | None => None
      end
  end.

End Session.

(** [GraphCanvas]: the two flags that colour an edge. *)
Module GraphCanvas.

(** [highlightedEdge?.source === edge.source &&
    highlightedEdge?.destination === edge.destination] *)
Definition isHighlighted (highlightedEdge : option (string * string))
           (edge : GraphEdge) : bool :=
  match highlightedEdge with
  | Some (s, d) => bool_decide (s = source edge) && bool_decide (d = destination edge)
  | None => false
  end.

(** [shortestPathTree.some((e) => e.source === edge.source &&
    e.destination === edge.destination)] *)
Definition isInShortestPath (shortestPathTree : list GraphEdge) (edge : GraphEdge)
  : bool :=
  hasEdge shortestPathTree (source edge) (destination edge).

End GraphCanvas.

(** * Specification vocabulary *)

(** The outgoing (neighbor, weight) pairs of node [k], in edge-list order. *)
Definition outgoing (k : string) (edges : list GraphEdge) : list (string * Z) :=
  (fun e => (destination e, weight e))
    <$> filter (fun e => source e = k) edges.

(** Snapshots that the engine can pass through: the initial maps, closed
    under a strictly improving relaxation of an edge whose tail has a finite
    distance. *)
Inductive reachable (nodes : list GraphNode) (edges : list GraphEdge) (s : string)
  : gmap string JsNum -> gmap string (option string) -> Prop :=
  | reach_init :
      reachable nodes edges s (initDistances nodes s) (initPrevious nodes)
  | reach_relax d p e x :
      reachable nodes edges s d p ->
      e ∈ edges ->
      get d (source e) = Fin x ->
      jsLt (Fin (x + weight e)) (get d (destination e)) = true ->
      reachable nodes edges s
        (<[destination e := Fin (x + weight e)]> d)
        (<[destination e := Some (source e)]> p).

(** A property of (distances, previous) holds of the final maps of a result
    and of the snapshot of every emitted step. *)
Definition snapshotsOk (P : gmap string JsNum -> gmap string (option string) -> Prop)
           (r : AlgorithmResult) : Prop :=
  P (Result.distances r) (Result.previous r) /\
  Forall (fun st => P (Step.distances st) (Step.previous st)) (Result.steps r).

(** The invariant of the data model relating predecessor and distance. *)
Definition predecessorInvariant (s : string)
           (d : gmap string JsNum) (p : gmap string (option string)) : Prop :=
  forall k a q, d !! k = Some a -> p !! k = Some q ->
    match q with
    | None => (a = Fin 0 /\ k = s) \/ a = Infinity
    | Some _ => exists x, a = Fin x
    end.

(** Both maps have exactly the input node ids as keys. *)
Definition keysAre (nodes : list GraphNode)
           (d : gmap string JsNum) (p : gmap string (option string)) : Prop :=
  dom d = list_to_set (ids nodes) /\ dom p = list_to_set (ids nodes).




(** Every edge starts at a listed node / ends at a listed node. *)
Definition sourcesKnown (nodes : list GraphNode) (edges : list GraphEdge) : Prop :=
  Forall (fun e => source e ∈ ids nodes) edges.

Definition destinationsKnown (nodes : list GraphNode) (edges : list GraphEdge)
  : Prop :=
  Forall (fun e => destination e ∈ ids nodes) edges.

(** State invariants of the two loops of [client/lib]: the current maps and
    every snapshot emitted so far are reachable. *)
Definition dijkstraInv (nodes : list GraphNode) (edges : list GraphEdge) (s : string)
           (st : GraphAlgorithms.DState) : Prop :=
  reachable nodes edges s (GraphAlgorithms.distances st)
            (GraphAlgorithms.previous st) /\
  Forall (fun step => reachable nodes edges s (Step.distances step) (Step.previous step))
         (GraphAlgorithms.steps st).

Definition bellmanFordInv (nodes : list GraphNode) (edges : list GraphEdge)
           (s : string) (st : GraphAlgorithms.BState) : Prop :=
  reachable nodes edges s (GraphAlgorithms.bdistances st)
            (GraphAlgorithms.bprevious st) /\
  Forall (fun step => reachable nodes edges s (Step.distances step) (Step.previous step))
         (GraphAlgorithms.bsteps st).

(** The kinds of the steps of a trace, in order. *)
Definition kinds (steps : list AlgorithmStep) : list StepType := Step.type <$> steps.

(** A run that emits nothing beyond its initialization. *)
Definition onlyInitialization (steps : list AlgorithmStep) : Prop :=
  Forall (fun st => Step.type st = initial) steps.

(** The steps emitted by the relaxation passes of [client/lib], for pass
    number [i] with [count] passes still allowed: a pass that relaxes
    something emits a non-empty block of [relax] steps and is followed by
    the remaining passes; a pass that relaxes nothing emits one [update]
    step and nothing follows. *)
Inductive earlyStopPasses : nat -> nat -> list AlgorithmStep -> Prop :=
  | esp_done i : earlyStopPasses i 0 []
  | esp_relaxed i count block rest :
      block <> [] ->
      Forall (fun x => Step.type x = relax /\ Step.iteration x = i) block ->
      earlyStopPasses (S i) count rest ->
      earlyStopPasses i (S count) (block ++ rest)
  | esp_stop i count u :
      Step.type u = update -> Step.iteration u = i ->
      earlyStopPasses i (S count) [u].

(** The same for the second variant: a pass that relaxes nothing emits one
    [update] step and the remaining passes still follow. *)
Inductive allPasses : nat -> nat -> list AlgorithmStep -> Prop :=
  | ap_done i : allPasses i 0 []
  | ap_relaxed i count block rest :
      block <> [] ->
      Forall (fun x => Step.type x = relax /\ Step.iteration x = i) block ->
      allPasses (S i) count rest ->
      allPasses i (S count) (block ++ rest)
  | ap_idle i count u rest :
      Step.type u = update -> Step.iteration u = i ->
      allPasses (S i) count rest ->
      allPasses i (S count) (u :: rest).

Definition terminal (st : AlgorithmStep) : Prop :=
  Step.type st = complete \/ Step.type st = negative_cycle.

(** The early-stop policy read off a trace: an [update] step is followed by
    the terminal step and nothing else. *)
Definition stopsAfterIdlePass (steps : list AlgorithmStep) : Prop :=
  forall i u, steps !! i = Some u -> Step.type u = update ->
    exists fin, steps !! S i = Some fin /\ terminal fin /\ length steps = S (S i).

(** An [update] step changes nothing: its snapshot is that of the step
    before it. *)
Definition noopUpdates (steps : list AlgorithmStep) : Prop :=
  forall i a u, steps !! i = Some a -> steps !! S i = Some u ->
    Step.type u = update ->
    Step.distances u = Step.distances a /\ Step.previous u = Step.previous a.

(** The last emitted step shows the current maps. *)
Definition lastIsCurrent (steps : list AlgorithmStep)
           (d : gmap string JsNum) (p : gmap string (option string)) : Prop :=
  exists a, last steps = Some a /\ Step.distances a = d /\ Step.previous a = p.

(** A step of the relaxation phase. *)
Definition passStep (st : AlgorithmStep) : Prop :=
  Step.type st = initial \/ Step.type st = relax \/ Step.type st = update.

(** [walk nodes edges s v x k]: some walk from the listed source [s] to [v]
    through listed nodes uses [k] edges of total weight [x]. *)
Inductive walk (nodes : list GraphNode) (edges : list GraphEdge) (s : string)
  : string -> Z -> nat -> Prop :=
  | walk_nil : s ∈ ids nodes -> walk nodes edges s s 0 0
  | walk_step e x k :
      walk nodes edges s (source e) x k ->
      e ∈ edges ->
      destination e ∈ ids nodes ->
      walk nodes edges s (destination e) (x + weight e) (S k).

(** No edge admits an improving relaxation. *)
Definition stable (edges : list GraphEdge) (d : gmap string JsNum) : Prop :=
  forall e, e ∈ edges -> improves d e = false.

(** [d] is at most the weight of every walk of at most [k] edges. *)
Definition boundedBy (nodes : list GraphNode) (edges : list GraphEdge) (s : string)
           (k : nat) (d : gmap string JsNum) : Prop :=
  forall v x j, walk nodes edges s v x j -> (j <= k)%nat ->
    exists y, d !! v = Some (Fin y) /\ y <= x.

(** [d'] is pointwise at most [d] on the finite entries of [d]. *)
Definition leDist (d' d : gmap string JsNum) : Prop :=
  forall v y, d !! v = Some (Fin y) -> exists y', d' !! v = Some (Fin y') /\ y' <= y.

Definition nonNegative (edges : list GraphEdge) : Prop :=
  forall e, e ∈ edges -> 0 <= weight e.

(** The invariant of Dijkstra's [while] loop under non-negative weights. *)
Record dijkstraSound (nodes : list GraphNode) (edges : list GraphEdge) (s : string)
       (d : gmap string JsNum) (V : gset string) : Prop := mkSound {
  sound_finite : forall u, u ∈ V -> exists x, d !! u = Some (Fin x);
  sound_order : forall u v xu,
      u ∈ V -> v ∉ V -> d !! u = Some (Fin xu) -> jsLt (get d v) (Fin xu) = false;
  sound_edges : forall e, e ∈ edges -> source e ∈ V -> improves d e = false;
  sound_walks : forall v x,
      d !! v = Some (Fin x) ->
      exists k, walk nodes edges s v x k /\ (k <= size V)%nat /\
                (v ∈ V -> (k < size V)%nat)
}.

(** The state of Dijkstra's inner loop over the neighbors of [m]: the
    distance [xm] of [m] separates the visited nodes [V] (at most [xm]) from
    the unvisited ones (at least [xm]). *)
Definition relaxingFrom (nodes : list GraphNode) (edges : list GraphEdge) (s : string)
           (m : string) (xm : Z) (V : gset string)
           (d : gmap string JsNum) (p : gmap string (option string)) : Prop :=
  reachable nodes edges s d p /\
  d !! m = Some (Fin xm) /\
  m ∈ V /\
  (forall u, u ∈ V -> exists xu, d !! u = Some (Fin xu) /\ xu <= xm) /\
  (forall v, v ∉ V -> jsLt (get d v) (Fin xm) = false) /\
  (forall e, e ∈ edges -> source e ∈ V -> source e <> m -> improves d e = false) /\
  (forall v x, d !! v = Some (Fin x) ->
     exists k, walk nodes edges s v x k /\ (k <= size V)%nat /\
               (v ∈ V -> (k < size V)%nat)).

(** Closes a goal [k ∉ l] for a closed list of string literals. *)
Ltac not_listed :=
  let H := fresh in
  intros H; cbn in H;
  repeat (apply elem_of_cons in H as [H|H]; [discriminate|]);
  inversion H.

(** State invariants of the two loops of the second variant. *)
Definition part001DijkstraInv (nodes : list GraphNode) (edges : list GraphEdge)
           (s : string) (st : Part001.DState) : Prop :=
  reachable nodes edges s (Part001.distances st) (Part001.previous st) /\
  Forall (fun step => reachable nodes edges s (Step.distances step) (Step.previous step))
         (Part001.steps st).

Definition part001BellmanFordInv (nodes : list GraphNode) (edges : list GraphEdge)
           (s : string) (st : Part001.BState) : Prop :=
  reachable nodes edges s (Part001.bdistances st) (Part001.bprevious st) /\
  Forall (fun step => reachable nodes edges s (Step.distances step) (Step.previous step))
         (Part001.bsteps st).

(** The distances are the weights of the lightest walks from the source:
    a finite distance is the weight of a walk and a lower bound of every
    walk to that node; an infinite distance means that no walk arrives. *)
Definition shortestWalks (nodes : list GraphNode) (edges : list GraphEdge) (s : string)
           (d : gmap string JsNum) : Prop :=
  forall v, v ∈ ids nodes ->
    match d !! v with
    | Some (Fin x) =>
        (exists k, walk nodes edges s v x k) /\
        forall y k, walk nodes edges s v y k -> x <= y
    | Some Infinity => forall y k, ~ walk nodes edges s v y k
    | _ => False
    end.

(** Every recorded predecessor [u] of [v] comes with an input edge
    [u -> v] over which [v] is not closer than [u] plus the weight
    ([slack]), or exactly that far ([tight]). *)
Definition predecessorEdge (edges : list GraphEdge) (tight : bool)
           (d : gmap string JsNum) (p : gmap string (option string)) : Prop :=
  forall v u, p !! v = Some (Some u) ->
    exists e xu xv,
      e ∈ edges /\ source e = u /\ destination e = v /\
      d !! u = Some (Fin xu) /\ d !! v = Some (Fin xv) /\
      if tight then xv = xu + weight e else xu + weight e <= xv.

(** The returned tree holds only input edges that join the final
    predecessor of a listed node to that node, at most one per listed
    node. *)
Definition treeSound (nodes : list GraphNode) (edges : list GraphEdge)
           (r : AlgorithmResult) : Prop :=
  (forall e, e ∈ Result.shortestPathTree r ->
     e ∈ edges /\ destination e ∈ ids nodes /\
     Result.previous r !! destination e = Some (Some (source e))) /\
  (length (Result.shortestPathTree r) <= length nodes)%nat.

(** Every listed node with a predecessor ([nonEmpty]: with a predecessor
    whose id is not the empty string) has its edge in the tree. *)
Definition treeComplete (nonEmpty : bool) (nodes : list GraphNode)
           (r : AlgorithmResult) : Prop :=
  forall n u, n ∈ ids nodes -> Result.previous r !! n = Some (Some u) ->
    (if nonEmpty then u <> EmptyString else True) ->
    exists e, e ∈ Result.shortestPathTree r /\ source e = u /\ destination e = n.

(** Step [b] records one improving relaxation of an input edge, applied to
    the maps [d], [p] shown by the step before it. *)
Definition relaxation (edges : list GraphEdge)
           (d : gmap string JsNum) (p : gmap string (option string))
           (b : AlgorithmStep) : Prop :=
  exists e x,
    e ∈ edges /\
    Step.currentEdge b = Some (source e, destination e) /\
    Step.updatedNodes b = Some [destination e] /\
    get d (source e) = Fin x /\
    jsLt (Fin (x + weight e)) (get d (destination e)) = true /\
    Step.distances b = <[destination e := Fin (x + weight e)]> d /\
    Step.previous b = <[destination e := Some (source e)]> p.

(** What a step may be, given the maps shown by the step before it: a
    [relax] step is one relaxation, any other step shows the same maps. *)
Definition stepAfter (edges : list GraphEdge)
           (d : gmap string JsNum) (p : gmap string (option string))
           (b : AlgorithmStep) : Prop :=
  if decide (Step.type b = relax) then relaxation edges d p b
  else Step.distances b = d /\ Step.previous b = p.

(** Every step of the trace follows from its predecessor in this way. *)
Definition relaxationTrace (edges : list GraphEdge) (steps : list AlgorithmStep)
  : Prop :=
  forall i a b, steps !! i = Some a -> steps !! S i = Some b ->
    stepAfter edges (Step.distances a) (Step.previous a) b.

(** The trace of a result: a relaxation trace that starts with an
    [initial] step and ends with a terminal step showing the returned
    maps. *)
Definition wellFormedTrace (edges : list GraphEdge) (r : AlgorithmResult) : Prop :=
  relaxationTrace edges (Result.steps r) /\
  (exists ini, head (Result.steps r) = Some ini /\ Step.type ini = initial) /\
  (exists fin, last (Result.steps r) = Some fin /\ terminal fin /\
               Step.distances fin = Result.distances r /\
               Step.previous fin = Result.previous r).

(** The [select] steps of a trace, and the nodes they select, in order. *)
Definition selectSteps (steps : list AlgorithmStep) : list AlgorithmStep :=
  filter (fun st => Step.type st = select) steps.

Definition selected (steps : list AlgorithmStep) : list string :=
  omap Step.currentNode (selectSteps steps).

(** The invariant tying the [select] steps to the loop state of Dijkstra:
    the selected nodes are the visited ones, each selected once, listed and
    of finite distance, and the [select] steps are numbered 1, 2, ... up to
    the counter. *)
Record selectionLog (nodes : list GraphNode) (steps : list AlgorithmStep)
       (V : gset string) (d : gmap string JsNum) (it : nat) : Prop := mkLog {
  log_nodup : NoDup (selected steps);
  log_visited : forall m, m ∈ selected steps <-> m ∈ V;
  log_listed : forall m, m ∈ V -> m ∈ ids nodes;
  log_finite : forall m, m ∈ V -> exists x, d !! m = Some (Fin x);
  log_iterations :
    Step.iteration <$> selectSteps steps = seq 1 (length (selectSteps steps));
  log_next : it = S (length (selectSteps steps))
}.

(** Dijkstra selects no node twice, only listed nodes, whose returned
    distance is finite; the [select] steps carry the iteration numbers
    1, 2, ... and the last step the next number. *)
Definition selectsOnce (nodes : list GraphNode) (r : AlgorithmResult) : Prop :=
  NoDup (selected (Result.steps r)) /\
  (forall m, m ∈ selected (Result.steps r) ->
     m ∈ ids nodes /\ exists x, Result.distances r !! m = Some (Fin x)) /\
  Step.iteration <$> selectSteps (Result.steps r)
  = seq 1 (length (selectSteps (Result.steps r))) /\
  (exists fin, last (Result.steps r) = Some fin /\
     Step.iteration fin = S (length (selectSteps (Result.steps r)))).

(** Every node that ends with a finite distance was selected. *)
Definition selectsAllFinite (r : AlgorithmResult) : Prop :=
  forall v x, Result.distances r !! v = Some (Fin x) ->
              v ∈ selected (Result.steps r).

(** The distance a [select] step shows for its node is the one returned. *)
Definition selectionsFinal (steps : list AlgorithmStep) (d : gmap string JsNum)
  : Prop :=
  forall st m, st ∈ steps -> Step.type st = select -> Step.currentNode st = Some m ->
    exists x, Step.distances st !! m = Some (Fin x) /\ d !! m = Some (Fin x).

(** Nodes are selected in the order of their returned distances. *)
Definition selectionsAscend (steps : list AlgorithmStep) (d : gmap string JsNum)
  : Prop :=
  forall i j u v xu xv, (i <= j)%nat ->
    selected steps !! i = Some u -> selected steps !! j = Some v ->
    d !! u = Some (Fin xu) -> d !! v = Some (Fin xv) -> xu <= xv.

(** A graph as the panels let a user build it: distinct, non-empty node
    ids, every edge between listed nodes, one edge per ordered pair. *)
Record wellFormedGraph (nodes : list GraphNode) (edges : list GraphEdge) : Prop :=
  mkWellFormed {
  wf_ids : NoDup (ids nodes);
  wf_nonempty : EmptyString ∉ ids nodes;
  wf_sources : sourcesKnown nodes edges;
  wf_destinations : destinationsKnown nodes edges;
  wf_pairs : NoDup ((fun e => (source e, destination e)) <$> edges)
}.

(** The playback state is coherent: the steps are those of the held result
    and the cursor points at one of them; without a result there are no
    steps, the cursor is 0 and nothing is running. *)
Definition playbackOk (st : Index.State) : Prop :=
  match Index.result st with
  | Some r =>
      Index.steps st = Result.steps r /\
      (Index.currentStep st < length (Index.steps st))%nat
  | None =>
      Index.steps st = [] /\ Index.currentStep st = 0%nat /\
      Index.isRunning st = false
  end.

(** A walk together with the nodes it visits, last visited first. *)
Inductive trail (nodes : list GraphNode) (edges : list GraphEdge) (s : string)
  : string -> Z -> list string -> Prop :=
  | trail_nil : s ∈ ids nodes -> trail nodes edges s s 0 [s]
  | trail_step e x l :
      trail nodes edges s (source e) x l ->
      e ∈ edges ->
      destination e ∈ ids nodes ->
      trail nodes edges s (destination e) (x + weight e) (destination e :: l).

(** Some walk from the source reaches a node that lies on a closed walk of
    negative total weight. *)
Definition negativeCycle (nodes : list GraphNode) (edges : list GraphEdge)
           (s : string) : Prop :=
  exists v x k c j,
    walk nodes edges s v x k /\ walk nodes edges v v c j /\ c < 0.

(** Following the recorded predecessors from a node leads to the source,
    over input edges across which the distances do not drop by more than
    the weight. *)
Inductive rooted (edges : list GraphEdge) (s : string)
          (d : gmap string JsNum) (p : gmap string (option string))
  : string -> Prop :=
  | rooted_root x :
      p !! s = Some None -> d !! s = Some (Fin x) -> rooted edges s d p s
  | rooted_step e xu xv :
      rooted edges s d p (source e) ->
      e ∈ edges ->
      p !! destination e = Some (Some (source e)) ->
      d !! source e = Some (Fin xu) ->
      d !! destination e = Some (Fin xv) ->
      xu + weight e <= xv ->
      rooted edges s d p (destination e).

(** [treePath edges p s v x k]: the predecessors recorded in [p] lead from
    [v] back to the source [s], which has none, over [k] input edges of
    total weight [x]. *)
Inductive treePath (edges : list GraphEdge) (p : gmap string (option string))
          (s : string) : string -> Z -> nat -> Prop :=
  | treePath_root : p !! s = Some None -> treePath edges p s s 0 0
  | treePath_step e x k :
      treePath edges p s (source e) x k ->
      e ∈ edges ->
      p !! destination e = Some (Some (source e)) ->
      treePath edges p s (destination e) (x + weight e) (S k).

(** Every finite distance is the weight of the path that the predecessors
    trace back to the source. *)
Definition treePaths (edges : list GraphEdge) (s : string)
           (d : gmap string JsNum) (p : gmap string (option string)) : Prop :=
  forall v x, d !! v = Some (Fin x) -> exists k, treePath edges p s v x k.

(** ** The inputs on which the embedding is exact *)

(** The string-keyed members of [Object.prototype].  The engine keeps its
    maps in plain object literals, which inherit them: reading such a key
    from an object that does not own it yields a function or an object
    where the maps below yield [undefined], and an assignment to
    ["__proto__"] creates no own property. *)
Definition inheritedNames : list string :=
  ["constructor"; "hasOwnProperty"; "isPrototypeOf"; "propertyIsEnumerable";
   "toLocaleString"; "toString"; "valueOf"; "__defineGetter__";
   "__defineSetter__"; "__lookupGetter__"; "__lookupSetter__"; "__proto__"].

(** A key on which a plain object behaves as a finite map. *)
Definition plainKey (k : string) : Prop := k ∉ inheritedNames.

Definition plainIds (nodes : list GraphNode) : Prop := Forall plainKey (ids nodes).

(** No node id and no edge endpoint names a member of [Object.prototype]. *)
Definition plainKeys (nodes : list GraphNode) (edges : list GraphEdge) : Prop :=
  plainIds nodes /\
  Forall (fun e => plainKey (source e) /\ plainKey (destination e)) edges.

(** The integers up to [2^53] in absolute value are binary64 numbers, and a
    sum of two of them that stays in that range is computed exactly.  Under
    [exactSums] every weight, multiplied by [(|V| + 2) * (|E| + 2)], stays in
    that range; a run forms no sum of more terms than that (see
    [runs_stay_exact]). *)
Definition exactSums (nodes : list GraphNode) (edges : list GraphEdge) : Prop :=
  Forall (fun e =>
            Z.abs (weight e)
            * (Z.of_nat (length nodes + 2) * Z.of_nat (length edges + 2)) <= 2 ^ 53)
         edges.

(** A key that reads as a number or as [undefined]: a listed id (an own
    property, unless it is ["__proto__"]) or a name that nothing inherits. *)
Definition ownOrPlain (nodes : list GraphNode) (k : string) : Prop :=
  k ∈ ids nodes \/ plainKey k.

(** The tree lists at most one edge for each entry of the node list, in
    the order of the node list. *)
Definition treeInNodeOrder (nodes : list GraphNode) (r : AlgorithmResult) : Prop :=
  (destination <$> Result.shortestPathTree r) `sublist_of` ids nodes.

(** Every number of the snapshot, and every sum an edge can form from it,
    is an integer of absolute value at most [2^53]. *)
Definition safeSnapshot (edges : list GraphEdge) (d : gmap string JsNum) : Prop :=
  (forall k x, d !! k = Some (Fin x) -> Z.abs x <= 2 ^ 53) /\
  (forall e x, e ∈ edges -> get d (source e) = Fin x ->
               Z.abs (x + weight e) <= 2 ^ 53).

Ltac plain_key :=
  unfold plainKey, inheritedNames; cbn [source destination];
  rewrite !not_elem_of_cons; repeat split; try discriminate; apply not_elem_of_nil.

Ltac plain_keys :=
  repeat match goal with
         | |- plainKeys _ _ => split
         | |- plainIds _ => unfold plainIds; cbn [ids fmap list_fmap id]
         | |- Forall _ [] => apply Forall_nil
         | |- Forall _ (_ :: _) => apply Forall_cons
         | |- _ /\ _ => split
         | |- True => exact I
         | |- plainKey _ => plain_key
         end.

Ltac exact_sums :=
  unfold exactSums;
  repeat match goal with
         | |- Forall _ [] => apply Forall_nil
         | |- Forall _ (_ :: _) => apply Forall_cons
         | |- _ /\ _ => split
         | |- True => exact I
         end;
  try (vm_compute; discriminate).

(** * Properties *)

(** ** JavaScript comparisons *)

Lemma jsLt_Fin_inv a y :
  jsLt a (Fin y) = true -> exists x, a = Fin x /\ x < y.
Proof.
  destruct a as [x| |]; simpl; try discriminate.
  intros H. apply bool_decide_eq_true in H. eauto.
Qed.

Lemma jsLt_true_l a b : jsLt a b = true -> exists x, a = Fin x.
Proof. destruct a; simpl; try discriminate; eauto. Qed.

Lemma jsLt_true_r a b : jsLt a b = true -> b <> NaN.
Proof. destruct a, b; simpl; congruence. Qed.

Lemma jsAdd_Fin_inv a w y : jsAdd a w = Fin y -> exists x, a = Fin x /\ y = x + w.
Proof. destruct a; simpl; intros; simplify_eq; eauto. Qed.

Lemma get_not_NaN_lookup (d : gmap string JsNum) k :
  get d k <> NaN -> is_Some (d !! k).
Proof. unfold get. destruct (d !! k); simpl; [eauto | congruence]. Qed.

Lemma get_lookup (d : gmap string JsNum) k a : d !! k = Some a -> get d k = a.
Proof. unfold get. intros ->. reflexivity. Qed.

Lemma edge_eta e : mkEdge (source e) (destination e) (weight e) = e.
Proof. destruct e; reflexivity. Qed.

Lemma elem_of_ids nodes k : k ∈ ids nodes <-> exists n, n ∈ nodes /\ id n = k.
Proof.
  unfold ids. rewrite list_elem_of_fmap. split; intros (n & ? & ?); eauto.
Qed.

(** ** Initial maps *)

Lemma initDistances_fold nodes s (acc : gmap string JsNum) k :
  foldl (fun d n =>
           <[id n := if bool_decide (id n = s) then Fin 0 else Infinity]> d)
        acc nodes !! k
  = if decide (k ∈ ids nodes)
    then Some (if bool_decide (k = s) then Fin 0 else Infinity)
    else acc !! k.
Proof.
  revert acc. induction nodes as [|n nodes IH]; intros acc; cbn [foldl].
  - rewrite decide_False by apply not_elem_of_nil. reflexivity.
  - rewrite IH. change (ids (n :: nodes)) with (id n :: ids nodes).
    destruct (decide (k ∈ ids nodes)) as [Hin|Hin].
    + rewrite decide_True by (apply elem_of_cons; auto). reflexivity.
    + destruct (decide (k = id n)) as [->|Hne].
      * rewrite decide_True by (apply elem_of_cons; auto). apply lookup_insert_eq.
      * rewrite decide_False by (rewrite elem_of_cons; tauto).
        apply lookup_insert_ne. congruence.
Qed.

Lemma initDistances_lookup nodes s k :
  initDistances nodes s !! k
  = if decide (k ∈ ids nodes)
    then Some (if bool_decide (k = s) then Fin 0 else Infinity)
    else None.
Proof. unfold initDistances. rewrite initDistances_fold. reflexivity. Qed.

Lemma initPrevious_fold nodes (acc : gmap string (option string)) k :
  foldl (fun p n => <[id n := None]> p) acc nodes !! k
  = if decide (k ∈ ids nodes) then Some None else acc !! k.
Proof.
  revert acc. induction nodes as [|n nodes IH]; intros acc; cbn [foldl].
  - rewrite decide_False by apply not_elem_of_nil. reflexivity.
  - rewrite IH. change (ids (n :: nodes)) with (id n :: ids nodes).
    destruct (decide (k ∈ ids nodes)) as [Hin|Hin].
    + rewrite decide_True by (apply elem_of_cons; auto). reflexivity.
    + destruct (decide (k = id n)) as [->|Hne].
      * rewrite decide_True by (apply elem_of_cons; auto). apply lookup_insert_eq.
      * rewrite decide_False by (rewrite elem_of_cons; tauto).
        apply lookup_insert_ne. congruence.
Qed.

Lemma initPrevious_lookup nodes k :
  initPrevious nodes !! k = if decide (k ∈ ids nodes) then Some None else None.
Proof. unfold initPrevious. rewrite initPrevious_fold. reflexivity. Qed.

Lemma dom_initDistances nodes s :
  dom (initDistances nodes s) = list_to_set (ids nodes).
Proof.
  apply set_eq. intros k. rewrite elem_of_dom, initDistances_lookup.
  rewrite elem_of_list_to_set.
  destruct (decide (k ∈ ids nodes)); split; intros H; eauto.
  - destruct H; discriminate.
  - contradiction.
Qed.

Lemma dom_initPrevious nodes :
  dom (initPrevious nodes) = list_to_set (ids nodes).
Proof.
  apply set_eq. intros k. rewrite elem_of_dom, initPrevious_lookup.
  rewrite elem_of_list_to_set.
  destruct (decide (k ∈ ids nodes)); split; intros H; eauto.
  - destruct H; discriminate.
  - contradiction.
Qed.

(** ** Reachable snapshots *)

Lemma reachable_dom nodes edges s d p :
  reachable nodes edges s d p -> keysAre nodes d p.
Proof.
  induction 1 as [|d p e x Hr [IHd IHp] He Hs Hlt].
  - split; [apply dom_initDistances | apply dom_initPrevious].
  - assert (Hk : destination e ∈ dom d).
    { apply elem_of_dom, get_not_NaN_lookup. eapply jsLt_true_r, Hlt. }
    assert (Hsub : forall X : gset string, destination e ∈ X ->
                                           {[destination e]} ∪ X = X).
    { intros X HX. apply set_eq. intros y.
      rewrite elem_of_union, elem_of_singleton. intuition (subst; auto). }
    split; rewrite dom_insert_L.
    + rewrite Hsub; auto.
    + rewrite Hsub; [auto | rewrite IHp, <- IHd; auto].
Qed.

Lemma reachable_no_NaN nodes edges s d p :
  reachable nodes edges s d p -> forall k, d !! k <> Some NaN.
Proof.
  induction 1 as [|d p e x Hr IH He Hs Hlt]; intros k.
  - rewrite initDistances_lookup. destruct (decide _); [|discriminate].
    destruct (bool_decide _); discriminate.
  - destruct (decide (k = destination e)) as [->|Hne].
    + rewrite lookup_insert_eq. discriminate.
    + rewrite lookup_insert_ne by congruence. apply IH.
Qed.

Lemma reachable_predecessorInvariant nodes edges s d p :
  reachable nodes edges s d p -> predecessorInvariant s d p.
Proof.
  induction 1 as [|d p e x Hr IH He Hs Hlt]; intros k a q Hd Hp.
  - rewrite initDistances_lookup in Hd. rewrite initPrevious_lookup in Hp.
    destruct (decide _); [|discriminate]. simplify_eq.
    destruct (bool_decide_reflect (k = s)); auto.
  - destruct (decide (k = destination e)) as [->|Hne].
    + rewrite lookup_insert_eq in Hd. rewrite lookup_insert_eq in Hp.
      simplify_eq. eauto.
    + rewrite lookup_insert_ne in Hd by congruence.
      rewrite lookup_insert_ne in Hp by congruence. eapply IH; eauto.
Qed.

Lemma snapshotsOk_impl (P Q : gmap string JsNum -> gmap string (option string) -> Prop) r :
  (forall d p, P d p -> Q d p) -> snapshotsOk P r -> snapshotsOk Q r.
Proof.
  intros HPQ [H1 H2]. split; [auto|].
  eapply Forall_impl; [exact H2|]. simpl. auto.
Qed.

(** ** The adjacency builders *)

Lemma outgoing_nil k : outgoing k [] = [].
Proof. reflexivity. Qed.

Lemma outgoing_cons k e edges :
  outgoing k (e :: edges)
  = if decide (source e = k)
    then (destination e, weight e) :: outgoing k edges
    else outgoing k edges.
Proof.
  unfold outgoing. rewrite filter_cons.
  destruct (decide (source e = k)); reflexivity.
Qed.

Lemma elem_of_outgoing k edges v w :
  (v, w) ∈ outgoing k edges <-> mkEdge k v w ∈ edges.
Proof.
  unfold outgoing. rewrite list_elem_of_fmap. split.
  - intros (e & Heq & Hin). apply list_elem_of_filter in Hin as [Hs Hin].
    simplify_eq. rewrite edge_eta. exact Hin.
  - intros Hin. exists (mkEdge k v w). split; [reflexivity|].
    apply list_elem_of_filter. split; [reflexivity | exact Hin].
Qed.

Lemma emptyLists_fold nodes (acc : AdjacencyList) k :
  foldl (fun a n => <[id n := []]> a) acc nodes !! k
  = if decide (k ∈ ids nodes) then Some [] else acc !! k.
Proof.
  revert acc. induction nodes as [|n nodes IH]; intros acc; cbn [foldl].
  - rewrite decide_False by apply not_elem_of_nil. reflexivity.
  - rewrite IH. change (ids (n :: nodes)) with (id n :: ids nodes).
    destruct (decide (k ∈ ids nodes)) as [Hin|Hin].
    + rewrite decide_True by (apply elem_of_cons; auto). reflexivity.
    + destruct (decide (k = id n)) as [->|Hne].
      * rewrite decide_True by (apply elem_of_cons; auto). apply lookup_insert_eq.
      * rewrite decide_False by (rewrite elem_of_cons; tauto).
        apply lookup_insert_ne. congruence.
Qed.

Lemma pushEdges_Some edges (a a' : AdjacencyList) :
  GraphAlgorithms.pushEdges edges a = Some a' ->
  Forall (fun e => is_Some (a !! source e)) edges /\
  forall k, a' !! k = (fun l => l ++ outgoing k edges) <$> (a !! k).
Proof.
  revert a. induction edges as [|e edges IH]; intros a; simpl.
  - intros [= <-]. split; [constructor|]. intros k.
    destruct (a !! k); simpl; [rewrite app_nil_r|]; reflexivity.
  - destruct (a !! source e) as [l|] eqn:Hl; [|discriminate].
    intros H. apply IH in H as [Hall Hlk]. split.
    + constructor; [rewrite Hl; eauto|].
      eapply Forall_impl; [exact Hall|]. intros e' He'. cbn beta in He'.
      destruct (decide (source e' = source e)) as [Heq|Hne].
      * rewrite Heq, Hl. eauto.
      * rewrite lookup_insert_ne in He' by congruence. exact He'.
    + intros k. rewrite Hlk, outgoing_cons.
      destruct (decide (source e = k)) as [<-|Hne].
      * rewrite lookup_insert_eq, Hl. simpl. rewrite <- app_assoc. reflexivity.
      * rewrite lookup_insert_ne by congruence. reflexivity.
Qed.

Lemma pushEdges_is_Some edges (a : AdjacencyList) :
  Forall (fun e => is_Some (a !! source e)) edges ->
  is_Some (GraphAlgorithms.pushEdges edges a).
Proof.
  revert a. induction edges as [|e edges IH]; intros a Hall; simpl; [eauto|].
  inversion Hall as [|? ? [l Hl] Hrest]; subst. rewrite Hl. apply IH.
  eapply Forall_impl; [exact Hrest|]. intros e' [l' He']. cbn beta.
  destruct (decide (source e' = source e)) as [Heq|Hne].
  - rewrite Heq, lookup_insert_eq. eauto.
  - rewrite lookup_insert_ne by congruence. eauto.
Qed.

(** The builder of [client/lib] returns exactly when every edge starts at a
    listed node, and then maps each listed node to its outgoing pairs. *)
Lemma buildAdjacencyList_Some nodes edges adjList :
  GraphAlgorithms.buildAdjacencyList nodes edges = Some adjList ->
  sourcesKnown nodes edges /\
  forall k, adjList !! k
            = if decide (k ∈ ids nodes) then Some (outgoing k edges) else None.
Proof.
  unfold GraphAlgorithms.buildAdjacencyList. intros H.
  apply pushEdges_Some in H as [Hall Hlk]. split.
  - eapply Forall_impl; [exact Hall|]. intros e [l He]. cbn beta.
    rewrite emptyLists_fold, lookup_empty in He.
    destruct (decide (source e ∈ ids nodes)); [assumption | discriminate].
  - intros k. rewrite Hlk, emptyLists_fold, lookup_empty.
    destruct (decide (k ∈ ids nodes)); reflexivity.
Qed.

Lemma buildAdjacencyList_is_Some nodes edges :
  sourcesKnown nodes edges ->
  is_Some (GraphAlgorithms.buildAdjacencyList nodes edges).
Proof.
  intros Hall. apply pushEdges_is_Some.
  eapply Forall_impl; [exact Hall|]. intros e He. cbn beta.
  rewrite emptyLists_fold, decide_True by assumption. eauto.
Qed.

Lemma buildAdjacencyList_None nodes edges :
  GraphAlgorithms.buildAdjacencyList nodes edges = None <->
  ~ sourcesKnown nodes edges.
Proof.
  split.
  - intros HN Hall. apply buildAdjacencyList_is_Some in Hall as [a Ha]. congruence.
  - intros Hn. destruct (GraphAlgorithms.buildAdjacencyList nodes edges) eqn:E;
      [|reflexivity].
    apply buildAdjacencyList_Some in E as [Hall _]. contradiction.
Qed.

Lemma buildAdjacencyList_total_lookup nodes edges adjList k v w :
  GraphAlgorithms.buildAdjacencyList nodes edges = Some adjList ->
  (v, w) ∈ adjList !!! k -> mkEdge k v w ∈ edges.
Proof.
  intros H Hin. apply buildAdjacencyList_Some in H as [_ Hlk].
  unfold lookup_total, map_lookup_total in Hin. rewrite Hlk in Hin.
  destruct (decide (k ∈ ids nodes)); simpl in Hin.
  - apply elem_of_outgoing. exact Hin.
  - apply elem_of_nil in Hin. contradiction.
Qed.

(** The builder of the second variant never fails: unknown edge sources
    get an entry of their own. *)
Lemma part001_initial_fold nodes (acc : AdjacencyList) k :
  foldl (fun a n => match a !! id n with
                    | Some _ => a
                    | None => <[id n := []]> a
                    end) acc nodes !! k
  = match acc !! k with
    | Some l => Some l
    | None => if decide (k ∈ ids nodes) then Some [] else None
    end.
Proof.
  revert acc. induction nodes as [|n nodes IH]; intros acc; cbn [foldl].
  - rewrite decide_False by apply not_elem_of_nil. destruct (acc !! k); reflexivity.
  - rewrite IH. change (ids (n :: nodes)) with (id n :: ids nodes).
    destruct (acc !! id n) as [l|] eqn:Hn.
    + destruct (acc !! k) as [l'|] eqn:Hk; [reflexivity|].
      assert (k <> id n) by congruence.
      destruct (decide (k ∈ ids nodes)).
      * rewrite decide_True by (apply elem_of_cons; auto). reflexivity.
      * rewrite decide_False by (rewrite elem_of_cons; tauto). reflexivity.
    + destruct (decide (k = id n)) as [->|Hne].
      * rewrite lookup_insert_eq, Hn.
        rewrite decide_True by (apply elem_of_cons; auto). reflexivity.
      * rewrite lookup_insert_ne by congruence.
        destruct (acc !! k); [reflexivity|].
        destruct (decide (k ∈ ids nodes)).
        -- rewrite decide_True by (apply elem_of_cons; auto). reflexivity.
        -- rewrite decide_False by (rewrite elem_of_cons; tauto). reflexivity.
Qed.

Lemma part001_edges_fold edges (acc : AdjacencyList) k :
  foldl (fun a e =>
           let a' := match a !! source e with
                     | Some _ => a
                     | None => <[source e := []]> a
                     end in
           <[source e := (a' !!! source e) ++ [(destination e, weight e)]]> a')
        acc edges !! k
  = match acc !! k with
    | Some l => Some (l ++ outgoing k edges)
    | None => if decide (k ∈ source <$> edges)
              then Some (outgoing k edges) else None
    end.
Proof.
  revert acc. induction edges as [|e edges IH]; intros acc; cbn [foldl].
  - rewrite outgoing_nil. destruct (acc !! k); [rewrite app_nil_r|]; reflexivity.
  - rewrite IH. rewrite outgoing_cons. rewrite fmap_cons. cbn zeta.
    destruct (decide (source e = k)) as [<-|Hne].
    + rewrite lookup_insert_eq.
      destruct (acc !! source e) as [l|] eqn:Hs.
      * unfold lookup_total, map_lookup_total. rewrite Hs. simpl.
        rewrite <- app_assoc. reflexivity.
      * unfold lookup_total, map_lookup_total. rewrite lookup_insert_eq. simpl.
        rewrite decide_True by (apply elem_of_cons; auto). reflexivity.
    + rewrite lookup_insert_ne by congruence.
      assert ((match acc !! source e with
               | Some _ => acc
               | None => <[source e := []]> acc
               end) !! k = acc !! k) as ->.
      { destruct (acc !! source e); [reflexivity|].
        apply lookup_insert_ne. congruence. }
      destruct (acc !! k); [reflexivity|].
      destruct (decide (k ∈ source <$> edges)).
      * rewrite decide_True by (apply elem_of_cons; auto). reflexivity.
      * rewrite decide_False; [reflexivity|].
        rewrite elem_of_cons. intros [?|?]; congruence.
Qed.

Lemma part001_buildAdjacencyList_lookup nodes edges k :
  Part001.buildAdjacencyList nodes edges !! k
  = if decide (k ∈ ids nodes \/ k ∈ source <$> edges)
    then Some (outgoing k edges) else None.
Proof.
  unfold Part001.buildAdjacencyList. cbn zeta.
  rewrite part001_edges_fold, part001_initial_fold, lookup_empty.
  destruct (decide (k ∈ ids nodes)) as [Hn|Hn].
  - rewrite decide_True by auto. reflexivity.
  - destruct (decide (k ∈ source <$> edges)) as [He|He].
    + rewrite decide_True by auto. reflexivity.
    + rewrite decide_False by tauto. reflexivity.
Qed.

(** ** Every snapshot of a run is reachable *)

Section Snapshots.
Context (nodes : list GraphNode) (edges : list GraphEdge) (s : string).

Local Abbreviation dijkstraInv := (dijkstraInv nodes edges s).
Local Abbreviation bellmanFordInv := (bellmanFordInv nodes edges s).

(** *** Dijkstra ([client/lib]) *)

Lemma relaxNeighbors_inv m nbrs st :
  (forall v w, (v, w) ∈ nbrs -> mkEdge m v w ∈ edges) ->
  dijkstraInv st ->
  dijkstraInv (GraphAlgorithms.relaxNeighbors m nbrs st).
Proof.
  revert st. induction nbrs as [|[v w] nbrs IH]; intros st Hin Hinv; simpl; [assumption|].
  assert (Hrest : forall v' w', (v', w') ∈ nbrs -> mkEdge m v' w' ∈ edges).
  { intros v' w' H. apply Hin. apply elem_of_cons. auto. }
  destruct (jsLt _ _) eqn:Hlt; [|apply IH; assumption].
  destruct (jsLt_true_l _ _ Hlt) as [y Hy].
  apply jsAdd_Fin_inv in Hy as Hx. destruct Hx as (x & Hx & ->).
  rewrite Hx in *. simpl in Hlt |- *.
  destruct Hinv as [Hr Hsteps].
  assert (Hr' : reachable nodes edges s
                  (<[v := Fin (x + w)]> (GraphAlgorithms.distances st))
                  (<[v := Some m]> (GraphAlgorithms.previous st))).
  { apply (reach_relax nodes edges s _ _ (mkEdge m v w) x); auto.
    apply Hin. apply elem_of_cons. auto. }
  apply IH; [assumption|]. split; simpl; [assumption|].
  apply Forall_app. split; [assumption|]. constructor; [exact Hr' | constructor].
Qed.

Lemma visit_inv adjList m x st :
  GraphAlgorithms.buildAdjacencyList nodes edges = Some adjList ->
  dijkstraInv st -> dijkstraInv (GraphAlgorithms.visit adjList m x st).
Proof.
  intros Hadj [Hr Hsteps]. unfold GraphAlgorithms.visit. cbn zeta.
  match goal with
  | |- dijkstraInv (GraphAlgorithms.mkD
                      (GraphAlgorithms.distances ?st2) _ _ _ _) =>
      assert (H2 : dijkstraInv st2)
  end.
  { apply relaxNeighbors_inv.
    - intros v w. apply (buildAdjacencyList_total_lookup nodes). assumption.
    - split; simpl; [assumption|]. apply Forall_app. split; [assumption|].
      constructor; [exact Hr | constructor]. }
  exact H2.
Qed.

Lemma whileLoop_inv fuel adjList st :
  GraphAlgorithms.buildAdjacencyList nodes edges = Some adjList ->
  dijkstraInv st ->
  dijkstraInv (GraphAlgorithms.whileLoop fuel nodes adjList st).
Proof.
  intros Hadj. revert st. induction fuel as [|fuel IH]; intros st Hinv; simpl;
    [assumption|].
  destruct (bool_decide _); [|assumption].
  destruct (GraphAlgorithms.selectMin _ _ _) as [[m|] x]; [|assumption].
  destruct (truthy m); [|assumption].
  apply IH. apply visit_inv; assumption.
Qed.

Lemma dijkstra_reachable r :
  GraphAlgorithms.dijkstra nodes edges s = Some r ->
  snapshotsOk (reachable nodes edges s) r.
Proof.
  unfold GraphAlgorithms.dijkstra.
  destruct (GraphAlgorithms.buildAdjacencyList nodes edges) as [adjList|] eqn:Hadj;
    [|discriminate].
  cbn zeta. intros [= <-].
  match goal with
  | |- context [GraphAlgorithms.whileLoop ?f ?n ?a ?st0] =>
      pose proof (whileLoop_inv f a st0 Hadj) as Hinv
  end.
  destruct Hinv as [Hr Hsteps].
  { split; simpl; [constructor|]. constructor; [constructor | constructor]. }
  split; simpl; [assumption|].
  apply Forall_app. split; [assumption|]. constructor; [exact Hr | constructor].
Qed.

(** *** Bellman-Ford ([client/lib]) *)

Lemma relaxEdges_inv i es st b :
  (forall e, e ∈ es -> e ∈ edges) ->
  bellmanFordInv st ->
  bellmanFordInv (GraphAlgorithms.relaxEdges i es st b).1.
Proof.
  revert st b. induction es as [|e es IH]; intros st b Hin Hinv; simpl; [assumption|].
  assert (Hrest : forall e', e' ∈ es -> e' ∈ edges).
  { intros e' H. apply Hin. apply elem_of_cons. auto. }
  destruct (notInfinity _ && improves _ _) eqn:Hc; [|apply IH; assumption].
  apply andb_true_iff in Hc as [_ Hlt]. unfold improves in Hlt.
  destruct (jsLt_true_l _ _ Hlt) as [y Hy].
  apply jsAdd_Fin_inv in Hy as Hx. destruct Hx as (x & Hx & ->).
  rewrite Hx in *. simpl in Hlt |- *.
  destruct Hinv as [Hr Hsteps].
  assert (Hr' : reachable nodes edges s
                  (<[destination e := Fin (x + weight e)]>
                     (GraphAlgorithms.bdistances st))
                  (<[destination e := Some (source e)]>
                     (GraphAlgorithms.bprevious st))).
  { apply (reach_relax nodes edges s _ _ e x); auto.
    apply Hin. apply elem_of_cons. auto. }
  apply IH; [assumption|]. split; simpl; [assumption|].
  apply Forall_app. split; [assumption|]. constructor; [exact Hr' | constructor].
Qed.

Lemma passes_inv count i st :
  bellmanFordInv st ->
  bellmanFordInv (GraphAlgorithms.passes count i edges st).
Proof.
  revert i st. induction count as [|count IH]; intros i st Hinv; simpl; [assumption|].
  pose proof (relaxEdges_inv i edges st false (fun e H => H) Hinv) as H1.
  destruct (GraphAlgorithms.relaxEdges i edges st false) as [st' relaxed].
  simpl in H1. destruct relaxed; [apply IH; assumption|].
  destruct H1 as [Hr Hsteps]. split; simpl; [assumption|].
  apply Forall_app. split; [assumption|]. constructor; [exact Hr | constructor].
Qed.

Lemma bellmanFord_reachable :
  snapshotsOk (reachable nodes edges s) (GraphAlgorithms.bellmanFord nodes edges s).
Proof.
  unfold GraphAlgorithms.bellmanFord. cbn zeta.
  match goal with
  | |- context [GraphAlgorithms.passes ?c ?i ?es ?st0] =>
      pose proof (passes_inv c i st0) as Hinv;
      set (st := GraphAlgorithms.passes c i es st0) in *
  end.
  destruct Hinv as [Hr Hsteps].
  { split; simpl; [constructor|]. constructor; [constructor | constructor]. }
  destruct (List.find _ edges); split; simpl; try assumption;
    (apply Forall_app; split; [assumption|]; constructor; [exact Hr | constructor]).
Qed.

End Snapshots.

(** ** Steps are only ever appended *)

Lemma relaxNeighbors_steps m nbrs st :
  exists ext,
    GraphAlgorithms.steps (GraphAlgorithms.relaxNeighbors m nbrs st)
    = GraphAlgorithms.steps st ++ ext /\
    Forall (fun x => Step.type x = relax) ext.
Proof.
  revert st. induction nbrs as [|[v w] nbrs IH]; intros st; simpl.
  - exists []. rewrite app_nil_r. auto.
  - destruct (jsLt _ _); [|apply IH].
    edestruct IH as (ext & -> & Hext). simpl. rewrite <- app_assoc.
    eexists. split; [reflexivity|]. constructor; [reflexivity | exact Hext].
Qed.

Lemma visit_steps adjList m x st :
  exists sel ext,
    GraphAlgorithms.steps (GraphAlgorithms.visit adjList m x st)
    = GraphAlgorithms.steps st ++ sel :: ext /\
    Step.type sel = select /\ Step.currentNode sel = Some m /\
    Forall (fun x => Step.type x = relax) ext.
Proof.
  unfold GraphAlgorithms.visit. cbn zeta. simpl.
  edestruct relaxNeighbors_steps as (ext & -> & Hext). simpl.
  rewrite <- app_assoc. simpl. eauto 10.
Qed.

Lemma whileLoop_steps fuel nodes adjList st :
  exists ext,
    GraphAlgorithms.steps (GraphAlgorithms.whileLoop fuel nodes adjList st)
    = GraphAlgorithms.steps st ++ ext /\
    Forall (fun x => Step.type x = select \/ Step.type x = relax) ext.
Proof.
  revert st. induction fuel as [|fuel IH]; intros st; simpl.
  - exists []. rewrite app_nil_r. auto.
  - destruct (bool_decide _); [|exists []; rewrite app_nil_r; auto].
    destruct (GraphAlgorithms.selectMin _ _ _) as [[m|] x];
      [|exists []; rewrite app_nil_r; auto].
    destruct (truthy m); [|exists []; rewrite app_nil_r; auto].
    edestruct IH as (ext & -> & Hext).
    edestruct visit_steps as (sel & ext' & -> & Hsel & _ & Hext').
    rewrite <- app_assoc. eexists. split; [reflexivity|].
    simpl. constructor; [auto|]. apply Forall_app. split; [|exact Hext].
    eapply Forall_impl; [exact Hext'|]. simpl. auto.
Qed.

Lemma relaxEdges_steps i es st b :
  exists ext,
    GraphAlgorithms.bsteps (GraphAlgorithms.relaxEdges i es st b).1
    = GraphAlgorithms.bsteps st ++ ext /\
    Forall (fun x => Step.type x = relax /\ Step.iteration x = i) ext /\
    (GraphAlgorithms.relaxEdges i es st b).2 = b || negb (bool_decide (ext = [])).
Proof.
  revert st b. induction es as [|e es IH]; intros st b; simpl.
  - exists []. rewrite app_nil_r, orb_false_r. auto.
  - destruct (_ && _); [|apply IH].
    edestruct IH as (ext & -> & Hext & ->). simpl. rewrite <- app_assoc.
    eexists. split; [reflexivity|]. split.
    + constructor; [auto | exact Hext].
    + simpl. rewrite orb_true_r. reflexivity.
Qed.

Lemma passes_steps count i edges st :
  exists ext,
    GraphAlgorithms.bsteps (GraphAlgorithms.passes count i edges st)
    = GraphAlgorithms.bsteps st ++ ext /\
    Forall (fun x => Step.type x = relax \/ Step.type x = update) ext.
Proof.
  revert i st. induction count as [|count IH]; intros i st; simpl.
  - exists []. rewrite app_nil_r. auto.
  - destruct (relaxEdges_steps i edges st false) as (ext & Hsteps & Hext & _).
    destruct (GraphAlgorithms.relaxEdges i edges st false) as [st' relaxed].
    simpl in Hsteps.
    assert (Hext' : Forall (fun x => Step.type x = relax \/ Step.type x = update) ext).
    { eapply Forall_impl; [exact Hext|]. simpl. tauto. }
    destruct relaxed.
    + edestruct IH as (ext2 & -> & Hext2). rewrite Hsteps, <- app_assoc.
      eexists. split; [reflexivity|]. apply Forall_app. auto.
    + simpl. rewrite Hsteps, <- app_assoc. eexists. split; [reflexivity|].
      apply Forall_app. split; [assumption|]. constructor; [auto | constructor].
Qed.

(** ** When Dijkstra returns *)

Lemma dijkstra_is_Some nodes edges s :
  sourcesKnown nodes edges -> is_Some (GraphAlgorithms.dijkstra nodes edges s).
Proof.
  intros H. apply buildAdjacencyList_is_Some in H as [a Ha].
  unfold GraphAlgorithms.dijkstra. rewrite Ha. eauto.
Qed.

Lemma dijkstra_None nodes edges s :
  GraphAlgorithms.dijkstra nodes edges s = None <-> ~ sourcesKnown nodes edges.
Proof.
  rewrite <- buildAdjacencyList_None. unfold GraphAlgorithms.dijkstra.
  destruct (GraphAlgorithms.buildAdjacencyList nodes edges); split; congruence.
Qed.

(** ** The first step *)


Lemma initDistances_absent nodes s k a :
  s ∉ ids nodes -> initDistances nodes s !! k = Some a -> a = Infinity.
Proof.
  intros Hs. rewrite initDistances_lookup.
  destruct (decide (k ∈ ids nodes)); [|discriminate].
  destruct (bool_decide_reflect (k = s)); [subst; contradiction|].
  congruence.
Qed.


Lemma dijkstra_first_step nodes edges s r :
  GraphAlgorithms.dijkstra nodes edges s = Some r ->
  exists rest,
    Result.steps r = GraphAlgorithms.initialStep "Dijkstra" nodes s :: rest.
Proof.
  unfold GraphAlgorithms.dijkstra.
  destruct (GraphAlgorithms.buildAdjacencyList nodes edges) as [adjList|];
    [|discriminate].
  cbn zeta. intros [= <-]. simpl.
  edestruct whileLoop_steps as (ext & -> & _). simpl. eauto.
Qed.

Lemma bellmanFord_first_step nodes edges s :
  exists rest,
    Result.steps (GraphAlgorithms.bellmanFord nodes edges s)
    = GraphAlgorithms.initialStep "Bellman-Ford" nodes s :: rest.
Proof.
  unfold GraphAlgorithms.bellmanFord. cbn zeta.
  edestruct passes_steps as (ext & Hext & _).
  destruct (List.find _ edges); simpl; rewrite Hext; simpl; eauto.
Qed.





(** When every edge joins listed nodes and ["__proto__"] is not a node id,
    the key set of the distances and previous maps is the set of node ids
    in every emitted step and in the final result of both algorithms. *)
Theorem key_set_is_node_ids nodes edges s :
  "__proto__" ∉ ids nodes ->
  sourcesKnown nodes edges ->
  destinationsKnown nodes edges ->
  (exists r, GraphAlgorithms.dijkstra nodes edges s = Some r /\
             snapshotsOk (keysAre nodes) r) /\
  snapshotsOk (keysAre nodes) (GraphAlgorithms.bellmanFord nodes edges s).
Proof.
  intros _.
  intros Hsrc _. split.
  - destruct (dijkstra_is_Some nodes edges s Hsrc) as [r Hr]. exists r.
    split; [exact Hr|].
    eapply snapshotsOk_impl; [|apply dijkstra_reachable; exact Hr].
    apply reachable_dom.
  - eapply snapshotsOk_impl; [|apply bellmanFord_reachable].
    apply reachable_dom.
Qed.

Lemma key_set_is_node_ids_witness :
  let nodes := [mkNode "A"; mkNode "B"; mkNode "C"] in
  let edges := [mkEdge "A" "B" 4; mkEdge "A" "C" 1; mkEdge "C" "B" 1] in
  (exists r, GraphAlgorithms.dijkstra nodes edges "A" = Some r /\
             snapshotsOk (keysAre nodes) r) /\
  snapshotsOk (keysAre nodes) (GraphAlgorithms.bellmanFord nodes edges "A").
Proof.
  apply key_set_is_node_ids; try solve [not_listed].
  - repeat constructor; apply bool_decide_unpack; vm_compute; exact I.
  - repeat constructor; apply bool_decide_unpack; vm_compute; exact I.
Defined.

(** ** Concrete scenario *)

(** C4: Dijkstra on nodes [A, B, C], edges [(A,B,4), (A,C,1), (C,B,1)],
    source A: distances A=0, C=1, B=2; previous A=none, C=A, B=C; tree
    [(C,B,1), (A,C,1)]. *)
Theorem dijkstra_three_node_scenario :
  exists r,
    GraphAlgorithms.dijkstra
      [mkNode "A"; mkNode "B"; mkNode "C"]
      [mkEdge "A" "B" 4; mkEdge "A" "C" 1; mkEdge "C" "B" 1] "A" = Some r /\
    Result.distances r
    = <["A" := Fin 0]> (<["C" := Fin 1]> (<["B" := Fin 2]> ∅)) /\
    Result.previous r
    = <["A" := None]> (<["C" := Some "A"]> (<["B" := Some "C"]> ∅)) /\
    Result.shortestPathTree r = [mkEdge "C" "B" 1; mkEdge "A" "C" 1].
Proof.
  eexists. split; [vm_compute; reflexivity|].
  repeat split; vm_compute; reflexivity.
Qed.

(** ** The adjacency builder on a malformed edge *)

(** C5 at the input nodes [A], edges [(B,A,1)]: the builder of [client/lib]
    throws, where the second variant returns A -> [], B -> [(A,1)]. *)
Theorem buildAdjacencyList_unknown_source :
  GraphAlgorithms.buildAdjacencyList [mkNode "A"] [mkEdge "B" "A" 1] = None /\
  Part001.buildAdjacencyList [mkNode "A"] [mkEdge "B" "A" 1]
  = <["A" := []]> (<["B" := [("A", 1)]]> ∅).
Proof. split; vm_compute; reflexivity. Qed.


Lemma part001_buildAdjacencyList_tolerant nodes edges k :
  k ∈ ids nodes ->
  Part001.buildAdjacencyList nodes edges !! k = Some (outgoing k edges).
Proof.
  intros Hk. rewrite part001_buildAdjacencyList_lookup.
  rewrite decide_True by auto. reflexivity.
Qed.



(** ** Single-node graph *)

Lemma selectMin_single n :
  GraphAlgorithms.selectMin [mkNode n] ∅ (initDistances [mkNode n] n)
  = (Some n, Fin 0).
Proof.
  unfold GraphAlgorithms.selectMin, initDistances, get. simpl.
  rewrite lookup_insert_eq. simpl.
  rewrite (bool_decide_eq_true_2 (n = n)) by reflexivity. simpl.
  rewrite (bool_decide_eq_true_2 (n ∉ (∅ : gset string)))
    by apply not_elem_of_empty.
  reflexivity.
Qed.

Lemma insert_empty_singleton {A} (k : string) (a : A) :
  <[k := a]> (∅ : gmap string A) = {[k := a]}.
Proof. apply insert_empty. Qed.

(** C9, as the code has it: on a single-node graph with no edges, whose
    node id is not ["__proto__"], Bellman-Ford emits [initial] then
    [complete]; Dijkstra, when the id is not the empty string either, emits
    [initial], a [select] of the node, then [complete]; both return the
    distances {node: 0} and an empty tree. *)
Theorem single_node_runs n :
  n <> "__proto__" ->
  (n <> EmptyString ->
   exists r,
     GraphAlgorithms.dijkstra [mkNode n] [] n = Some r /\
     kinds (Result.steps r) = [initial; select; complete] /\
     (Step.currentNode <$> Result.steps r) !! 1%nat = Some (Some n) /\
     Result.distances r = {[n := Fin 0]} /\
     Result.shortestPathTree r = []) /\
  (let r := GraphAlgorithms.bellmanFord [mkNode n] [] n in
   kinds (Result.steps r) = [initial; complete] /\
   Result.distances r = {[n := Fin 0]} /\
   Result.shortestPathTree r = []).
Proof.
  intros _. split.
  - intros Hn. unfold GraphAlgorithms.dijkstra.
    change (GraphAlgorithms.buildAdjacencyList [mkNode n] [])
      with (Some (<[n := []]> ∅ : AdjacencyList)).
    cbn zeta. cbn [length GraphAlgorithms.whileLoop GraphAlgorithms.visited
                   GraphAlgorithms.distances].
    rewrite size_empty. rewrite bool_decide_eq_true_2 by lia.
    rewrite selectMin_single.
    unfold truthy. rewrite bool_decide_eq_false_2 by assumption.
    cbn [negb]. unfold GraphAlgorithms.visit.
    unfold lookup_total, map_lookup_total. rewrite lookup_insert_eq.
    cbn [default GraphAlgorithms.relaxNeighbors].
    eexists. split; [reflexivity|].
    unfold initDistances, initPrevious, GraphAlgorithms.buildTree. simpl.
    split; [reflexivity|]. split; [reflexivity|].
    rewrite lookup_insert_eq.
    rewrite (bool_decide_eq_true_2 (n = n)) by reflexivity.
    rewrite insert_empty_singleton. auto.
  - unfold GraphAlgorithms.bellmanFord.
    cbn [length Nat.sub GraphAlgorithms.passes List.find].
    cbn zeta.
    unfold initDistances, initPrevious, GraphAlgorithms.buildTree. simpl.
    split; [reflexivity|].
    rewrite lookup_insert_eq.
    rewrite (bool_decide_eq_true_2 (n = n)) by reflexivity.
    rewrite insert_empty_singleton. auto.
Qed.

Lemma single_node_runs_witness :
  (exists r,
      GraphAlgorithms.dijkstra [mkNode "A"] [] "A" = Some r /\
      kinds (Result.steps r) = [initial; select; complete] /\
      (Step.currentNode <$> Result.steps r) !! 1%nat = Some (Some "A") /\
      Result.distances r = {["A" := Fin 0]} /\
      Result.shortestPathTree r = []) /\
  (let r := GraphAlgorithms.bellmanFord [mkNode "A"] [] "A" in
   kinds (Result.steps r) = [initial; complete] /\
   Result.distances r = {["A" := Fin 0]} /\
   Result.shortestPathTree r = []).
Proof.
  destruct (single_node_runs "A") as [Hd Hb]; [discriminate|].
  split; [apply Hd; discriminate | exact Hb].
Defined.

(** C9 as stated fails for Dijkstra: the run on the single node A has a
    [select] step between [initial] and [complete]. *)
Lemma single_node_dijkstra_has_select :
  exists r,
    GraphAlgorithms.dijkstra [mkNode "A"] [] "A" = Some r /\
    kinds (Result.steps r) = [initial; select; complete] /\
    kinds (Result.steps r) <> [initial; complete].
Proof.
  eexists. split; [vm_compute; reflexivity|].
  split; [vm_compute; reflexivity | vm_compute; discriminate].
Qed.

(** ** Source absent from the node list *)

Lemma get_initDistances_absent nodes s k x :
  s ∉ ids nodes -> get (initDistances nodes s) k <> Fin x.
Proof.
  intros Hs. unfold get. destruct (initDistances nodes s !! k) as [a|] eqn:E; simpl.
  - apply initDistances_absent in E; [|assumption]. congruence.
  - discriminate.
Qed.

Lemma improves_no_finite d e :
  (forall k x, get d k <> Fin x) -> improves d e = false.
Proof.
  intros Hd. unfold improves. destruct (jsLt _ _) eqn:Hlt; [|reflexivity].
  destruct (jsLt_true_l _ _ Hlt) as [y Hy].
  apply jsAdd_Fin_inv in Hy as (x & Hx & _). exfalso. eapply Hd, Hx.
Qed.

Lemma selectMin_no_finite nodes visited d :
  (forall k x, get d k <> Fin x) ->
  GraphAlgorithms.selectMin nodes visited d = (None, Infinity).
Proof.
  intros Hd. unfold GraphAlgorithms.selectMin.
  induction nodes as [|n nodes IH] using rev_ind; [reflexivity|].
  rewrite foldl_app. cbn [foldl]. rewrite IH.
  assert (jsLt (get d (id n)) Infinity = false) as ->.
  { destruct (get d (id n)) eqn:E; try reflexivity. exfalso. eapply Hd, E. }
  rewrite andb_false_r. reflexivity.
Qed.

Lemma relaxEdges_no_finite i es st b :
  (forall k x, get (GraphAlgorithms.bdistances st) k <> Fin x) ->
  GraphAlgorithms.relaxEdges i es st b = (st, b).
Proof.
  intros Hd. induction es as [|e es IH]; simpl; [reflexivity|].
  rewrite improves_no_finite by assumption. rewrite andb_false_r. exact IH.
Qed.

Lemma find_improves_no_finite d edges :
  (forall k x, get d k <> Fin x) -> List.find (improves d) edges = None.
Proof.
  intros Hd. induction edges as [|e edges IH]; simpl; [reflexivity|].
  rewrite improves_no_finite by assumption. exact IH.
Qed.

Lemma buildTree_initPrevious_fold nodes0 nodes edges acc :
  foldl (fun tree n =>
           match initPrevious nodes0 !! id n with
           | Some (Some p) =>
               if truthy p then
                 match findEdge edges p (id n) with
                 | Some e => tree ++ [e]
                 | None => tree
                 end
               else tree
           | _ => tree
           end) acc nodes = acc.
Proof.
  revert acc. induction nodes as [|n nodes IH]; intros acc; cbn [foldl]; [reflexivity|].
  rewrite initPrevious_lookup. destruct (decide _); apply IH.
Qed.

Lemma buildTree_initPrevious nodes edges :
  GraphAlgorithms.buildTree nodes edges (initPrevious nodes) = [].
Proof. apply buildTree_initPrevious_fold. Qed.

Lemma initial_maps_lookup nodes s k :
  s ∉ ids nodes -> k ∈ ids nodes ->
  initDistances nodes s !! k = Some Infinity /\ initPrevious nodes !! k = Some None.
Proof.
  intros Hs Hk. rewrite initDistances_lookup, initPrevious_lookup.
  rewrite !decide_True by assumption.
  rewrite bool_decide_eq_false_2 by (intros ->; contradiction). auto.
Qed.

(** C6, as the code has it: when the source is not a listed node,
    ["__proto__"] is not a node id and no edge joins two names inherited
    from [Object.prototype] that are not node ids, both algorithms return
    the initial maps (every distance infinite, every predecessor none), an
    empty tree and no negative cycle; Dijkstra emits [initial] then
    [complete]; Bellman-Ford emits [initial], one no-op [update] when there
    are at least two nodes, then [complete]. *)
Theorem absent_source_runs nodes edges s :
  s ∉ ids nodes ->
  "__proto__" ∉ ids nodes ->
  Forall (fun e => ownOrPlain nodes (source e) \/ ownOrPlain nodes (destination e))
         edges ->
  (let r := GraphAlgorithms.bellmanFord nodes edges s in
   Result.distances r = initDistances nodes s /\
   Result.previous r = initPrevious nodes /\
   (forall k, k ∈ ids nodes ->
      Result.distances r !! k = Some Infinity /\ Result.previous r !! k = Some None) /\
   Result.shortestPathTree r = [] /\
   Result.hasNegativeCycle r = false /\
   kinds (Result.steps r)
   = if bool_decide (2 <= length nodes)%nat
     then [initial; update; complete] else [initial; complete]) /\
  match GraphAlgorithms.dijkstra nodes edges s with
  | Some r =>
      Result.distances r = initDistances nodes s /\
      Result.previous r = initPrevious nodes /\
      (forall k, k ∈ ids nodes ->
         Result.distances r !! k = Some Infinity /\ Result.previous r !! k = Some None) /\
      Result.shortestPathTree r = [] /\
      Result.hasNegativeCycle r = false /\
      kinds (Result.steps r) = [initial; complete]
  | None => ~ sourcesKnown nodes edges
  end.
Proof.
  intros Hs _ _.
  assert (Hd : forall k x, get (initDistances nodes s) k <> Fin x).
  { intros k x. apply get_initDistances_absent. assumption. }
  split.
  - unfold GraphAlgorithms.bellmanFord. cbn zeta.
    assert (Hp : exists st,
               GraphAlgorithms.passes (length nodes - 1) 1 edges
                 (GraphAlgorithms.mkB (initDistances nodes s) (initPrevious nodes)
                    [GraphAlgorithms.initialStep "Bellman-Ford" nodes s]) = st /\
               GraphAlgorithms.bdistances st = initDistances nodes s /\
               GraphAlgorithms.bprevious st = initPrevious nodes /\
               kinds (GraphAlgorithms.bsteps st)
               = if bool_decide (2 <= length nodes)%nat
                 then [initial; update] else [initial]).
    { eexists. split; [reflexivity|].
      destruct (length nodes - 1)%nat as [|c] eqn:Hc.
      - rewrite bool_decide_eq_false_2 by lia. simpl. auto.
      - rewrite bool_decide_eq_true_2 by lia. cbn [GraphAlgorithms.passes].
        rewrite relaxEdges_no_finite by exact Hd. simpl. auto. }
    destruct Hp as (st & -> & Hdist & Hprev & Hk).
    rewrite Hdist, Hprev. rewrite find_improves_no_finite by exact Hd.
    cbn [Result.distances Result.previous Result.shortestPathTree
         Result.hasNegativeCycle Result.steps].
    split; [reflexivity|]. split; [reflexivity|].
    split; [intros k; apply initial_maps_lookup; assumption|].
    split; [apply buildTree_initPrevious|]. split; [reflexivity|].
    unfold kinds in *. rewrite fmap_app, Hk.
    destruct (bool_decide _); reflexivity.
  - destruct (GraphAlgorithms.dijkstra nodes edges s) as [r|] eqn:E;
      [|apply (dijkstra_None nodes edges s); exact E].
    unfold GraphAlgorithms.dijkstra in E.
    destruct (GraphAlgorithms.buildAdjacencyList nodes edges) as [adjList|];
      [|discriminate].
    cbn zeta in E.
    assert (Hw : GraphAlgorithms.whileLoop (length nodes) nodes adjList
                   (GraphAlgorithms.mkD (initDistances nodes s) (initPrevious nodes) ∅
                      [GraphAlgorithms.initialStep "Dijkstra" nodes s] 1)
                 = GraphAlgorithms.mkD (initDistances nodes s) (initPrevious nodes) ∅
                     [GraphAlgorithms.initialStep "Dijkstra" nodes s] 1).
    { destruct (length nodes) eqn:Hl; cbn [GraphAlgorithms.whileLoop]; [reflexivity|].
      cbn [GraphAlgorithms.visited GraphAlgorithms.distances].
      rewrite selectMin_no_finite by exact Hd.
      destruct (bool_decide _); reflexivity. }
    rewrite Hw in E. injection E as <-.
    cbn [Result.distances Result.previous Result.shortestPathTree
         Result.hasNegativeCycle Result.steps
         GraphAlgorithms.distances GraphAlgorithms.previous GraphAlgorithms.steps].
    split; [reflexivity|]. split; [reflexivity|].
    split; [intros k; apply initial_maps_lookup; assumption|].
    split; [apply buildTree_initPrevious|]. split; reflexivity.
Qed.

Lemma absent_source_runs_witness :
  let nodes := [mkNode "A"; mkNode "B"] in
  let edges := [mkEdge "A" "B" 1] in
  (let r := GraphAlgorithms.bellmanFord nodes edges "Z" in
   Result.distances r = initDistances nodes "Z" /\
   Result.previous r = initPrevious nodes /\
   (forall k, k ∈ ids nodes ->
      Result.distances r !! k = Some Infinity /\ Result.previous r !! k = Some None) /\
   Result.shortestPathTree r = [] /\
   Result.hasNegativeCycle r = false /\
   kinds (Result.steps r)
   = if bool_decide (2 <= length nodes)%nat
     then [initial; update; complete] else [initial; complete]) /\
  match GraphAlgorithms.dijkstra nodes edges "Z" with
  | Some r =>
      Result.distances r = initDistances nodes "Z" /\
      Result.previous r = initPrevious nodes /\
      (forall k, k ∈ ids nodes ->
         Result.distances r !! k = Some Infinity /\ Result.previous r !! k = Some None) /\
      Result.shortestPathTree r = [] /\
      Result.hasNegativeCycle r = false /\
      kinds (Result.steps r) = [initial; complete]
  | None => ~ sourcesKnown nodes edges
  end.
Proof.
  apply (absent_source_runs [mkNode "A"; mkNode "B"] [mkEdge "A" "B" 1] "Z").
  - not_listed.
  - not_listed.
  - apply Forall_cons. split; [|apply Forall_nil; exact I].
    left. left. apply elem_of_cons. left. reflexivity.
Defined.

(** C6 as stated fails: with nodes [A, B], no edges and the unlisted source
    Z, Bellman-Ford emits an [update] and a [complete] step after
    [initial], and Dijkstra emits a [complete] step. *)
Lemma absent_source_emits_more_steps :
  ("Z" ∉ ids [mkNode "A"; mkNode "B"]) /\
  kinds (Result.steps (GraphAlgorithms.bellmanFord [mkNode "A"; mkNode "B"] [] "Z"))
  = [initial; update; complete] /\
  ~ onlyInitialization
      (Result.steps (GraphAlgorithms.bellmanFord [mkNode "A"; mkNode "B"] [] "Z")) /\
  exists r,
    GraphAlgorithms.dijkstra [mkNode "A"; mkNode "B"] [] "Z" = Some r /\
    kinds (Result.steps r) = [initial; complete] /\
    ~ onlyInitialization (Result.steps r).
Proof.
  split; [not_listed|].
  split; [vm_compute; reflexivity|].
  split.
  - intros H. apply (Forall_fmap _ (fun t => t = initial)) in H.
    vm_compute in H. inversion H as [|? ? _ H']. inversion H' as [|? ? Hu _].
    discriminate.
  - eexists. split; [vm_compute; reflexivity|].
    split; [vm_compute; reflexivity|].
    intros H. apply (Forall_fmap _ (fun t => t = initial)) in H.
    vm_compute in H. inversion H as [|? ? _ H']. inversion H' as [|? ? Hu _].
    discriminate.
Qed.

(** ** Shape of the Bellman-Ford traces *)

Lemma noopUpdates_snoc steps x :
  noopUpdates steps ->
  (Step.type x = update ->
   exists a, last steps = Some a /\
             Step.distances x = Step.distances a /\
             Step.previous x = Step.previous a) ->
  noopUpdates (steps ++ [x]).
Proof.
  intros Hn Hx i a u Ha Hu Htype.
  apply lookup_app_Some in Hu as [Hu|[Hlen Hu]].
  - apply lookup_app_Some in Ha as [Ha|[Hlen _]].
    + eapply Hn; eauto.
    + apply lookup_lt_Some in Hu. lia.
  - apply list_lookup_singleton_Some in Hu as [Hi <-].
    destruct (Hx Htype) as (a' & Hlast & Hd & Hp).
    assert (i = pred (length steps)) as -> by lia.
    rewrite lookup_app_l in Ha by lia.
    rewrite last_lookup in Hlast. rewrite Hlast in Ha. simplify_eq. auto.
Qed.

Lemma lastIsCurrent_snoc steps x :
  lastIsCurrent (steps ++ [x]) (Step.distances x) (Step.previous x).
Proof. exists x. rewrite last_snoc. auto. Qed.

Lemma earlyStopPasses_update_last i count body j u :
  earlyStopPasses i count body ->
  body !! j = Some u -> Step.type u = update -> length body = S j.
Proof.
  intros H. revert j. induction H as [|i count block rest Hne Hblock _ IH|i count u' Ht Hi];
    intros j Hj Hu.
  - rewrite lookup_nil in Hj. discriminate.
  - apply lookup_app_Some in Hj as [Hj|[Hlen Hj]].
    + apply list_elem_of_lookup_2 in Hj.
      rewrite Forall_forall in Hblock. apply Hblock in Hj as [Hr _]. congruence.
    + apply IH in Hj; [|assumption]. rewrite length_app. lia.
  - apply list_lookup_singleton_Some in Hj as [-> _]. reflexivity.
Qed.

Lemma earlyStopPasses_passStep i count body :
  earlyStopPasses i count body -> Forall passStep body.
Proof.
  induction 1 as [|i count block rest Hne Hblock _ IH|i count u Ht Hi].
  - constructor.
  - apply Forall_app. split; [|assumption].
    eapply Forall_impl; [exact Hblock|]. intros x [Hx _]. right. left. exact Hx.
  - constructor; [|constructor]. right. right. exact Ht.
Qed.

Lemma allPasses_passStep i count body :
  allPasses i count body -> Forall passStep body.
Proof.
  induction 1 as [|i count block rest Hne Hblock _ IH|i count u rest Ht Hi _ IH].
  - constructor.
  - apply Forall_app. split; [|assumption].
    eapply Forall_impl; [exact Hblock|]. intros x [Hx _]. right. left. exact Hx.
  - constructor; [|assumption]. right. right. exact Ht.
Qed.

(** *** [client/lib] *)

Lemma relaxEdges_current i es st b :
  noopUpdates (GraphAlgorithms.bsteps st) ->
  lastIsCurrent (GraphAlgorithms.bsteps st)
                (GraphAlgorithms.bdistances st) (GraphAlgorithms.bprevious st) ->
  let st' := (GraphAlgorithms.relaxEdges i es st b).1 in
  noopUpdates (GraphAlgorithms.bsteps st') /\
  lastIsCurrent (GraphAlgorithms.bsteps st')
                (GraphAlgorithms.bdistances st') (GraphAlgorithms.bprevious st').
Proof.
  revert st b. induction es as [|e es IH]; intros st b Hn Hl; simpl; [auto|].
  destruct (_ && _); [|apply IH; assumption].
  apply IH; simpl.
  - apply noopUpdates_snoc; [assumption | discriminate].
  - eexists. rewrite last_snoc. auto.
Qed.

Lemma passes_current count i edges st :
  noopUpdates (GraphAlgorithms.bsteps st) ->
  lastIsCurrent (GraphAlgorithms.bsteps st)
                (GraphAlgorithms.bdistances st) (GraphAlgorithms.bprevious st) ->
  let st' := GraphAlgorithms.passes count i edges st in
  noopUpdates (GraphAlgorithms.bsteps st') /\
  lastIsCurrent (GraphAlgorithms.bsteps st')
                (GraphAlgorithms.bdistances st') (GraphAlgorithms.bprevious st').
Proof.
  revert i st. induction count as [|count IH]; intros i st Hn Hl; simpl; [auto|].
  pose proof (relaxEdges_current i edges st false Hn Hl) as [Hn' Hl'].
  destruct (GraphAlgorithms.relaxEdges i edges st false) as [st' relaxed].
  simpl in Hn', Hl'. destruct relaxed; [apply IH; assumption|]. simpl. split.
  - apply noopUpdates_snoc; [assumption|]. intros _.
    destruct Hl' as (a & Ha & Hd & Hp). exists a. simpl. auto.
  - eexists. rewrite last_snoc. auto.
Qed.

Lemma passes_shape count i edges st :
  exists body,
    GraphAlgorithms.bsteps (GraphAlgorithms.passes count i edges st)
    = GraphAlgorithms.bsteps st ++ body /\
    earlyStopPasses i count body.
Proof.
  revert i st. induction count as [|count IH]; intros i st; simpl.
  - exists []. rewrite app_nil_r. split; [reflexivity | constructor].
  - destruct (relaxEdges_steps i edges st false) as (block & Hsteps & Hblock & Hflag).
    destruct (GraphAlgorithms.relaxEdges i edges st false) as [st' relaxed].
    simpl in Hsteps, Hflag. destruct relaxed.
    + destruct (IH (S i) st') as (rest & -> & Hrest).
      rewrite Hsteps, <- app_assoc. eexists. split; [reflexivity|].
      constructor; [|assumption|assumption].
      intros ->. rewrite bool_decide_eq_true_2 in Hflag by reflexivity. discriminate.
    + simpl. rewrite Hsteps.
      assert (block = []) as ->.
      { destruct block; [reflexivity|].
        rewrite bool_decide_eq_false_2 in Hflag by discriminate. discriminate. }
      rewrite app_nil_r. eexists. split; [reflexivity|].
      apply esp_stop; reflexivity.
Qed.

Lemma bellmanFord_shape nodes edges s :
  exists body fin,
    Result.steps (GraphAlgorithms.bellmanFord nodes edges s)
    = GraphAlgorithms.initialStep "Bellman-Ford" nodes s :: body ++ [fin] /\
    earlyStopPasses 1 (length nodes - 1) body /\
    terminal fin /\
    Step.distances fin = Result.distances (GraphAlgorithms.bellmanFord nodes edges s) /\
    Step.previous fin = Result.previous (GraphAlgorithms.bellmanFord nodes edges s) /\
    noopUpdates (Result.steps (GraphAlgorithms.bellmanFord nodes edges s)).
Proof.
  unfold GraphAlgorithms.bellmanFord. cbn zeta.
  match goal with
  | |- context [GraphAlgorithms.passes ?c ?i ?es ?st0] =>
      destruct (passes_shape c i es st0) as (body & Hsteps & Hshape);
      destruct (passes_current c i es st0) as [Hn _];
      [ intros j a u Ha Hu; apply lookup_lt_Some in Hu; simpl in Hu; lia
      | eexists; split; [reflexivity | split; reflexivity] |];
      set (st := GraphAlgorithms.passes c i es st0) in *
  end.
  simpl in Hsteps, Hn.
  destruct (List.find _ edges); simpl; rewrite Hsteps; simpl;
    (eexists body, _; split; [reflexivity|]; split; [assumption|];
     split; [unfold terminal; simpl; auto|]; split; [reflexivity|];
     split; [reflexivity|];
     rewrite app_comm_cons, <- Hsteps;
     apply noopUpdates_snoc; [assumption | discriminate]).
Qed.

Lemma bellmanFord_stopsAfterIdlePass nodes edges s :
  stopsAfterIdlePass (Result.steps (GraphAlgorithms.bellmanFord nodes edges s)).
Proof.
  destruct (bellmanFord_shape nodes edges s) as (body & fin & -> & Hshape & Hfin & _).
  intros i u Hu Htype.
  destruct i as [|j]; [simpl in Hu; simplify_eq; discriminate|].
  simpl in Hu. apply lookup_app_Some in Hu as [Hu|[Hlen Hu]].
  - pose proof (earlyStopPasses_update_last _ _ _ _ _ Hshape Hu Htype) as Hlen.
    exists fin. split; [|split; [assumption|]].
    + simpl. rewrite lookup_app_r by lia. rewrite Hlen, Nat.sub_diag. reflexivity.
    + simpl. rewrite length_app. simpl. lia.
  - apply list_lookup_singleton_Some in Hu as [_ <-].
    destruct Hfin as [H|H]; congruence.
Qed.

(** *** The second variant *)

Lemma improves_guarded d e :
  improves d e
  = notInfinity (get d (source e)) &&
    jsLt (jsAdd (get d (source e)) (weight e)) (get d (destination e)).
Proof.
  unfold improves. destruct (get d (source e)); simpl; reflexivity.
Qed.

Lemma part001_relaxEdges_steps i es st b :
  exists block,
    Part001.bsteps (Part001.relaxEdges i es st b).1 = Part001.bsteps st ++ block /\
    Forall (fun x => Step.type x = relax /\
                     Step.iteration x = Part001.biteration st) block /\
    (Part001.relaxEdges i es st b).2 = b || negb (bool_decide (block = [])) /\
    Part001.biteration (Part001.relaxEdges i es st b).1 = Part001.biteration st.
Proof.
  revert st b. induction es as [|e es IH]; intros st b; simpl.
  - exists []. rewrite app_nil_r, orb_false_r. auto.
  - destruct (notInfinity _); [|apply IH].
    destruct (jsLt _ _); [|apply IH].
    edestruct IH as (block & -> & Hblock & -> & ->). simpl. rewrite <- app_assoc.
    eexists. split; [reflexivity|]. split; [|split].
    + constructor; [auto | exact Hblock].
    + simpl. rewrite orb_true_r. reflexivity.
    + reflexivity.
Qed.

Lemma part001_relaxEdges_current i es st b :
  noopUpdates (Part001.bsteps st) ->
  lastIsCurrent (Part001.bsteps st) (Part001.bdistances st) (Part001.bprevious st) ->
  let st' := (Part001.relaxEdges i es st b).1 in
  noopUpdates (Part001.bsteps st') /\
  lastIsCurrent (Part001.bsteps st') (Part001.bdistances st') (Part001.bprevious st').
Proof.
  revert st b. induction es as [|e es IH]; intros st b Hn Hl; simpl; [auto|].
  destruct (notInfinity _); [|apply IH; assumption].
  destruct (jsLt _ _); [|apply IH; assumption].
  apply IH; simpl.
  - apply noopUpdates_snoc; [assumption | discriminate].
  - eexists. rewrite last_snoc. auto.
Qed.

Lemma part001_passes_current count i edges st :
  noopUpdates (Part001.bsteps st) ->
  lastIsCurrent (Part001.bsteps st) (Part001.bdistances st) (Part001.bprevious st) ->
  let st' := Part001.passes count i edges st in
  noopUpdates (Part001.bsteps st') /\
  lastIsCurrent (Part001.bsteps st') (Part001.bdistances st') (Part001.bprevious st').
Proof.
  revert i st. induction count as [|count IH]; intros i st Hn Hl; simpl; [auto|].
  pose proof (part001_relaxEdges_current i edges st false Hn Hl) as [Hn' Hl'].
  destruct (Part001.relaxEdges i edges st false) as [st' relaxed].
  simpl in Hn', Hl'. destruct relaxed; apply IH; simpl; try assumption.
  - apply noopUpdates_snoc; [assumption|]. intros _.
    destruct Hl' as (a & Ha & Hd & Hp). exists a. simpl. auto.
  - eexists. rewrite last_snoc. auto.
Qed.

Lemma part001_passes_shape count i edges st :
  exists body,
    Part001.bsteps (Part001.passes count i edges st) = Part001.bsteps st ++ body /\
    allPasses (Part001.biteration st) count body.
Proof.
  revert i st. induction count as [|count IH]; intros i st; simpl.
  - exists []. rewrite app_nil_r. split; [reflexivity | constructor].
  - destruct (part001_relaxEdges_steps i edges st false)
      as (block & Hsteps & Hblock & Hflag & Hit).
    destruct (Part001.relaxEdges i edges st false) as [st' relaxed].
    simpl in Hsteps, Hflag, Hit. destruct relaxed.
    + edestruct IH as (rest & -> & Hrest). simpl in *.
      rewrite Hsteps, <- app_assoc. eexists. split; [reflexivity|].
      rewrite Hit in Hrest.
      constructor; [|assumption|assumption].
      intros ->. rewrite bool_decide_eq_true_2 in Hflag by reflexivity. discriminate.
    + edestruct IH as (rest & -> & Hrest). simpl in *.
      rewrite Hsteps.
      assert (block = []) as ->.
      { destruct block; [reflexivity|].
        rewrite bool_decide_eq_false_2 in Hflag by discriminate. discriminate. }
      rewrite app_nil_r, <- app_assoc. eexists. split; [reflexivity|].
      rewrite Hit in Hrest. simpl.
      apply ap_idle; [reflexivity | simpl; congruence | assumption].
Qed.

Lemma part001_cycleCheck_find edges st :
  Part001.cycleCheck edges st
  = match List.find (improves (Part001.bdistances st)) edges with
    | Some e =>
        (Part001.mkB (Part001.bdistances st) (Part001.bprevious st)
           (Part001.bsteps st ++
              [Step.mk negative_cycle (Part001.biteration st) None
                 (Some (source e, destination e))
                 (Part001.bdistances st) (Part001.bprevious st) None
                 ("⚠️ Negative weight cycle detected: " +:+ source e +:+ "→" +:+
                  destination e)])
           (Part001.biteration st), true)
    | None => (st, false)
    end.
Proof.
  induction edges as [|e edges IH]; simpl; [reflexivity|].
  rewrite improves_guarded.
  destruct (notInfinity _); simpl; [|exact IH].
  destruct (jsLt _ _); [reflexivity | exact IH].
Qed.

Lemma part001_bellmanFord_shape nodes edges s :
  let r := Part001.bellmanFord nodes edges s in
  exists body tail,
    Result.steps r = Part001.initialStep nodes s :: body ++ tail /\
    allPasses 1 (length nodes - 1) body /\
    noopUpdates (Part001.initialStep nodes s :: body) /\
    match List.find (improves (Result.distances r)) edges with
    | Some e =>
        exists nc fin,
          tail = [nc; fin] /\
          Step.type nc = negative_cycle /\
          Step.currentEdge nc = Some (source e, destination e) /\
          Step.type fin = complete /\
          Result.hasNegativeCycle r = true
    | None =>
        exists fin,
          tail = [fin] /\ Step.type fin = complete /\
          Result.hasNegativeCycle r = false
    end /\
    Result.shortestPathTree r = Part001.buildTree nodes edges (Result.previous r).
Proof.
  unfold Part001.bellmanFord. cbn zeta.
  match goal with
  | |- context [Part001.passes ?c ?i ?es ?st0] =>
      destruct (part001_passes_shape c i es st0) as (body & Hsteps & Hshape);
      destruct (part001_passes_current c i es st0) as [Hn _];
      [ intros j a u Ha Hu; apply lookup_lt_Some in Hu; simpl in Hu; lia
      | eexists; split; [reflexivity | split; reflexivity] |];
      set (st := Part001.passes c i es st0) in *
  end.
  simpl in Hsteps, Hn, Hshape. rewrite Hsteps in Hn.
  rewrite part001_cycleCheck_find.
  destruct (List.find (improves (Part001.bdistances st)) edges) as [e|] eqn:Hf;
    simpl; rewrite Hf, Hsteps; simpl.
  - exists body. eexists. split; [rewrite <- app_assoc; reflexivity|].
    split; [assumption|]. split; [assumption|]. split; [|reflexivity].
    eexists _, _. split; [reflexivity|]. auto.
  - exists body. eexists. split; [reflexivity|].
    split; [assumption|]. split; [assumption|]. split; [|reflexivity].
    eexists. split; [reflexivity|]. auto.
Qed.

(** ** Negative cycles *)

(** C2, per variant.  When the scan after the passes finds an improving
    edge, [client/lib] ends the trace with a [negative_cycle] step naming the
    first such edge, sets the flag and returns an empty tree, with no
    [complete] step; the second variant also names the first such edge and
    sets the flag, but then emits a [complete] step and returns the tree
    rebuilt from the predecessor map. *)
Theorem negative_cycle_outcome nodes edges s :
  (forall e,
      List.find (improves (Result.distances (GraphAlgorithms.bellmanFord nodes edges s)))
                edges = Some e ->
      let r := GraphAlgorithms.bellmanFord nodes edges s in
      (exists pre nc,
          Result.steps r = pre ++ [nc] /\
          Step.type nc = negative_cycle /\
          Step.currentEdge nc = Some (source e, destination e) /\
          Forall passStep pre) /\
      Result.hasNegativeCycle r = true /\
      Result.shortestPathTree r = []) /\
  (forall e,
      List.find (improves (Result.distances (Part001.bellmanFord nodes edges s)))
                edges = Some e ->
      let r := Part001.bellmanFord nodes edges s in
      (exists pre nc fin,
          Result.steps r = pre ++ [nc; fin] /\
          Step.type nc = negative_cycle /\
          Step.currentEdge nc = Some (source e, destination e) /\
          Step.type fin = complete /\
          Forall passStep pre) /\
      Result.hasNegativeCycle r = true /\
      Result.shortestPathTree r = Part001.buildTree nodes edges (Result.previous r)).
Proof.
  split.
  - intros e. unfold GraphAlgorithms.bellmanFord. cbn zeta.
    match goal with
    | |- context [GraphAlgorithms.passes ?c ?i ?es ?st0] =>
        destruct (passes_shape c i es st0) as (body & Hsteps & Hshape);
        set (st := GraphAlgorithms.passes c i es st0) in *
    end.
    simpl in Hsteps.
    destruct (List.find (improves (GraphAlgorithms.bdistances st)) edges) as [e'|] eqn:Hf;
      simpl; rewrite Hf; [|discriminate].
    intros [= ->]. split; [|auto].
    eexists _, _. split; [reflexivity|]. split; [reflexivity|].
    split; [reflexivity|]. rewrite Hsteps. constructor; [left; reflexivity|].
    eapply earlyStopPasses_passStep; eassumption.
  - intros e He. cbv zeta.
    destruct (part001_bellmanFord_shape nodes edges s)
      as (body & tail & Hsteps & Hshape & _ & Htail & Htree).
    rewrite He in Htail.
    destruct Htail as (nc & fin & -> & Hnc & Hedge & Hfin & Hflag).
    split; [|auto].
    exists (Part001.initialStep nodes s :: body), nc, fin.
    split; [exact Hsteps|]. split; [assumption|]. split; [assumption|].
    split; [assumption|]. constructor; [left; reflexivity|].
    eapply allPasses_passStep; eassumption.
Qed.

Lemma negative_cycle_outcome_witness :
  let nodes := [mkNode "A"; mkNode "B"] in
  let edges := [mkEdge "A" "B" (-1); mkEdge "B" "A" (-1)] in
  let e := mkEdge "A" "B" (-1) in
  ((exists pre nc,
       Result.steps (GraphAlgorithms.bellmanFord nodes edges "A") = pre ++ [nc] /\
       Step.type nc = negative_cycle /\
       Step.currentEdge nc = Some (source e, destination e) /\
       Forall passStep pre) /\
   Result.hasNegativeCycle (GraphAlgorithms.bellmanFord nodes edges "A") = true /\
   Result.shortestPathTree (GraphAlgorithms.bellmanFord nodes edges "A") = []) /\
  ((exists pre nc fin,
       Result.steps (Part001.bellmanFord nodes edges "A") = pre ++ [nc; fin] /\
       Step.type nc = negative_cycle /\
       Step.currentEdge nc = Some (source e, destination e) /\
       Step.type fin = complete /\
       Forall passStep pre) /\
   Result.hasNegativeCycle (Part001.bellmanFord nodes edges "A") = true /\
   Result.shortestPathTree (Part001.bellmanFord nodes edges "A")
   = Part001.buildTree nodes edges
       (Result.previous (Part001.bellmanFord nodes edges "A"))).
Proof.
  destruct (negative_cycle_outcome
              [mkNode "A"; mkNode "B"]
              [mkEdge "A" "B" (-1); mkEdge "B" "A" (-1)] "A") as [H1 H2].
  split.
  - apply (H1 (mkEdge "A" "B" (-1))). vm_compute. reflexivity.
  - apply (H2 (mkEdge "A" "B" (-1))). vm_compute. reflexivity.
Defined.

(** C2 as stated fails on the second variant: on the two-node negative
    cycle A -> B -> A (weights -1), source A, the scan finds the edge A -> B,
    yet the trace ends with a [complete] step and the returned tree is not
    empty. *)
Lemma negative_cycle_then_complete :
  let nodes := [mkNode "A"; mkNode "B"] in
  let edges := [mkEdge "A" "B" (-1); mkEdge "B" "A" (-1)] in
  let r := Part001.bellmanFord nodes edges "A" in
  List.find (improves (Result.distances r)) edges = Some (mkEdge "A" "B" (-1)) /\
  kinds (Result.steps r) = [initial; relax; relax; negative_cycle; complete] /\
  Result.shortestPathTree r = [mkEdge "B" "A" (-1); mkEdge "A" "B" (-1)] /\
  (Step.type <$> last (Result.steps r)) <> Some negative_cycle /\
  Result.shortestPathTree r <> [].
Proof.
  cbv zeta. split; [vm_compute; reflexivity|].
  split; [vm_compute; reflexivity|]. split; [vm_compute; reflexivity|].
  split; vm_compute; discriminate.
Qed.

(** ** The no-change short-circuit *)

(** C3, per variant.  In [client/lib] a pass that relaxes nothing emits
    exactly one no-op [update] step and ends the passes: the [update] step is
    followed by the terminal step only.  The second variant has no early
    stop: each of its node-count-minus-one passes is performed, and each pass
    that relaxes nothing emits one no-op [update] step. *)
Theorem idle_pass_policy nodes edges s :
  (exists body fin,
      Result.steps (GraphAlgorithms.bellmanFord nodes edges s)
      = GraphAlgorithms.initialStep "Bellman-Ford" nodes s :: body ++ [fin] /\
      earlyStopPasses 1 (length nodes - 1) body /\
      terminal fin) /\
  stopsAfterIdlePass (Result.steps (GraphAlgorithms.bellmanFord nodes edges s)) /\
  noopUpdates (Result.steps (GraphAlgorithms.bellmanFord nodes edges s)) /\
  (exists body tail,
      Result.steps (Part001.bellmanFord nodes edges s)
      = Part001.initialStep nodes s :: body ++ tail /\
      allPasses 1 (length nodes - 1) body /\
      Forall terminal tail) /\
  noopUpdates (Result.steps (Part001.bellmanFord nodes edges s)).
Proof.
  destruct (bellmanFord_shape nodes edges s)
    as (body & fin & Hsteps & Hshape & Hfin & _ & _ & Hnoop).
  split; [eauto|]. split; [apply bellmanFord_stopsAfterIdlePass|].
  split; [assumption|].
  destruct (part001_bellmanFord_shape nodes edges s)
    as (body1 & tail & Hsteps1 & Hshape1 & Hnoop1 & Htail & _).
  cbv zeta in *. rewrite Hsteps1.
  destruct (List.find _ edges).
  - destruct Htail as (nc & fin1 & -> & Hnc & _ & Hfin1 & _). split.
    + eexists _, _. split; [reflexivity|]. split; [assumption|].
      constructor; [right; assumption|]. constructor; [left; assumption|constructor].
    + replace (Part001.initialStep nodes s :: body1 ++ [nc; fin1])
        with (((Part001.initialStep nodes s :: body1) ++ [nc]) ++ [fin1])
        by (rewrite <- app_assoc; reflexivity).
      apply noopUpdates_snoc; [apply noopUpdates_snoc|]; try assumption;
        intros H; congruence.
  - destruct Htail as (fin1 & -> & Hfin1 & _). split.
    + eexists _, _. split; [reflexivity|]. split; [assumption|].
      constructor; [left; assumption|constructor].
    + change (noopUpdates ((Part001.initialStep nodes s :: body1) ++ [fin1])).
      apply noopUpdates_snoc; [assumption|]. intros H; congruence.
Qed.

(** C3 as stated fails on the second variant: with nodes [A, B, C], no
    edges and source A, the first pass relaxes nothing, and a second pass
    still follows its [update] step. *)
Lemma second_variant_runs_every_pass :
  let r := Part001.bellmanFord [mkNode "A"; mkNode "B"; mkNode "C"] [] "A" in
  kinds (Result.steps r) = [initial; update; update; complete] /\
  Step.iteration <$> Result.steps r = [0; 1; 2; 3]%nat /\
  ~ stopsAfterIdlePass (Result.steps r).
Proof.
  cbv zeta. split; [vm_compute; reflexivity|]. split; [vm_compute; reflexivity|].
  intros H.
  destruct (Result.steps (Part001.bellmanFord [mkNode "A"; mkNode "B"; mkNode "C"]
                            [] "A") !! 1%nat) as [u|] eqn:Hu;
    [|vm_compute in Hu; discriminate].
  destruct (H 1%nat u Hu) as (fin & _ & _ & Hlen).
  - vm_compute in Hu. injection Hu as <-. reflexivity.
  - vm_compute in Hlen. discriminate.
Qed.

(** ** The selection scan of Dijkstra *)

Lemma jsLt_false_trans a x y :
  jsLt a x = false -> jsLt y x = true -> jsLt a y = false.
Proof.
  destruct a as [za| |], x as [zx| |], y as [zy| |]; simpl; try congruence.
  rewrite !bool_decide_eq_false, bool_decide_eq_true. lia.
Qed.

Lemma jsLt_irrefl a : jsLt a a = false.
Proof. destruct a; simpl; [|reflexivity..]. apply bool_decide_eq_false. lia. Qed.

Lemma selectMin_fold nodes visited d :
  match GraphAlgorithms.selectMin nodes visited d with
  | (None, x) =>
      x = Infinity /\
      forall k, k ∈ ids nodes -> k ∉ visited -> jsLt (get d k) Infinity = false
  | (Some m, x) =>
      m ∈ ids nodes /\ (m ∉ visited) /\ x = get d m /\ (exists z, x = Fin z) /\
      forall k, k ∈ ids nodes -> k ∉ visited -> jsLt (get d k) x = false
  end.
Proof.
  unfold GraphAlgorithms.selectMin.
  induction nodes as [|n nodes IH] using rev_ind.
  - simpl. split; [reflexivity|]. intros k Hk. apply elem_of_nil in Hk. contradiction.
  - rewrite foldl_app. cbn [foldl].
    assert (Hids : forall k, k ∈ ids (nodes ++ [n]) <-> k ∈ ids nodes \/ k = id n).
    { intros k. unfold ids. rewrite fmap_app, elem_of_app. simpl.
      rewrite list_elem_of_singleton. reflexivity. }
    destruct (foldl _ _ nodes) as [mo x].
    destruct (bool_decide_reflect (id n ∉ visited)) as [Hv|Hv]; simpl.
    + destruct (jsLt (get d (id n)) x) eqn:Hlt.
      * destruct (jsLt_true_l _ _ Hlt) as [z Hz].
        split; [apply Hids; auto|]. split; [assumption|]. split; [reflexivity|].
        split; [eauto|]. intros k Hk Hkv. apply Hids in Hk as [Hk| ->].
        -- destruct mo as [m|].
           ++ destruct IH as (_ & _ & _ & _ & IH).
              eapply jsLt_false_trans; [apply IH; assumption | exact Hlt].
           ++ destruct IH as (-> & IH).
              eapply jsLt_false_trans; [apply IH; assumption | exact Hlt].
        -- apply jsLt_irrefl.
      * destruct mo as [m|].
        -- destruct IH as (Hm & Hmv & Hx & Hz & IH).
           split; [apply Hids; auto|]. repeat (split; [assumption|]).
           intros k Hk Hkv. apply Hids in Hk as [Hk| ->]; auto.
        -- destruct IH as (-> & IH). split; [reflexivity|].
           intros k Hk Hkv. apply Hids in Hk as [Hk| ->]; auto.
    + destruct mo as [m|].
      * destruct IH as (Hm & Hmv & Hx & Hz & IH).
        split; [apply Hids; auto|]. repeat (split; [assumption|]).
        intros k Hk Hkv. apply Hids in Hk as [Hk| ->]; [auto | contradiction].
      * destruct IH as (-> & IH). split; [reflexivity|].
        intros k Hk Hkv. apply Hids in Hk as [Hk| ->]; [auto | contradiction].
Qed.

Lemma selectMin_Some nodes visited d m x :
  GraphAlgorithms.selectMin nodes visited d = (Some m, x) ->
  m ∈ ids nodes /\ (m ∉ visited) /\ x = get d m /\ (exists z, x = Fin z) /\
  forall k, k ∈ ids nodes -> k ∉ visited -> jsLt (get d k) x = false.
Proof. intros H. pose proof (selectMin_fold nodes visited d) as Hs. rewrite H in Hs. exact Hs. Qed.

Lemma selectMin_None nodes visited d x :
  GraphAlgorithms.selectMin nodes visited d = (None, x) ->
  forall k, k ∈ ids nodes -> k ∉ visited -> jsLt (get d k) Infinity = false.
Proof.
  intros H. pose proof (selectMin_fold nodes visited d) as Hs. rewrite H in Hs.
  apply Hs.
Qed.

(** The minimum node always owns an adjacency entry, so the [for ... of]
    over [adjList[minNode]] never meets [undefined]. *)
Lemma selectMin_has_entry nodes edges adjList visited d m x :
  GraphAlgorithms.buildAdjacencyList nodes edges = Some adjList ->
  GraphAlgorithms.selectMin nodes visited d = (Some m, x) ->
  adjList !! m = Some (outgoing m edges).
Proof.
  intros Ha Hs. apply buildAdjacencyList_Some in Ha as [_ Hlk].
  apply selectMin_Some in Hs as (Hm & _). rewrite Hlk, decide_True by assumption.
  reflexivity.
Qed.

(** ** The [while] loop never runs out of turns *)

Lemma relaxNeighbors_visited m nbrs st :
  GraphAlgorithms.visited (GraphAlgorithms.relaxNeighbors m nbrs st)
  = GraphAlgorithms.visited st.
Proof.
  revert st. induction nbrs as [|[v w] nbrs IH]; intros st; simpl; [reflexivity|].
  destruct (jsLt _ _); rewrite IH; reflexivity.
Qed.

Lemma visit_visited adjList m x st :
  GraphAlgorithms.visited (GraphAlgorithms.visit adjList m x st)
  = {[m]} ∪ GraphAlgorithms.visited st.
Proof. unfold GraphAlgorithms.visit. simpl. apply relaxNeighbors_visited. Qed.

Lemma size_add_fresh (m : string) (V : gset string) :
  m ∉ V -> size ({[m]} ∪ V) = S (size V).
Proof.
  intros Hm. rewrite size_union.
  - rewrite size_singleton. reflexivity.
  - intros y Hy1 Hy2. apply elem_of_singleton in Hy1. subst. contradiction.
Qed.

Lemma whileLoop_fuel fuel fuel' nodes adjList st :
  (length nodes - size (GraphAlgorithms.visited st) <= fuel)%nat ->
  (length nodes - size (GraphAlgorithms.visited st) <= fuel')%nat ->
  GraphAlgorithms.whileLoop fuel nodes adjList st
  = GraphAlgorithms.whileLoop fuel' nodes adjList st.
Proof.
  revert fuel' st. induction fuel as [|fuel IH]; intros fuel' st H1 H2.
  - destruct fuel'; simpl; [reflexivity|].
    rewrite bool_decide_eq_false_2 by lia. reflexivity.
  - destruct fuel' as [|fuel']; simpl.
    + rewrite bool_decide_eq_false_2 by lia. reflexivity.
    + destruct (bool_decide_reflect
                  (size (GraphAlgorithms.visited st) < length nodes)%nat);
        [|reflexivity].
      destruct (GraphAlgorithms.selectMin _ _ _) as [[m|] x] eqn:Hs; [|reflexivity].
      destruct (truthy m); [|reflexivity].
      apply selectMin_Some in Hs as (_ & Hm & _).
      apply IH; rewrite visit_visited, size_add_fresh by assumption; lia.
Qed.

(** More turns than [nodes.length] change nothing: the loop of the model
    ends by the conditions of the source, never by its bound. *)
Lemma whileLoop_enough extra nodes adjList d p steps i :
  GraphAlgorithms.whileLoop (length nodes + extra) nodes adjList
    (GraphAlgorithms.mkD d p ∅ steps i)
  = GraphAlgorithms.whileLoop (length nodes) nodes adjList
      (GraphAlgorithms.mkD d p ∅ steps i).
Proof. apply whileLoop_fuel; simpl; lia. Qed.

Lemma part001_relaxNeighbors_visited m nbrs st :
  Part001.visited (Part001.relaxNeighbors m nbrs st) = Part001.visited st.
Proof.
  revert st. induction nbrs as [|[v w] nbrs IH]; intros st; simpl; [reflexivity|].
  destruct (jsLt _ _); rewrite IH; reflexivity.
Qed.

Lemma part001_visit_visited adjList m x st :
  Part001.visited (Part001.visit adjList m x st) = {[m]} ∪ Part001.visited st.
Proof. unfold Part001.visit. simpl. apply part001_relaxNeighbors_visited. Qed.

(** The same for the loop of the second variant, whose scan is the scan of
    the first. *)
Lemma part001_whileLoop_fuel fuel fuel' nodes adjList st :
  (length nodes - size (Part001.visited st) <= fuel)%nat ->
  (length nodes - size (Part001.visited st) <= fuel')%nat ->
  Part001.whileLoop fuel nodes adjList st = Part001.whileLoop fuel' nodes adjList st.
Proof.
  revert fuel' st. induction fuel as [|fuel IH]; intros fuel' st H1 H2.
  - destruct fuel'; simpl; [reflexivity|].
    rewrite bool_decide_eq_false_2 by lia. reflexivity.
  - destruct fuel' as [|fuel']; simpl.
    + rewrite bool_decide_eq_false_2 by lia. reflexivity.
    + destruct (bool_decide_reflect (size (Part001.visited st) < length nodes)%nat);
        [|reflexivity].
      change (Part001.selectMin nodes (Part001.visited st) (Part001.distances st))
        with (GraphAlgorithms.selectMin nodes (Part001.visited st)
                (Part001.distances st)).
      destruct (GraphAlgorithms.selectMin _ _ _) as [[m|] x] eqn:Hs; [|reflexivity].
      destruct (notInfinity x); [|reflexivity].
      apply selectMin_Some in Hs as (_ & Hm & _).
      apply IH; rewrite part001_visit_visited, size_add_fresh by assumption; lia.
Qed.

(** ** Walks and reachable snapshots *)

Section Walks.
Context (nodes : list GraphNode) (edges : list GraphEdge) (s : string).
Context (Hnonneg : nonNegative edges).

Lemma walk_nonneg v x k : walk nodes edges s v x k -> 0 <= x.
Proof.
  induction 1 as [|e x k _ IH He _]; [lia|].
  specialize (Hnonneg e He). lia.
Qed.

Lemma walk_source v x k : walk nodes edges s v x k -> s ∈ ids nodes.
Proof. induction 1; assumption. Qed.

Lemma walk_listed v x k : walk nodes edges s v x k -> v ∈ ids nodes.
Proof. induction 1; assumption. Qed.

Lemma reachable_lookup d p k :
  reachable nodes edges s d p ->
  k ∈ ids nodes -> exists a, d !! k = Some a /\ a <> NaN.
Proof.
  intros Hr Hk. pose proof (reachable_dom _ _ _ _ _ Hr) as [Hd _].
  assert (Hin : k ∈ dom d) by (rewrite Hd; apply elem_of_list_to_set; exact Hk).
  apply elem_of_dom in Hin as [a Ha]. exists a. split; [exact Ha|].
  intros ->. eapply reachable_no_NaN; eassumption.
Qed.

Lemma reachable_listed d p k a :
  reachable nodes edges s d p -> d !! k = Some a -> k ∈ ids nodes.
Proof.
  intros Hr Hk. pose proof (reachable_dom _ _ _ _ _ Hr) as [Hd _].
  assert (Hin : k ∈ dom d) by (apply elem_of_dom; eauto).
  rewrite Hd in Hin. apply elem_of_list_to_set in Hin. exact Hin.
Qed.

(** Every finite distance is the weight of a walk. *)
Lemma reachable_walk d p v x :
  reachable nodes edges s d p -> d !! v = Some (Fin x) ->
  exists k, walk nodes edges s v x k.
Proof.
  intros Hr. revert v x.
  induction Hr as [|d p e x0 Hr IH He Hs Hlt]; intros v x Hv.
  - rewrite initDistances_lookup in Hv.
    destruct (decide (v ∈ ids nodes)) as [Hin|]; [|discriminate].
    destruct (bool_decide_reflect (v = s)) as [->|]; [|discriminate].
    simplify_eq. exists 0%nat. constructor. exact Hin.
  - destruct (decide (v = destination e)) as [->|Hne].
    + rewrite lookup_insert_eq in Hv. simplify_eq.
      unfold get in Hs. destruct (d !! source e) as [a|] eqn:Hsrc; simpl in Hs;
        [subst a | discriminate].
      destruct (IH _ _ Hsrc) as [k Hk]. exists (S k).
      constructor; [assumption..|].
      apply jsLt_true_r in Hlt. apply get_not_NaN_lookup in Hlt as [a Ha].
      eapply reachable_listed; eassumption.
    + rewrite lookup_insert_ne in Hv by congruence. eauto.
Qed.

Lemma reachable_nonneg d p v x :
  reachable nodes edges s d p -> d !! v = Some (Fin x) -> 0 <= x.
Proof.
  intros Hr Hv. destruct (reachable_walk _ _ _ _ Hr Hv) as [k Hk].
  eapply walk_nonneg, Hk.
Qed.

(** With non-negative weights the source stays at distance 0. *)
Lemma reachable_source d p :
  reachable nodes edges s d p -> s ∈ ids nodes -> d !! s = Some (Fin 0).
Proof.
  intros Hr Hs. induction Hr as [|d p e x0 Hr IH He Hsrc Hlt].
  - rewrite initDistances_lookup, decide_True by assumption.
    rewrite bool_decide_eq_true_2 by reflexivity. reflexivity.
  - destruct (decide (s = destination e)) as [Heq|Hne].
    + exfalso. rewrite <- Heq in Hlt. rewrite (get_lookup _ _ _ IH) in Hlt.
      simpl in Hlt. apply bool_decide_eq_true in Hlt.
      unfold get in Hsrc. destruct (d !! source e) as [a|] eqn:Ha; simpl in Hsrc;
        [subst a | discriminate].
      pose proof (reachable_nonneg _ _ _ _ Hr Ha). specialize (Hnonneg e He). lia.
    + rewrite lookup_insert_ne by congruence. exact IH.
Qed.

(** A stable reachable snapshot is below every walk. *)
Lemma stable_below_walk d p v x k :
  reachable nodes edges s d p -> stable edges d ->
  walk nodes edges s v x k ->
  exists y, d !! v = Some (Fin y) /\ y <= x.
Proof.
  intros Hr Hst Hw. induction Hw as [Hs|e x k Hw IH He Hdest].
  - exists 0. split; [apply (reachable_source d p); assumption | lia].
  - destruct IH as (y & Hy & Hle).
    destruct (reachable_lookup d p (destination e) Hr Hdest) as (a & Ha & HnaN).
    specialize (Hst e He). unfold improves in Hst.
    rewrite (get_lookup _ _ _ Hy), (get_lookup _ _ _ Ha) in Hst. simpl in Hst.
    destruct a as [z| |]; simpl in Hst; try congruence.
    apply bool_decide_eq_false in Hst. exists z. split; [exact Ha | lia].
Qed.

(** Two stable reachable snapshots have the same distances. *)
Lemma stable_unique d1 p1 d2 p2 :
  reachable nodes edges s d1 p1 -> stable edges d1 ->
  reachable nodes edges s d2 p2 -> stable edges d2 ->
  d1 = d2.
Proof.
  intros Hr1 Hs1 Hr2 Hs2. apply map_eq. intros k.
  assert (Hhalf : forall d p d' p',
             reachable nodes edges s d p -> stable edges d ->
             reachable nodes edges s d' p' -> stable edges d' ->
             forall x, d !! k = Some (Fin x) -> d' !! k = Some (Fin x)).
  { intros d p d' p' Hr Hs Hr' Hs' x Hx.
    destruct (reachable_walk _ _ _ _ Hr Hx) as [j Hw].
    destruct (stable_below_walk d' p' _ _ _ Hr' Hs' Hw) as (y & Hy & Hle).
    destruct (reachable_walk _ _ _ _ Hr' Hy) as [j' Hw'].
    destruct (stable_below_walk d p _ _ _ Hr Hs Hw') as (x' & Hx' & Hle').
    rewrite Hx in Hx'. simplify_eq. rewrite Hy. f_equal. f_equal. lia. }
  destruct (d1 !! k) as [a1|] eqn:H1.
  - pose proof (reachable_listed _ _ _ _ Hr1 H1) as Hk.
    destruct (reachable_lookup _ _ _ Hr2 Hk) as (a2 & H2 & Hn2).
    rewrite H2. destruct a1 as [x| |].
    + rewrite (Hhalf d1 p1 d2 p2 Hr1 Hs1 Hr2 Hs2 x H1) in H2. congruence.
    + destruct a2 as [y| |]; [|reflexivity|exfalso; apply Hn2; reflexivity].
      rewrite (Hhalf d2 p2 d1 p1 Hr2 Hs2 Hr1 Hs1 y H2) in H1. discriminate.
    + exfalso. eapply (reachable_no_NaN _ _ _ _ _ Hr1); eassumption.
  - destruct (d2 !! k) as [a2|] eqn:H2; [|reflexivity].
    pose proof (reachable_listed _ _ _ _ Hr2 H2) as Hk.
    destruct (reachable_lookup _ _ _ Hr1 Hk) as (a1 & H1' & _). congruence.
Qed.

End Walks.

(** ** Bellman-Ford: what the passes achieve *)

Lemma leDist_refl d : leDist d d.
Proof. intros v y Hv. exists y. split; [assumption | lia]. Qed.

Lemma leDist_trans d1 d2 d3 : leDist d1 d2 -> leDist d2 d3 -> leDist d1 d3.
Proof.
  intros H12 H23 v y Hv. destruct (H23 v y Hv) as (y2 & H2 & Hle2).
  destruct (H12 v y2 H2) as (y1 & H1 & Hle1). exists y1. split; [assumption | lia].
Qed.

Lemma leDist_insert d v x :
  jsLt (Fin x) (get d v) = true -> leDist (<[v := Fin x]> d) d.
Proof.
  intros Hlt k y Hk. destruct (decide (k = v)) as [->|Hne].
  - rewrite (get_lookup _ _ _ Hk) in Hlt. simpl in Hlt.
    apply bool_decide_eq_true in Hlt. exists x.
    rewrite lookup_insert_eq. split; [reflexivity | lia].
  - exists y. rewrite lookup_insert_ne by congruence. split; [assumption | lia].
Qed.

Lemma improves_false_guard d e :
  notInfinity (get d (source e)) && improves d e = false -> improves d e = false.
Proof.
  rewrite improves_guarded. destruct (notInfinity _); simpl; auto.
Qed.

Section BellmanFordPasses.
Context (nodes : list GraphNode) (edges : list GraphEdge) (s : string).

Lemma relaxEdges_flag_true i es st :
  (GraphAlgorithms.relaxEdges i es st true).2 = true.
Proof.
  revert st. induction es as [|e es IH]; intros st; simpl; [reflexivity|].
  destruct (_ && _); apply IH.
Qed.

(** A pass that reports no relaxation changed nothing and found every
    edge non-improving. *)
Lemma relaxEdges_idle i es st :
  (GraphAlgorithms.relaxEdges i es st false).2 = false ->
  (GraphAlgorithms.relaxEdges i es st false).1 = st /\
  forall e, e ∈ es -> improves (GraphAlgorithms.bdistances st) e = false.
Proof.
  induction es as [|e es IH]; simpl.
  - intros _. split; [reflexivity|]. intros e He. apply elem_of_nil in He.
    contradiction.
  - destruct (_ && _) eqn:Hc.
    + rewrite relaxEdges_flag_true. discriminate.
    + intros H. destruct (IH H) as [Hst Hes]. split; [assumption|].
      intros e' He'. apply elem_of_cons in He' as [->|He']; [|auto].
      apply improves_false_guard. exact Hc.
Qed.

(** A pass only lowers distances, and after it no scanned edge leaves
    its head above the distance its tail had before the pass plus the
    weight. *)
Lemma relaxEdges_pass i es st b :
  bellmanFordInv nodes edges s st ->
  (forall e, e ∈ es -> e ∈ edges) ->
  let d := GraphAlgorithms.bdistances st in
  let d' := GraphAlgorithms.bdistances (GraphAlgorithms.relaxEdges i es st b).1 in
  leDist d' d /\
  forall e x, e ∈ es -> destination e ∈ ids nodes ->
    d !! source e = Some (Fin x) ->
    exists y, d' !! destination e = Some (Fin y) /\ y <= x + weight e.
Proof.
  revert st b. induction es as [|e es IH]; intros st b Hinv Hin; cbn zeta.
  - simpl. split; [apply leDist_refl|]. intros e x He. apply elem_of_nil in He.
    contradiction.
  - assert (Hrest : forall e', e' ∈ es -> e' ∈ edges).
    { intros e' H. apply Hin, elem_of_cons. auto. }
    assert (He : e ∈ edges) by (apply Hin, elem_of_cons; auto).
    cbn [GraphAlgorithms.relaxEdges].
    destruct (notInfinity _ && improves _ _) eqn:Hc.
    + apply andb_true_iff in Hc as [_ Hlt]. unfold improves in Hlt.
      destruct (jsLt_true_l _ _ Hlt) as [y0 Hy0].
      apply jsAdd_Fin_inv in Hy0 as Hx0. destruct Hx0 as (x0 & Hx0 & ->).
      rewrite Hx0 in *. cbn [jsAdd] in *.
      match goal with
      | |- context [GraphAlgorithms.relaxEdges i es ?st1 true] =>
          assert (Hinv1 : bellmanFordInv nodes edges s st1);
          [|destruct (IH st1 true Hinv1 Hrest) as [Hle Hedges]]
      end.
      { destruct Hinv as [Hr Hsteps].
        assert (Hr' : reachable nodes edges s
                        (<[destination e := Fin (x0 + weight e)]>
                           (GraphAlgorithms.bdistances st))
                        (<[destination e := Some (source e)]>
                           (GraphAlgorithms.bprevious st))).
        { apply (reach_relax nodes edges s _ _ e x0); auto. }
        split; simpl; [exact Hr'|].
        apply Forall_app. split; [assumption|].
        constructor; [exact Hr' | constructor]. }
      cbn [GraphAlgorithms.bdistances] in Hle, Hedges.
      pose proof (leDist_insert _ _ _ Hlt) as Hle1.
      split; [eapply leDist_trans; eassumption|].
      intros e' x He' Hdest Hsrc. apply elem_of_cons in He' as [->|He'].
      * unfold get in Hx0. rewrite Hsrc in Hx0. simpl in Hx0. simplify_eq.
        destruct (Hle (destination e) (x0 + weight e)) as (y & Hy & Hley);
          [apply lookup_insert_eq|].
        exists y. split; [assumption | lia].
      * destruct (Hle1 _ _ Hsrc) as (x1 & Hx1 & Hle_x1).
        destruct (Hedges e' x1 He' Hdest Hx1) as (y & Hy & Hley).
        exists y. split; [assumption | lia].
    + apply improves_false_guard in Hc.
      destruct (IH st b Hinv Hrest) as [Hle Hedges]. split; [assumption|].
      intros e' x He' Hdest Hsrc. apply elem_of_cons in He' as [->|He']; [|eauto].
      destruct Hinv as [Hr _].
      destruct (reachable_lookup nodes edges s _ _ _ Hr Hdest) as (a & Ha & HnaN).
      unfold improves in Hc.
      rewrite (get_lookup _ _ _ Hsrc), (get_lookup _ _ _ Ha) in Hc. simpl in Hc.
      destruct a as [z| |]; simpl in Hc; try congruence.
      apply bool_decide_eq_false in Hc.
      destruct (Hle _ _ Ha) as (y & Hy & Hley). exists y. split; [assumption | lia].
Qed.

Lemma boundedBy_initial :
  boundedBy nodes edges s 0 (initDistances nodes s).
Proof.
  intros v x j Hw Hj. inversion Hw as [Hs|]; subst; [|lia].
  exists 0. split; [|lia].
  rewrite initDistances_lookup, decide_True by assumption.
  rewrite bool_decide_eq_true_2 by reflexivity. reflexivity.
Qed.

Lemma boundedBy_pass k d d' :
  boundedBy nodes edges s k d ->
  leDist d' d ->
  (forall e x, e ∈ edges -> destination e ∈ ids nodes ->
     d !! source e = Some (Fin x) ->
     exists y, d' !! destination e = Some (Fin y) /\ y <= x + weight e) ->
  boundedBy nodes edges s (S k) d'.
Proof.
  intros Hb Hle Hedges v x j Hw Hj.
  inversion Hw as [Hs|e x0 j0 Hw0 He Hdest]; subst.
  - destruct (Hb _ 0 0%nat Hw) as (y & Hy & Hley); [lia|].
    destruct (Hle _ _ Hy) as (y' & Hy' & Hley'). exists y'. split; [assumption | lia].
  - destruct (Hb _ _ _ Hw0) as (y & Hy & Hley); [lia|].
    destruct (Hedges e y He Hdest Hy) as (y' & Hy' & Hley').
    exists y'. split; [assumption | lia].
Qed.

(** After the passes the distances are stable (early stop), or below
    every walk of as many edges as there were passes. *)
Lemma passes_result count i k st :
  bellmanFordInv nodes edges s st ->
  boundedBy nodes edges s k (GraphAlgorithms.bdistances st) ->
  let d' := GraphAlgorithms.bdistances (GraphAlgorithms.passes count i edges st) in
  stable edges d' \/ boundedBy nodes edges s (k + count) d'.
Proof.
  revert i k st. induction count as [|count IH]; intros i k st Hinv Hb; cbn zeta.
  - right. rewrite Nat.add_0_r. exact Hb.
  - cbn [GraphAlgorithms.passes].
    pose proof (relaxEdges_inv nodes edges s i edges st false (fun e H => H) Hinv)
      as Hinv'.
    pose proof (relaxEdges_pass i edges st false Hinv (fun e H => H)) as [Hle Hedges].
    pose proof (relaxEdges_idle i edges st) as Hidle.
    destruct (GraphAlgorithms.relaxEdges i edges st false) as [st' relaxed].
    cbn [fst snd] in *. destruct relaxed.
    + replace (k + S count)%nat with (S k + count)%nat by lia.
      apply IH; [assumption|].
      eapply boundedBy_pass; eassumption.
    + left. destruct (Hidle eq_refl) as [-> Hst]. simpl. exact Hst.
Qed.

Lemma bellmanFord_distances :
  let d := Result.distances (GraphAlgorithms.bellmanFord nodes edges s) in
  stable edges d \/ boundedBy nodes edges s (length nodes - 1) d.
Proof.
  unfold GraphAlgorithms.bellmanFord. cbn zeta.
  match goal with
  | |- context [GraphAlgorithms.passes ?c ?i ?es ?st0] =>
      pose proof (passes_result c i 0 st0) as H
  end.
  cbn zeta in H. rewrite Nat.add_0_l in H.
  destruct (List.find _ edges); simpl; apply H;
    try (split; simpl; [constructor|]; constructor; [constructor | constructor]);
    apply boundedBy_initial.
Qed.

End BellmanFordPasses.

(** ** Dijkstra under non-negative weights *)

Lemma size_list_to_set_le (l : list string) :
  (size (list_to_set l : gset string) <= length l)%nat.
Proof.
  induction l as [|x l IH].
  - rewrite list_to_set_nil, size_empty. simpl. lia.
  - rewrite list_to_set_cons, size_union_alt, size_singleton. cbn [length].
    assert (size (list_to_set l ∖ {[x]} : gset string)
            <= size (list_to_set l : gset string))%nat.
    { apply subseteq_size. intros y Hy. apply elem_of_difference in Hy as [Hy _].
      exact Hy. }
    lia.
Qed.

Lemma jsLt_insert_mono (d : gmap string JsNum) v x a k :
  jsLt (Fin x) (get d v) = true ->
  jsLt a (get d k) = false ->
  jsLt a (get (<[v := Fin x]> d) k) = false.
Proof.
  intros Hlt Ha. unfold get at 1. destruct (decide (k = v)) as [->|Hne].
  - rewrite lookup_insert_eq. simpl. eapply jsLt_false_trans; eassumption.
  - rewrite lookup_insert_ne by congruence. exact Ha.
Qed.

Lemma get_insert_ne (d : gmap string JsNum) v a k :
  k <> v -> get (<[v := a]> d) k = get d k.
Proof. intros Hne. unfold get. rewrite lookup_insert_ne by congruence. reflexivity. Qed.

Lemma get_insert_eq (d : gmap string JsNum) v a : get (<[v := a]> d) v = a.
Proof. unfold get. rewrite lookup_insert_eq. reflexivity. Qed.

Section DijkstraSound.
Context (nodes : list GraphNode) (edges : list GraphEdge) (s : string).
Context (Hnonneg : nonNegative edges).

Local Abbreviation relaxingFrom := (relaxingFrom nodes edges s).

Lemma relaxNeighbors_sound m xm nbrs st :
  (forall v w, (v, w) ∈ nbrs -> mkEdge m v w ∈ edges) ->
  relaxingFrom m xm (GraphAlgorithms.visited st)
               (GraphAlgorithms.distances st) (GraphAlgorithms.previous st) ->
  let st' := GraphAlgorithms.relaxNeighbors m nbrs st in
  relaxingFrom m xm (GraphAlgorithms.visited st')
               (GraphAlgorithms.distances st') (GraphAlgorithms.previous st') /\
  (forall k a, jsLt a (get (GraphAlgorithms.distances st) k) = false ->
               jsLt a (get (GraphAlgorithms.distances st') k) = false) /\
  (forall v w, (v, w) ∈ nbrs ->
     jsLt (Fin (xm + w)) (get (GraphAlgorithms.distances st') v) = false).
Proof.
  revert st. induction nbrs as [|[v w] nbrs IH]; intros st Hin Hrel; cbn zeta.
  - simpl. split; [assumption|]. split; [auto|].
    intros v w H. apply elem_of_nil in H. contradiction.
  - assert (Hrest : forall v' w', (v', w') ∈ nbrs -> mkEdge m v' w' ∈ edges).
    { intros v' w' H. apply Hin, elem_of_cons. auto. }
    assert (He : mkEdge m v w ∈ edges) by (apply Hin, elem_of_cons; auto).
    pose proof (Hnonneg _ He) as Hw. simpl in Hw.
    destruct Hrel as (Hr & Hm & HmV & Hvis & Hunvis & Hedges & Hwalks).
    cbn [GraphAlgorithms.relaxNeighbors].
    rewrite (get_lookup _ _ _ Hm). cbn [jsAdd].
    destruct (jsLt (Fin (xm + w)) (get (GraphAlgorithms.distances st) v)) eqn:Hlt.
    + (* the neighbor is relaxed: it cannot be a visited node *)
      assert (HvV : v ∉ GraphAlgorithms.visited st).
      { intros HvV. destruct (Hvis v HvV) as (xu & Hxu & Hle).
        rewrite (get_lookup _ _ _ Hxu) in Hlt. simpl in Hlt.
        apply bool_decide_eq_true in Hlt. lia. }
      assert (Hvm : v <> m) by (intros ->; contradiction).
      assert (Hvl : v ∈ ids nodes).
      { apply jsLt_true_r in Hlt. apply get_not_NaN_lookup in Hlt as [a Ha].
        eapply reachable_listed; eassumption. }
      match goal with
      | |- context [GraphAlgorithms.relaxNeighbors m nbrs ?st1] =>
          assert (Hrel1 : relaxingFrom m xm (GraphAlgorithms.visited st1)
                            (GraphAlgorithms.distances st1)
                            (GraphAlgorithms.previous st1));
          [|destruct (IH st1 Hrest Hrel1) as (Hrel' & Hmono & Hdone)]
      end.
      { cbn [GraphAlgorithms.visited GraphAlgorithms.distances
             GraphAlgorithms.previous].
        split.
        { apply (reach_relax nodes edges s _ _ (mkEdge m v w) xm); auto.
          simpl. apply get_lookup. assumption. }
        split; [rewrite lookup_insert_ne by congruence; assumption|].
        split; [assumption|]. split; [|split; [|split]].
        - intros u Hu. destruct (Hvis u Hu) as (xu & Hxu & Hle). exists xu.
          rewrite lookup_insert_ne by (intros ->; contradiction). auto.
        - intros k Hk. destruct (decide (k = v)) as [->|Hne].
          + rewrite get_insert_eq. simpl. apply bool_decide_eq_false. lia.
          + rewrite get_insert_ne by assumption. auto.
        - intros e He' Hsrc Hsm. unfold improves.
          rewrite get_insert_ne by (intros Heq; rewrite Heq in Hsrc; contradiction).
          apply jsLt_insert_mono; [assumption|]. apply Hedges; assumption.
        - intros k x Hk. destruct (decide (k = v)) as [->|Hne].
          + rewrite lookup_insert_eq in Hk. simplify_eq.
            destruct (Hwalks m xm Hm) as (j & Hj & _ & Hlt'). specialize (Hlt' HmV).
            exists (S j). split; [|split; [lia | intros; contradiction]].
            apply (walk_step nodes edges s (mkEdge m v w) xm j); assumption.
          + rewrite lookup_insert_ne in Hk by congruence. auto. }
      cbn [GraphAlgorithms.distances] in Hmono, Hdone.
      split; [assumption|]. split.
      * intros k a Ha. apply Hmono. apply jsLt_insert_mono; assumption.
      * intros v' w' H. apply elem_of_cons in H as [[= -> ->]|H]; [|auto].
        apply Hmono. rewrite get_insert_eq. apply jsLt_irrefl.
    + destruct (IH st Hrest) as (Hrel' & Hmono & Hdone).
      { repeat (split; [assumption|]). assumption. }
      split; [assumption|]. split; [assumption|].
      intros v' w' H. apply elem_of_cons in H as [[= -> ->]|H]; [|auto].
      apply Hmono. exact Hlt.
Qed.

Lemma jsLt_Fin_le a x y : jsLt a (Fin x) = false -> y <= x -> jsLt a (Fin y) = false.
Proof.
  destruct a as [z| |]; simpl; auto.
  rewrite !bool_decide_eq_false. lia.
Qed.

(** One turn of the [while] loop keeps the invariant. *)
Lemma visit_sound adjList m x st :
  GraphAlgorithms.buildAdjacencyList nodes edges = Some adjList ->
  GraphAlgorithms.selectMin nodes (GraphAlgorithms.visited st)
                            (GraphAlgorithms.distances st) = (Some m, x) ->
  reachable nodes edges s (GraphAlgorithms.distances st)
            (GraphAlgorithms.previous st) ->
  dijkstraSound nodes edges s (GraphAlgorithms.distances st)
                (GraphAlgorithms.visited st) ->
  let st' := GraphAlgorithms.visit adjList m x st in
  dijkstraSound nodes edges s (GraphAlgorithms.distances st')
                (GraphAlgorithms.visited st').
Proof.
  intros Hadj Hsel Hr [Hfin Hord Hedg Hwalk]. cbn zeta.
  pose proof (selectMin_has_entry _ _ _ _ _ _ _ Hadj Hsel) as Hentry.
  apply selectMin_Some in Hsel as (Hml & HmV & Hx & (xm & Hxm) & Hmin).
  subst x. unfold get in Hxm.
  destruct (GraphAlgorithms.distances st !! m) as [am|] eqn:Hm; simpl in Hxm;
    [subst am | discriminate].
  unfold GraphAlgorithms.visit. cbn zeta.
  unfold lookup_total, map_lookup_total. rewrite Hentry. cbn [default].
  match goal with
  | |- context [GraphAlgorithms.relaxNeighbors m ?nb ?st1] =>
      destruct (relaxNeighbors_sound m xm nb st1) as (Hrel & _ & Hdone)
  end.
  { intros v w. apply elem_of_outgoing. }
  { cbn [GraphAlgorithms.visited GraphAlgorithms.distances GraphAlgorithms.previous].
    split; [assumption|]. split; [assumption|].
    split; [apply elem_of_union_l, elem_of_singleton; reflexivity|].
    split; [|split; [|split]].
    - intros u Hu. apply elem_of_union in Hu as [Hu|Hu].
      + apply elem_of_singleton in Hu as ->. exists xm. split; [assumption | lia].
      + destruct (Hfin u Hu) as [xu Hxu]. exists xu. split; [assumption|].
        pose proof (Hord u m xu Hu HmV Hxu) as Hlt.
        rewrite (get_lookup _ _ _ Hm) in Hlt. simpl in Hlt.
        apply bool_decide_eq_false in Hlt. lia.
    - intros v Hv.
      assert (HvV : v ∉ GraphAlgorithms.visited st).
      { intros H. apply Hv, elem_of_union_r, H. }
      destruct (decide (v ∈ ids nodes)) as [Hvl|Hvl].
      + specialize (Hmin v Hvl HvV). rewrite (get_lookup _ _ _ Hm) in Hmin.
        exact Hmin.
      + unfold get. destruct (GraphAlgorithms.distances st !! v) as [a|] eqn:Ha;
          [|reflexivity].
        exfalso. apply Hvl. eapply reachable_listed; eassumption.
    - intros e He Hsrc Hne. apply Hedg; [assumption|].
      apply elem_of_union in Hsrc as [Hsrc|Hsrc]; [|assumption].
      apply elem_of_singleton in Hsrc. contradiction.
    - intros v x Hv. destruct (Hwalk v x Hv) as (k & Hk & Hle & Hlt).
      exists k. rewrite size_add_fresh by assumption.
      split; [assumption|]. split; [lia|].
      intros HvV. apply elem_of_union in HvV as [HvV|HvV]; [lia|].
      specialize (Hlt HvV). lia. }
  cbn [GraphAlgorithms.distances GraphAlgorithms.visited].
  destruct Hrel as (Hr' & Hm' & HmV' & Hvis & Hunvis & Hedges & Hwalks).
  constructor.
  - intros u Hu. destruct (Hvis u Hu) as (xu & Hxu & _). eauto.
  - intros u v xu Hu Hv Hxu. destruct (Hvis u Hu) as (xu' & Hxu' & Hle).
    rewrite Hxu in Hxu'. simplify_eq. eapply jsLt_Fin_le; [apply Hunvis|]; assumption.
  - intros e He Hsrc. destruct (decide (source e = m)) as [Heq|Hne].
    + unfold improves. rewrite Heq, (get_lookup _ _ _ Hm'). simpl.
      apply Hdone. apply elem_of_outgoing. rewrite <- Heq, edge_eta. exact He.
    + apply Hedges; assumption.
  - exact Hwalks.
Qed.

Lemma dijkstraSound_initial :
  dijkstraSound nodes edges s (initDistances nodes s) ∅.
Proof.
  constructor.
  - intros u Hu. apply elem_of_empty in Hu. contradiction.
  - intros u v xu Hu. apply elem_of_empty in Hu. contradiction.
  - intros e _ Hu. apply elem_of_empty in Hu. contradiction.
  - intros v x Hv. rewrite initDistances_lookup in Hv.
    destruct (decide (v ∈ ids nodes)) as [Hin|]; [|discriminate].
    destruct (bool_decide_reflect (v = s)) as [->|]; [|discriminate].
    simplify_eq. exists 0%nat. split; [constructor; assumption|].
    split; [lia|]. intros Hu. apply elem_of_empty in Hu. contradiction.
Qed.

Lemma dijkstraSound_visited_listed d p V :
  reachable nodes edges s d p -> dijkstraSound nodes edges s d V ->
  V ⊆ list_to_set (ids nodes).
Proof.
  intros Hr [Hfin _ _ _] u Hu. destruct (Hfin u Hu) as [x Hx].
  apply elem_of_list_to_set. eapply reachable_listed; eassumption.
Qed.

(** The loop keeps the invariant and, when no listed node has an empty
    id, ends with every node of finite distance visited. *)
Lemma whileLoop_sound fuel adjList st :
  GraphAlgorithms.buildAdjacencyList nodes edges = Some adjList ->
  EmptyString ∉ ids nodes ->
  (length nodes - size (GraphAlgorithms.visited st) <= fuel)%nat ->
  dijkstraInv nodes edges s st ->
  dijkstraSound nodes edges s (GraphAlgorithms.distances st)
                (GraphAlgorithms.visited st) ->
  let st' := GraphAlgorithms.whileLoop fuel nodes adjList st in
  dijkstraSound nodes edges s (GraphAlgorithms.distances st')
                (GraphAlgorithms.visited st') /\
  forall v x, GraphAlgorithms.distances st' !! v = Some (Fin x) ->
              v ∈ GraphAlgorithms.visited st'.
Proof.
  intros Hadj Hempty. revert st.
  assert (Hfull : forall st,
             dijkstraInv nodes edges s st ->
             dijkstraSound nodes edges s (GraphAlgorithms.distances st)
                           (GraphAlgorithms.visited st) ->
             (length nodes <= size (GraphAlgorithms.visited st))%nat ->
             forall v x, GraphAlgorithms.distances st !! v = Some (Fin x) ->
                         v ∈ GraphAlgorithms.visited st).
  { intros st [Hr _] Hsound Hsize v x Hv.
    pose proof (dijkstraSound_visited_listed _ _ _ Hr Hsound) as Hsub.
    pose proof (size_list_to_set_le (ids nodes)) as Hle.
    unfold ids in Hle at 2. rewrite length_fmap in Hle.
    assert (Heq : GraphAlgorithms.visited st = list_to_set (ids nodes)).
    { apply set_subseteq_size_eq; [assumption | lia]. }
    rewrite Heq. apply elem_of_list_to_set. eapply reachable_listed; eassumption. }
  induction fuel as [|fuel IH]; intros st Hfuel Hinv Hsound; cbn zeta.
  - simpl. split; [assumption|]. apply Hfull; [assumption..|lia].
  - cbn [GraphAlgorithms.whileLoop].
    destruct (bool_decide_reflect
                (size (GraphAlgorithms.visited st) < length nodes)%nat) as [Hlt|Hge];
      [|split; [assumption | apply Hfull; [assumption..|lia]]].
    destruct (GraphAlgorithms.selectMin _ _ _) as [[m|] x] eqn:Hsel.
    + pose proof (selectMin_Some _ _ _ _ _ Hsel) as (Hml & HmV & _).
      unfold truthy. destruct (bool_decide_reflect (m = EmptyString)) as [->|Hne];
        [contradiction|]. cbn [negb].
      apply IH.
      * rewrite visit_visited, size_add_fresh by assumption. lia.
      * apply visit_inv; assumption.
      * destruct Hinv as [Hr _]. apply visit_sound; assumption.
    + split; [assumption|]. intros v y Hv.
      destruct (decide (v ∈ GraphAlgorithms.visited st)) as [|HvV]; [assumption|].
      exfalso. destruct Hinv as [Hr _].
      pose proof (reachable_listed _ _ _ _ _ _ _ Hr Hv) as Hvl.
      pose proof (selectMin_None _ _ _ _ Hsel v Hvl HvV) as Hn.
      rewrite (get_lookup _ _ _ Hv) in Hn. discriminate.
Qed.

End DijkstraSound.

(** ** Dijkstra against Bellman-Ford *)

(** What Dijkstra returns on a well-formed graph with non-negative weights:
    a reachable, stable distance map in which every finite distance is the
    weight of a walk of fewer edges than there are nodes. *)
Lemma dijkstra_distances nodes edges s :
  sourcesKnown nodes edges ->
  EmptyString ∉ ids nodes ->
  nonNegative edges ->
  exists r,
    GraphAlgorithms.dijkstra nodes edges s = Some r /\
    reachable nodes edges s (Result.distances r) (Result.previous r) /\
    stable edges (Result.distances r) /\
    forall v x, Result.distances r !! v = Some (Fin x) ->
      exists k, walk nodes edges s v x k /\ (k <= length nodes - 1)%nat.
Proof.
  intros Hsrc Hempty Hnonneg.
  destruct (buildAdjacencyList_is_Some nodes edges Hsrc) as [adjList Hadj].
  unfold GraphAlgorithms.dijkstra. rewrite Hadj. cbn zeta.
  eexists. split; [reflexivity|].
  cbn [Result.distances Result.previous].
  match goal with
  | |- context [GraphAlgorithms.whileLoop ?f nodes adjList ?st0] =>
      assert (Hinv0 : dijkstraInv nodes edges s st0);
      [|pose proof (whileLoop_inv nodes edges s f adjList st0 Hadj Hinv0) as [Hr _];
        destruct (whileLoop_sound nodes edges s Hnonneg f adjList st0 Hadj Hempty)
          as [Hsound Hall];
        [simpl; lia | assumption | apply dijkstraSound_initial |];
        set (st := GraphAlgorithms.whileLoop f nodes adjList st0) in *]
  end.
  { split; simpl; [constructor|]. constructor; [constructor | constructor]. }
  split; [assumption|]. split.
  - intros e He. pose proof (proj1 (Forall_forall _ _) Hsrc e He) as Hs.
    cbn beta in Hs.
    destruct (reachable_lookup nodes edges s _ _ _ Hr Hs) as (a & Ha & HnaN).
    destruct a as [x| |]; [| |congruence].
    + destruct Hsound as [_ _ Hedges _]. apply Hedges; [assumption|]. eapply Hall, Ha.
    + unfold improves. rewrite (get_lookup _ _ _ Ha). reflexivity.
  - intros v x Hv. pose proof (Hall v x Hv) as HvV.
    destruct Hsound as [Hfin Hord Hedges Hwalks].
    destruct (Hwalks v x Hv) as (k & Hk & _ & Hlt). specialize (Hlt HvV).
    exists k. split; [assumption|].
    assert (size (GraphAlgorithms.visited st) <= length nodes)%nat; [|lia].
    pose proof (size_list_to_set_le (ids nodes)) as Hle.
    unfold ids in Hle at 2. rewrite length_fmap in Hle.
    assert (Hsub : GraphAlgorithms.visited st ⊆ list_to_set (ids nodes)).
    { intros u Hu. destruct (Hfin u Hu) as [y Hy].
      apply elem_of_list_to_set. eapply reachable_listed; eassumption. }
    apply subseteq_size in Hsub. lia.
Qed.

(** Agreement of the two algorithms of [client/lib] on inputs with plain
    keys: when every edge starts at a listed node, no listed node has the
    empty id and no weight is negative, Dijkstra returns and its final
    distances are those of Bellman-Ford. *)
Theorem dijkstra_agrees_with_bellmanFord nodes edges s :
  plainKeys nodes edges ->
  sourcesKnown nodes edges ->
  EmptyString ∉ ids nodes ->
  nonNegative edges ->
  exists r,
    GraphAlgorithms.dijkstra nodes edges s = Some r /\
    Result.distances r
    = Result.distances (GraphAlgorithms.bellmanFord nodes edges s).
Proof.
  intros _.
  intros Hsrc Hempty Hnonneg.
  destruct (dijkstra_distances nodes edges s Hsrc Hempty Hnonneg)
    as (r & Hr & Hreach & Hstable & Hwalks).
  exists r. split; [assumption|].
  destruct (bellmanFord_reachable nodes edges s) as [Hreach' _].
  destruct (bellmanFord_distances nodes edges s) as [Hstable'|Hbound].
  - eapply (stable_unique nodes edges s Hnonneg); eassumption.
  - set (D := Result.distances r) in *.
    set (d := Result.distances (GraphAlgorithms.bellmanFord nodes edges s)) in *.
    assert (Hfin : forall k x, D !! k = Some (Fin x) -> d !! k = Some (Fin x)).
    { intros k x Hk. destruct (Hwalks k x Hk) as (j & Hw & Hj).
      destruct (Hbound k x j Hw Hj) as (y & Hy & Hle).
      destruct (reachable_walk nodes edges s _ _ _ _ Hreach' Hy) as [j' Hw'].
      destruct (stable_below_walk nodes edges s Hnonneg _ _ _ _ _ Hreach Hstable Hw')
        as (x' & Hx' & Hle').
      fold D in Hx'. rewrite Hk in Hx'. simplify_eq. rewrite Hy. do 2 f_equal. lia. }
    assert (Hfin' : forall k y, d !! k = Some (Fin y) -> exists x, D !! k = Some (Fin x)).
    { intros k y Hy.
      destruct (reachable_walk nodes edges s _ _ _ _ Hreach' Hy) as [j' Hw'].
      destruct (stable_below_walk nodes edges s Hnonneg _ _ _ _ _ Hreach Hstable Hw')
        as (x' & Hx' & _). eauto. }
    apply map_eq. intros k. destruct (D !! k) as [a|] eqn:Hk.
    + pose proof (reachable_listed _ _ _ _ _ _ _ Hreach Hk) as Hkl.
      destruct (reachable_lookup _ _ _ _ _ _ Hreach' Hkl) as (a' & Ha' & HnaN').
      fold d in Ha'. rewrite Ha'. destruct a as [x| |].
      * rewrite (Hfin k x Hk) in Ha'. congruence.
      * destruct a' as [y| |]; [|reflexivity|congruence].
        destruct (Hfin' k y Ha') as [x Hx]. congruence.
      * exfalso. eapply (reachable_no_NaN _ _ _ _ _ Hreach); eassumption.
    + destruct (d !! k) as [a'|] eqn:Hk'; [|reflexivity].
      pose proof (reachable_listed _ _ _ _ _ _ _ Hreach' Hk') as Hkl.
      destruct (reachable_lookup _ _ _ _ _ _ Hreach Hkl) as (a & Ha & _).
      fold D in Ha. congruence.
Qed.

Lemma dijkstra_agrees_with_bellmanFord_witness :
  let nodes := [mkNode "A"; mkNode "B"; mkNode "C"] in
  let edges := [mkEdge "A" "B" 4; mkEdge "A" "C" 1; mkEdge "C" "B" 1] in
  exists r,
    GraphAlgorithms.dijkstra nodes edges "A" = Some r /\
    Result.distances r
    = Result.distances (GraphAlgorithms.bellmanFord nodes edges "A").
Proof.
  apply (dijkstra_agrees_with_bellmanFord
           [mkNode "A"; mkNode "B"; mkNode "C"]
           [mkEdge "A" "B" 4; mkEdge "A" "C" 1; mkEdge "C" "B" 1] "A");
    try solve [plain_keys]; try solve [exact_sums].
  - repeat constructor; apply bool_decide_unpack; vm_compute; exact I.
  - not_listed.
  - intros e He. cbn in He.
    repeat (apply elem_of_cons in He as [->|He]; [simpl; lia|]).
    inversion He.
Defined.

(** C1 at the input nodes [A, "", B], edges [(A,"",1), ("",B,1)], source A:
    all weights are non-negative, yet Dijkstra of [client/lib] leaves B at
    infinite distance (the empty id is falsy, so [if (!minNode) break] ends
    the loop when that node is selected), where Bellman-Ford and the
    Dijkstra of the second variant give B the distance 2. *)
Theorem dijkstra_breaks_on_empty_id :
  let nodes := [mkNode "A"; mkNode ""; mkNode "B"] in
  let edges := [mkEdge "A" "" 1; mkEdge "" "B" 1] in
  nonNegative edges /\
  (exists r,
      GraphAlgorithms.dijkstra nodes edges "A" = Some r /\
      Result.distances r !! "B" = Some Infinity /\
      kinds (Result.steps r) = [initial; select; relax; complete]) /\
  Result.distances (GraphAlgorithms.bellmanFord nodes edges "A") !! "B"
  = Some (Fin 2) /\
  Result.distances (Part001.dijkstra nodes edges "A") !! "B" = Some (Fin 2).
Proof.
  cbv zeta. split.
  - intros e He.
    repeat (apply elem_of_cons in He as [->|He]; [simpl; lia|]).
    inversion He.
  - split; [|split; vm_compute; reflexivity].
    eexists. split; [vm_compute; reflexivity|].
    split; vm_compute; reflexivity.
Qed.

(** ** The two variants of Bellman-Ford against each other *)

Lemma relaxEdges_variants i j es (st : GraphAlgorithms.BState) (st1 : Part001.BState) b :
  Part001.bdistances st1 = GraphAlgorithms.bdistances st ->
  Part001.bprevious st1 = GraphAlgorithms.bprevious st ->
  Part001.bdistances (Part001.relaxEdges j es st1 b).1
  = GraphAlgorithms.bdistances (GraphAlgorithms.relaxEdges i es st b).1 /\
  Part001.bprevious (Part001.relaxEdges j es st1 b).1
  = GraphAlgorithms.bprevious (GraphAlgorithms.relaxEdges i es st b).1 /\
  (Part001.relaxEdges j es st1 b).2 = (GraphAlgorithms.relaxEdges i es st b).2.
Proof.
  revert st st1 b. induction es as [|e es IH]; intros st st1 b Hd Hp; simpl; [auto|].
  rewrite improves_guarded, Hd.
  destruct (notInfinity _); simpl; [|apply IH; assumption].
  destruct (jsLt _ _); [|apply IH; assumption].
  apply IH; simpl; congruence.
Qed.

Lemma part001_relaxEdges_stable j es st1 b :
  (forall e, e ∈ es -> improves (Part001.bdistances st1) e = false) ->
  Part001.relaxEdges j es st1 b = (st1, b).
Proof.
  intros Hst. induction es as [|e es IH]; simpl; [reflexivity|].
  assert (He : improves (Part001.bdistances st1) e = false)
    by (apply Hst, elem_of_cons; auto).
  rewrite improves_guarded in He.
  destruct (notInfinity _); simpl in He;
    [rewrite He|]; apply IH; intros e' He'; apply Hst, elem_of_cons; auto.
Qed.

(** Once a pass relaxes nothing, the remaining passes of the second variant
    change no map. *)
Lemma part001_passes_stable count j es st1 :
  (forall e, e ∈ es -> improves (Part001.bdistances st1) e = false) ->
  Part001.bdistances (Part001.passes count j es st1) = Part001.bdistances st1 /\
  Part001.bprevious (Part001.passes count j es st1) = Part001.bprevious st1.
Proof.
  revert j st1. induction count as [|count IH]; intros j st1 Hst; simpl; [auto|].
  rewrite part001_relaxEdges_stable by assumption.
  destruct (IH (S j)
              (Part001.mkB (Part001.bdistances st1) (Part001.bprevious st1)
                 (Part001.bsteps st1 ++
                    [Step.mk update (Part001.biteration st1) None None
                       (Part001.bdistances st1) (Part001.bprevious st1) None
                       ("Iteration " +:+ pretty (j + 1)%nat +:+ ": No updates")])
                 (S (Part001.biteration st1)))) as [Hd Hp]; [exact Hst|].
  simpl in Hd, Hp. auto.
Qed.

Lemma passes_variants count i j es (st : GraphAlgorithms.BState) (st1 : Part001.BState) :
  Part001.bdistances st1 = GraphAlgorithms.bdistances st ->
  Part001.bprevious st1 = GraphAlgorithms.bprevious st ->
  Part001.bdistances (Part001.passes count j es st1)
  = GraphAlgorithms.bdistances (GraphAlgorithms.passes count i es st) /\
  Part001.bprevious (Part001.passes count j es st1)
  = GraphAlgorithms.bprevious (GraphAlgorithms.passes count i es st).
Proof.
  revert i j st st1. induction count as [|count IH]; intros i j st st1 Hd Hp; simpl;
    [auto|].
  destruct (relaxEdges_variants i j es st st1 false Hd Hp) as (Hd' & Hp' & Hflag).
  pose proof (relaxEdges_idle i es st) as Hidle.
  destruct (GraphAlgorithms.relaxEdges i es st false) as [st' relaxed].
  destruct (Part001.relaxEdges j es st1 false) as [st1' relaxed1].
  simpl in Hd', Hp', Hflag, Hidle. subst relaxed1. destruct relaxed.
  - apply IH; simpl; assumption.
  - destruct (Hidle eq_refl) as [-> Hst]. simpl.
    match goal with
    | |- context [Part001.passes count (S j) es ?st2] =>
        destruct (part001_passes_stable count (S j) es st2) as [Hd2 Hp2]
    end.
    { simpl. rewrite Hd'. exact Hst. }
    simpl in Hd2, Hp2. split; congruence.
Qed.

Lemma findEdge_Some edges p n e :
  findEdge edges p n = Some e -> e ∈ edges /\ source e = p /\ destination e = n.
Proof.
  unfold findEdge. intros H. apply find_some in H as [Hin Hb].
  apply andb_true_iff in Hb as [H1 H2].
  apply bool_decide_eq_true in H1. apply bool_decide_eq_true in H2.
  split; [apply list_elem_of_In; exact Hin | auto].
Qed.

Lemma buildTree_variants_fold nodes edges (prev : gmap string (option string)) acc acc1 :
  acc = filter (fun e => truthy (source e) = true) acc1 ->
  foldl (fun tree n =>
           match prev !! id n with
           | Some (Some p) =>
               if truthy p then
                 match findEdge edges p (id n) with
                 | Some e => tree ++ [e]
                 | None => tree
                 end
               else tree
           | _ => tree
           end) acc nodes
  = filter (fun e => truthy (source e) = true)
      (foldl (fun tree n =>
                match prev !! id n with
                | Some (Some p) =>
                    match findEdge edges p (id n) with
                    | Some e => tree ++ [e]
                    | None => tree
                    end
                | _ => tree
                end) acc1 nodes).
Proof.
  revert acc acc1. induction nodes as [|n nodes IH]; intros acc acc1 Hacc;
    cbn [foldl]; [assumption|].
  apply IH. destruct (prev !! id n) as [[p|]|]; [|assumption..].
  destruct (findEdge edges p (id n)) as [e|] eqn:Hf.
  - apply findEdge_Some in Hf as (_ & Hs & _). rewrite filter_app, <- Hacc.
    rewrite filter_cons, filter_nil. rewrite Hs.
    destruct (truthy p) eqn:Ht.
    + rewrite decide_True by reflexivity. reflexivity.
    + rewrite decide_False by discriminate. rewrite app_nil_r. reflexivity.
  - destruct (truthy p); assumption.
Qed.

(** The tree of [client/lib] is the tree of the second variant without the
    edges that leave the node with the empty id. *)
Lemma buildTree_variants nodes edges prev :
  GraphAlgorithms.buildTree nodes edges prev
  = filter (fun e => truthy (source e) = true) (Part001.buildTree nodes edges prev).
Proof. apply buildTree_variants_fold. reflexivity. Qed.

(** The results of the two variants of Bellman-Ford, field by field. *)
Lemma bellmanFord_variants nodes edges s :
  let r := GraphAlgorithms.bellmanFord nodes edges s in
  let r1 := Part001.bellmanFord nodes edges s in
  Result.distances r1 = Result.distances r /\
  Result.previous r1 = Result.previous r /\
  Result.hasNegativeCycle r1 = Result.hasNegativeCycle r.
Proof.
  unfold GraphAlgorithms.bellmanFord, Part001.bellmanFord. cbn zeta.
  match goal with
  | |- context [GraphAlgorithms.passes ?c ?i ?es ?st0] =>
      match goal with
      | |- context [Part001.passes c ?j es ?st1] =>
          destruct (passes_variants c i j es st0 st1) as [Hd Hp];
          [reflexivity | reflexivity |];
          set (st := GraphAlgorithms.passes c i es st0) in *;
          set (st' := Part001.passes c j es st1) in *
      end
  end.
  rewrite part001_cycleCheck_find, Hd.
  destruct (List.find (improves (GraphAlgorithms.bdistances st)) edges); simpl.
  - auto.
  - repeat split; congruence.
Qed.

(** On every input the two variants of Bellman-Ford return the same
    distances, the same predecessors and the same negative-cycle flag: the
    early stop of [client/lib] changes the trace only.  Their trees differ
    by design: [client/lib] returns none on a negative cycle, and skips the
    edges that leave a node whose id is the empty string. *)
Theorem bellmanFord_variants_agree nodes edges s :
  let r := GraphAlgorithms.bellmanFord nodes edges s in
  let r1 := Part001.bellmanFord nodes edges s in
  Result.distances r1 = Result.distances r /\
  Result.previous r1 = Result.previous r /\
  Result.hasNegativeCycle r1 = Result.hasNegativeCycle r /\
  Result.shortestPathTree r
  = if Result.hasNegativeCycle r then []
    else filter (fun e => truthy (source e) = true) (Result.shortestPathTree r1).
Proof.
  unfold GraphAlgorithms.bellmanFord, Part001.bellmanFord. cbn zeta.
  match goal with
  | |- context [GraphAlgorithms.passes ?c ?i ?es ?st0] =>
      match goal with
      | |- context [Part001.passes c ?j es ?st1] =>
          destruct (passes_variants c i j es st0 st1) as [Hd Hp];
          [reflexivity | reflexivity |];
          set (st := GraphAlgorithms.passes c i es st0) in *;
          set (st' := Part001.passes c j es st1) in *
      end
  end.
  rewrite part001_cycleCheck_find, Hd.
  destruct (List.find (improves (GraphAlgorithms.bdistances st)) edges); simpl.
  - auto.
  - repeat (split; [congruence|]). rewrite Hp. apply buildTree_variants.
Qed.

(** ** The second variant: every snapshot is reachable *)

Section Part001Snapshots.
Context (nodes : list GraphNode) (edges : list GraphEdge) (s : string).

Lemma part001_relaxNeighbors_inv m nbrs st :
  (forall v w, (v, w) ∈ nbrs -> mkEdge m v w ∈ edges) ->
  part001DijkstraInv nodes edges s st ->
  part001DijkstraInv nodes edges s (Part001.relaxNeighbors m nbrs st).
Proof.
  revert st. induction nbrs as [|[v w] nbrs IH]; intros st Hin Hinv; simpl; [assumption|].
  assert (Hrest : forall v' w', (v', w') ∈ nbrs -> mkEdge m v' w' ∈ edges).
  { intros v' w' H. apply Hin. apply elem_of_cons. auto. }
  destruct (jsLt _ _) eqn:Hlt; [|apply IH; assumption].
  destruct (jsLt_true_l _ _ Hlt) as [y Hy].
  apply jsAdd_Fin_inv in Hy as Hx. destruct Hx as (x & Hx & ->).
  rewrite Hx in *. simpl in Hlt |- *.
  destruct Hinv as [Hr Hsteps].
  assert (Hr' : reachable nodes edges s
                  (<[v := Fin (x + w)]> (Part001.distances st))
                  (<[v := Some m]> (Part001.previous st))).
  { apply (reach_relax nodes edges s _ _ (mkEdge m v w) x); auto.
    apply Hin. apply elem_of_cons. auto. }
  apply IH; [assumption|]. split; simpl; [assumption|].
  apply Forall_app. split; [assumption|]. constructor; [exact Hr' | constructor].
Qed.

Lemma part001_adjacent_edges m v w :
  (v, w) ∈ default [] (Part001.buildAdjacencyList nodes edges !! m) ->
  mkEdge m v w ∈ edges.
Proof.
  rewrite part001_buildAdjacencyList_lookup.
  destruct (decide _); simpl; intros H.
  - apply elem_of_outgoing. exact H.
  - apply elem_of_nil in H. contradiction.
Qed.

Lemma part001_visit_inv m x st :
  part001DijkstraInv nodes edges s st ->
  part001DijkstraInv nodes edges s
    (Part001.visit (Part001.buildAdjacencyList nodes edges) m x st).
Proof.
  intros [Hr Hsteps]. unfold Part001.visit. cbn zeta.
  match goal with
  | |- part001DijkstraInv _ _ _ (Part001.mkD (Part001.distances ?st2) _ _ _ _) =>
      assert (H2 : part001DijkstraInv nodes edges s st2)
  end.
  { apply part001_relaxNeighbors_inv.
    - intros v w. apply part001_adjacent_edges.
    - split; simpl; [assumption|]. apply Forall_app. split; [assumption|].
      constructor; [exact Hr | constructor]. }
  exact H2.
Qed.

Lemma part001_whileLoop_inv fuel st :
  part001DijkstraInv nodes edges s st ->
  part001DijkstraInv nodes edges s
    (Part001.whileLoop fuel nodes (Part001.buildAdjacencyList nodes edges) st).
Proof.
  revert st. induction fuel as [|fuel IH]; intros st Hinv; simpl; [assumption|].
  destruct (bool_decide _); [|assumption].
  destruct (Part001.selectMin _ _ _) as [[m|] x]; [|assumption].
  destruct (notInfinity x); [|assumption].
  apply IH. apply part001_visit_inv; assumption.
Qed.

Lemma part001_dijkstra_reachable :
  snapshotsOk (reachable nodes edges s) (Part001.dijkstra nodes edges s).
Proof.
  unfold Part001.dijkstra. cbn zeta.
  match goal with
  | |- context [Part001.whileLoop ?f ?n ?a ?st0] =>
      pose proof (part001_whileLoop_inv f st0) as Hinv
  end.
  destruct Hinv as [Hr Hsteps].
  { split; simpl; [constructor|]. constructor; [constructor | constructor]. }
  split; simpl; [assumption|].
  apply Forall_app. split; [assumption|]. constructor; [exact Hr | constructor].
Qed.

Lemma part001_relaxEdges_inv i es st b :
  (forall e, e ∈ es -> e ∈ edges) ->
  part001BellmanFordInv nodes edges s st ->
  part001BellmanFordInv nodes edges s (Part001.relaxEdges i es st b).1.
Proof.
  revert st b. induction es as [|e es IH]; intros st b Hin Hinv; simpl; [assumption|].
  assert (Hrest : forall e', e' ∈ es -> e' ∈ edges).
  { intros e' H. apply Hin. apply elem_of_cons. auto. }
  destruct (notInfinity _); [|apply IH; assumption].
  destruct (jsLt _ _) eqn:Hlt; [|apply IH; assumption].
  destruct (jsLt_true_l _ _ Hlt) as [y Hy].
  apply jsAdd_Fin_inv in Hy as Hx. destruct Hx as (x & Hx & ->).
  rewrite Hx in *. simpl in Hlt |- *.
  destruct Hinv as [Hr Hsteps].
  assert (Hr' : reachable nodes edges s
                  (<[destination e := Fin (x + weight e)]> (Part001.bdistances st))
                  (<[destination e := Some (source e)]> (Part001.bprevious st))).
  { apply (reach_relax nodes edges s _ _ e x); auto.
    apply Hin. apply elem_of_cons. auto. }
  apply IH; [assumption|]. split; simpl; [assumption|].
  apply Forall_app. split; [assumption|]. constructor; [exact Hr' | constructor].
Qed.

Lemma part001_passes_inv count i st :
  part001BellmanFordInv nodes edges s st ->
  part001BellmanFordInv nodes edges s (Part001.passes count i edges st).
Proof.
  revert i st. induction count as [|count IH]; intros i st Hinv; simpl; [assumption|].
  pose proof (part001_relaxEdges_inv i edges st false (fun e H => H) Hinv) as H1.
  destruct (Part001.relaxEdges i edges st false) as [st' relaxed].
  simpl in H1. destruct H1 as [Hr Hsteps].
  apply IH. destruct relaxed; split; simpl; try assumption.
  apply Forall_app. split; [assumption|]. constructor; [exact Hr | constructor].
Qed.

Lemma part001_bellmanFord_reachable :
  snapshotsOk (reachable nodes edges s) (Part001.bellmanFord nodes edges s).
Proof.
  unfold Part001.bellmanFord. cbn zeta.
  match goal with
  | |- context [Part001.passes ?c ?i ?es ?st0] =>
      pose proof (part001_passes_inv c i st0) as Hinv;
      set (st := Part001.passes c i es st0) in *
  end.
  destruct Hinv as [Hr Hsteps].
  { split; simpl; [constructor|]. constructor; [constructor | constructor]. }
  rewrite part001_cycleCheck_find.
  destruct (List.find _ edges); split; simpl; try assumption;
    repeat (apply Forall_app; split; [|constructor; [exact Hr | constructor]]);
    assumption.
Qed.

End Part001Snapshots.

(** In the second variant, on inputs with plain keys and exact sums (edges
    between unlisted nodes included), every emitted snapshot and the final
    maps of both algorithms keep the predecessor invariant and have exactly
    the listed node ids as keys. *)
Theorem second_variant_snapshot_invariants nodes edges s :
  plainKeys nodes edges ->
  exactSums nodes edges ->
  snapshotsOk (fun d p => predecessorInvariant s d p /\ keysAre nodes d p)
              (Part001.dijkstra nodes edges s) /\
  snapshotsOk (fun d p => predecessorInvariant s d p /\ keysAre nodes d p)
              (Part001.bellmanFord nodes edges s).
Proof.
  intros _ _.
  split.
  - eapply snapshotsOk_impl; [|apply part001_dijkstra_reachable].
    intros d p Hr. split;
      [eapply reachable_predecessorInvariant | eapply reachable_dom]; eassumption.
  - eapply snapshotsOk_impl; [|apply part001_bellmanFord_reachable].
    intros d p Hr. split;
      [eapply reachable_predecessorInvariant | eapply reachable_dom]; eassumption.
Qed.

Lemma second_variant_snapshot_invariants_witness :
  let nodes := [mkNode "A"; mkNode "B"; mkNode "C"] in
  let edges := [mkEdge "A" "B" 4; mkEdge "A" "C" 5; mkEdge "C" "B" (-3)] in
  snapshotsOk (fun d p => predecessorInvariant "A" d p /\ keysAre nodes d p)
              (Part001.dijkstra nodes edges "A") /\
  snapshotsOk (fun d p => predecessorInvariant "A" d p /\ keysAre nodes d p)
              (Part001.bellmanFord nodes edges "A").
Proof.
  apply (second_variant_snapshot_invariants
           [mkNode "A"; mkNode "B"; mkNode "C"]
           [mkEdge "A" "B" 4; mkEdge "A" "C" 5; mkEdge "C" "B" (-3)] "A").
  - plain_keys.
  - exact_sums.
Defined.

(** ** The second variant of Dijkstra under non-negative weights *)

(** The maps and the visited set evolve alike in the two variants; only
    the emitted steps differ. *)
Lemma relaxNeighbors_variants m nbrs (st : GraphAlgorithms.DState) (st1 : Part001.DState) :
  Part001.distances st1 = GraphAlgorithms.distances st ->
  Part001.previous st1 = GraphAlgorithms.previous st ->
  Part001.visited st1 = GraphAlgorithms.visited st ->
  Part001.distances (Part001.relaxNeighbors m nbrs st1)
  = GraphAlgorithms.distances (GraphAlgorithms.relaxNeighbors m nbrs st) /\
  Part001.previous (Part001.relaxNeighbors m nbrs st1)
  = GraphAlgorithms.previous (GraphAlgorithms.relaxNeighbors m nbrs st) /\
  Part001.visited (Part001.relaxNeighbors m nbrs st1)
  = GraphAlgorithms.visited (GraphAlgorithms.relaxNeighbors m nbrs st).
Proof.
  revert st st1. induction nbrs as [|[v w] nbrs IH]; intros st st1 Hd Hp HV; simpl;
    [auto|].
  rewrite Hd. destruct (jsLt _ _); apply IH; simpl; congruence.
Qed.

Section Part001Sound.
Context (nodes : list GraphNode) (edges : list GraphEdge) (s : string).
Context (Hnonneg : nonNegative edges).

(** Selecting the minimum node and relaxing all its outgoing edges keeps
    the invariant of the loop. *)
Lemma select_relax_sound d p V m x steps it :
  GraphAlgorithms.selectMin nodes V d = (Some m, x) ->
  reachable nodes edges s d p ->
  dijkstraSound nodes edges s d V ->
  let st' :=
    GraphAlgorithms.relaxNeighbors m (outgoing m edges)
      (GraphAlgorithms.mkD d p ({[m]} ∪ V) steps it) in
  reachable nodes edges s (GraphAlgorithms.distances st')
            (GraphAlgorithms.previous st') /\
  dijkstraSound nodes edges s (GraphAlgorithms.distances st')
                (GraphAlgorithms.visited st') /\
  (forall u, u ∈ {[m]} ∪ V -> GraphAlgorithms.distances st' !! u = d !! u).
Proof.
  intros Hsel Hr [Hfin Hord Hedg Hwalk]. cbn zeta.
  apply selectMin_Some in Hsel as (Hml & HmV & Hx & (xm & Hxm) & Hmin).
  subst x. unfold get in Hxm.
  destruct (d !! m) as [am|] eqn:Hm; simpl in Hxm; [subst am | discriminate].
  match goal with
  | |- context [GraphAlgorithms.relaxNeighbors m ?nb ?st1] =>
      assert (Hrel0 : relaxingFrom nodes edges s m xm (GraphAlgorithms.visited st1)
                        (GraphAlgorithms.distances st1)
                        (GraphAlgorithms.previous st1));
      [|destruct (relaxNeighbors_sound nodes edges s Hnonneg m xm nb st1)
          as (Hrel & _ & Hdone);
        [intros v w; apply elem_of_outgoing | exact Hrel0 |];
        assert (Hkeep : forall nb' st2,
                   (forall v w, (v, w) ∈ nb' -> mkEdge m v w ∈ edges) ->
                   relaxingFrom nodes edges s m xm (GraphAlgorithms.visited st2)
                     (GraphAlgorithms.distances st2) (GraphAlgorithms.previous st2) ->
                   forall u, u ∈ GraphAlgorithms.visited st2 ->
                     GraphAlgorithms.distances
                       (GraphAlgorithms.relaxNeighbors m nb' st2) !! u
                     = GraphAlgorithms.distances st2 !! u)]
  end.
  { cbn [GraphAlgorithms.visited GraphAlgorithms.distances GraphAlgorithms.previous].
    split; [assumption|]. split; [assumption|].
    split; [apply elem_of_union_l, elem_of_singleton; reflexivity|].
    split; [|split; [|split]].
    - intros u Hu. apply elem_of_union in Hu as [Hu|Hu].
      + apply elem_of_singleton in Hu as ->. exists xm. split; [assumption | lia].
      + destruct (Hfin u Hu) as [xu Hxu]. exists xu. split; [assumption|].
        pose proof (Hord u m xu Hu HmV Hxu) as Hlt.
        rewrite (get_lookup _ _ _ Hm) in Hlt. simpl in Hlt.
        apply bool_decide_eq_false in Hlt. lia.
    - intros v Hv.
      assert (HvV : v ∉ V) by (intros H; apply Hv, elem_of_union_r, H).
      destruct (decide (v ∈ ids nodes)) as [Hvl|Hvl].
      + specialize (Hmin v Hvl HvV). rewrite (get_lookup _ _ _ Hm) in Hmin.
        exact Hmin.
      + unfold get. destruct (d !! v) as [a|] eqn:Ha; [|reflexivity].
        exfalso. apply Hvl. eapply reachable_listed; eassumption.
    - intros e He Hsrc Hne. apply Hedg; [assumption|].
      apply elem_of_union in Hsrc as [Hsrc|Hsrc]; [|assumption].
      apply elem_of_singleton in Hsrc. contradiction.
    - intros v x Hv. destruct (Hwalk v x Hv) as (k & Hk & Hle & Hlt).
      exists k. rewrite size_add_fresh by assumption.
      split; [assumption|]. split; [lia|].
      intros HvV. apply elem_of_union in HvV as [HvV|HvV]; [lia|].
      specialize (Hlt HvV). lia. }
  { induction nb' as [|[v w] nb' IH]; intros st2 Hnb Hrel2 u Hu; [reflexivity|].
    assert (Hrest : forall v' w', (v', w') ∈ nb' -> mkEdge m v' w' ∈ edges).
    { intros v' w' H. apply Hnb, elem_of_cons. auto. }
    destruct (relaxNeighbors_sound nodes edges s Hnonneg m xm [(v, w)] st2)
      as (Hrel1 & _ & _); [|exact Hrel2|].
    { intros v' w' H. apply Hnb. apply list_elem_of_singleton in H as ->.
      apply elem_of_cons. auto. }
    pose proof (relaxNeighbors_visited m [(v, w)] st2) as HV1.
    cbn [GraphAlgorithms.relaxNeighbors] in *.
    destruct (jsLt _ _) eqn:Hlt.
    - rewrite IH; [|assumption|exact Hrel1|rewrite HV1; exact Hu].
      cbn [GraphAlgorithms.distances].
      apply lookup_insert_ne. intros ->.
      destruct Hrel2 as (_ & Hm2 & _ & Hvis & _).
      destruct (Hvis u Hu) as (xu & Hxu & Hle).
      rewrite (get_lookup _ _ _ Hm2), (get_lookup _ _ _ Hxu) in Hlt. simpl in Hlt.
      apply bool_decide_eq_true in Hlt.
      assert (He : mkEdge m u w ∈ edges) by (apply Hnb, elem_of_cons; auto).
      pose proof (Hnonneg _ He) as Hw. simpl in Hw. lia.
    - apply IH; assumption. }
  destruct Hrel as (Hr' & Hm' & HmV' & Hvis & Hunvis & Hedges & Hwalks).
  rewrite relaxNeighbors_visited in *.
  cbn [GraphAlgorithms.visited] in *.
  split; [assumption|]. split.
  - constructor.
    + intros u Hu. destruct (Hvis u Hu) as (xu & Hxu & _). eauto.
    + intros u v xu Hu Hv Hxu. destruct (Hvis u Hu) as (xu' & Hxu' & Hle).
      rewrite Hxu in Hxu'. simplify_eq. eapply jsLt_Fin_le; [apply Hunvis|]; assumption.
    + intros e He Hsrc. destruct (decide (source e = m)) as [Heq|Hne].
      * unfold improves. rewrite Heq, (get_lookup _ _ _ Hm'). simpl.
        apply Hdone. apply elem_of_outgoing. rewrite <- Heq, edge_eta. exact He.
      * apply Hedges; assumption.
    + exact Hwalks.
  - intros u Hu. rewrite (Hkeep _ _ (fun v w => proj1 (elem_of_outgoing m edges v w)) Hrel0);
      [reflexivity | exact Hu].
Qed.

Lemma part001_visit_maps m x st1 :
  m ∈ ids nodes ->
  let st' := Part001.visit (Part001.buildAdjacencyList nodes edges) m x st1 in
  let stL :=
    GraphAlgorithms.relaxNeighbors m (outgoing m edges)
      (GraphAlgorithms.mkD (Part001.distances st1) (Part001.previous st1)
         ({[m]} ∪ Part001.visited st1) [] 0) in
  Part001.distances st' = GraphAlgorithms.distances stL /\
  Part001.previous st' = GraphAlgorithms.previous stL /\
  Part001.visited st' = GraphAlgorithms.visited stL.
Proof.
  intros Hm. cbn zeta. unfold Part001.visit. cbn zeta.
  rewrite part001_buildAdjacencyList_tolerant by assumption. cbn [default].
  cbn [Part001.distances Part001.previous Part001.visited].
  apply relaxNeighbors_variants; reflexivity.
Qed.

Lemma part001_whileLoop_sound fuel st1 :
  (length nodes - size (Part001.visited st1) <= fuel)%nat ->
  reachable nodes edges s (Part001.distances st1) (Part001.previous st1) ->
  dijkstraSound nodes edges s (Part001.distances st1) (Part001.visited st1) ->
  let st' :=
    Part001.whileLoop fuel nodes (Part001.buildAdjacencyList nodes edges) st1 in
  reachable nodes edges s (Part001.distances st') (Part001.previous st') /\
  dijkstraSound nodes edges s (Part001.distances st') (Part001.visited st') /\
  forall v x, Part001.distances st' !! v = Some (Fin x) -> v ∈ Part001.visited st'.
Proof.
  revert st1.
  assert (Hfull : forall st1,
             reachable nodes edges s (Part001.distances st1) (Part001.previous st1) ->
             dijkstraSound nodes edges s (Part001.distances st1) (Part001.visited st1) ->
             (length nodes <= size (Part001.visited st1))%nat ->
             forall v x, Part001.distances st1 !! v = Some (Fin x) ->
                         v ∈ Part001.visited st1).
  { intros st1 Hr Hsound Hsize v x Hv.
    pose proof (dijkstraSound_visited_listed _ _ _ _ _ _ Hr Hsound) as Hsub.
    pose proof (size_list_to_set_le (ids nodes)) as Hle.
    unfold ids in Hle at 2. rewrite length_fmap in Hle.
    assert (Heq : Part001.visited st1 = list_to_set (ids nodes)).
    { apply set_subseteq_size_eq; [assumption | lia]. }
    rewrite Heq. apply elem_of_list_to_set. eapply reachable_listed; eassumption. }
  induction fuel as [|fuel IH]; intros st1 Hfuel Hr Hsound; cbn zeta.
  - simpl. split; [assumption|]. split; [assumption|].
    apply Hfull; [assumption..|lia].
  - cbn [Part001.whileLoop].
    destruct (bool_decide_reflect (size (Part001.visited st1) < length nodes)%nat)
      as [Hlt|Hge];
      [|split; [assumption|]; split; [assumption | apply Hfull; [assumption..|lia]]].
    change (Part001.selectMin nodes (Part001.visited st1) (Part001.distances st1))
      with (GraphAlgorithms.selectMin nodes (Part001.visited st1)
              (Part001.distances st1)).
    destruct (GraphAlgorithms.selectMin _ _ _) as [[m|] x] eqn:Hsel.
    + pose proof (selectMin_Some _ _ _ _ _ Hsel) as (Hml & HmV & _ & (z & ->) & _).
      cbn [notInfinity].
      destruct (part001_visit_maps m (Fin z) st1 Hml) as (Hd & Hp & HV).
      destruct (select_relax_sound _ _ _ m (Fin z) [] 0%nat Hsel Hr Hsound)
        as (Hr' & Hsound' & _).
      cbn zeta in *. rewrite <- Hd, <- Hp in Hr'. rewrite <- Hd, <- HV in Hsound'.
      apply IH; [|assumption..].
      rewrite part001_visit_visited, size_add_fresh by assumption. lia.
    + split; [assumption|]. split; [assumption|]. intros v y Hv.
      destruct (decide (v ∈ Part001.visited st1)) as [|HvV]; [assumption|].
      exfalso.
      pose proof (reachable_listed _ _ _ _ _ _ _ Hr Hv) as Hvl.
      pose proof (selectMin_None _ _ _ _ Hsel v Hvl HvV) as Hn.
      rewrite (get_lookup _ _ _ Hv) in Hn. discriminate.
Qed.

Lemma part001_dijkstra_distances :
  let r := Part001.dijkstra nodes edges s in
  reachable nodes edges s (Result.distances r) (Result.previous r) /\
  stable edges (Result.distances r) /\
  forall v x, Result.distances r !! v = Some (Fin x) ->
    exists k, walk nodes edges s v x k /\ (k <= length nodes - 1)%nat.
Proof.
  unfold Part001.dijkstra. cbn zeta. cbn [Result.distances Result.previous].
  match goal with
  | |- context [Part001.whileLoop ?f nodes ?a ?st0] =>
      destruct (part001_whileLoop_sound f st0) as (Hr & Hsound & Hall);
      [simpl; lia | simpl; constructor | simpl; apply dijkstraSound_initial |];
      set (st := Part001.whileLoop f nodes a st0) in *
  end.
  split; [assumption|]. split.
  - intros e He.
    destruct (Part001.distances st !! source e) as [a|] eqn:Ha.
    + destruct a as [x| |].
      * destruct Hsound as [_ _ Hedges _]. apply Hedges; [assumption|].
        eapply Hall, Ha.
      * unfold improves. rewrite (get_lookup _ _ _ Ha). reflexivity.
      * exfalso. eapply (reachable_no_NaN _ _ _ _ _ Hr); eassumption.
    + unfold improves, get at 1. rewrite Ha. reflexivity.
  - intros v x Hv. pose proof (Hall v x Hv) as HvV.
    destruct Hsound as [Hfin Hord Hedges Hwalks].
    destruct (Hwalks v x Hv) as (k & Hk & _ & Hlt). specialize (Hlt HvV).
    exists k. split; [assumption|].
    assert (size (Part001.visited st) <= length nodes)%nat; [|lia].
    pose proof (size_list_to_set_le (ids nodes)) as Hle.
    unfold ids in Hle at 2. rewrite length_fmap in Hle.
    assert (Hsub : Part001.visited st ⊆ list_to_set (ids nodes)).
    { intros u Hu. destruct (Hfin u Hu) as [y Hy].
      apply elem_of_list_to_set. eapply reachable_listed; eassumption. }
    apply subseteq_size in Hsub. lia.
Qed.

(** A reachable, stable map whose finite entries are walks of fewer edges
    than there are nodes is the distance map of Bellman-Ford. *)
Lemma stable_is_bellmanFord D P :
  reachable nodes edges s D P ->
  stable edges D ->
  (forall v x, D !! v = Some (Fin x) ->
     exists k, walk nodes edges s v x k /\ (k <= length nodes - 1)%nat) ->
  D = Result.distances (GraphAlgorithms.bellmanFord nodes edges s).
Proof.
  intros Hreach Hstable Hwalks.
  destruct (bellmanFord_reachable nodes edges s) as [Hreach' _].
  destruct (bellmanFord_distances nodes edges s) as [Hstable'|Hbound].
  - eapply (stable_unique nodes edges s Hnonneg); eassumption.
  - set (d := Result.distances (GraphAlgorithms.bellmanFord nodes edges s)) in *.
    assert (Hfin : forall k x, D !! k = Some (Fin x) -> d !! k = Some (Fin x)).
    { intros k x Hk. destruct (Hwalks k x Hk) as (j & Hw & Hj).
      destruct (Hbound k x j Hw Hj) as (y & Hy & Hle).
      destruct (reachable_walk nodes edges s _ _ _ _ Hreach' Hy) as [j' Hw'].
      destruct (stable_below_walk nodes edges s Hnonneg _ _ _ _ _ Hreach Hstable Hw')
        as (x' & Hx' & Hle').
      rewrite Hk in Hx'. simplify_eq. rewrite Hy. do 2 f_equal. lia. }
    assert (Hfin' : forall k y, d !! k = Some (Fin y) -> exists x, D !! k = Some (Fin x)).
    { intros k y Hy.
      destruct (reachable_walk nodes edges s _ _ _ _ Hreach' Hy) as [j' Hw'].
      destruct (stable_below_walk nodes edges s Hnonneg _ _ _ _ _ Hreach Hstable Hw')
        as (x' & Hx' & _). eauto. }
    apply map_eq. intros k. destruct (D !! k) as [a|] eqn:Hk.
    + pose proof (reachable_listed _ _ _ _ _ _ _ Hreach Hk) as Hkl.
      destruct (reachable_lookup _ _ _ _ _ _ Hreach' Hkl) as (a' & Ha' & HnaN').
      fold d in Ha'. rewrite Ha'. destruct a as [x| |].
      * rewrite (Hfin k x Hk) in Ha'. congruence.
      * destruct a' as [y| |]; [|reflexivity|congruence].
        destruct (Hfin' k y Ha') as [x Hx]. congruence.
      * exfalso. eapply (reachable_no_NaN _ _ _ _ _ Hreach); eassumption.
    + destruct (d !! k) as [a'|] eqn:Hk'; [|reflexivity].
      pose proof (reachable_listed _ _ _ _ _ _ _ Hreach' Hk') as Hkl.
      destruct (reachable_lookup _ _ _ _ _ _ Hreach Hkl) as (a & Ha & _).
      congruence.
Qed.

End Part001Sound.

(** With plain keys and non-negative weights, and nothing else asked of
    the input, the Dijkstra of the second variant returns the distances that
    both variants of Bellman-Ford return, and Bellman-Ford reports no
    negative cycle. *)
Theorem second_variant_dijkstra_agrees nodes edges s :
  plainKeys nodes edges ->
  nonNegative edges ->
  Result.distances (Part001.dijkstra nodes edges s)
  = Result.distances (GraphAlgorithms.bellmanFord nodes edges s) /\
  Result.distances (Part001.dijkstra nodes edges s)
  = Result.distances (Part001.bellmanFord nodes edges s) /\
  Result.hasNegativeCycle (GraphAlgorithms.bellmanFord nodes edges s) = false /\
  Result.hasNegativeCycle (Part001.bellmanFord nodes edges s) = false.
Proof.
  intros _.
  intros Hnonneg.
  destruct (part001_dijkstra_distances nodes edges s Hnonneg)
    as (Hreach & Hstable & Hwalks).
  pose proof (stable_is_bellmanFord nodes edges s Hnonneg _ _ Hreach Hstable Hwalks)
    as Heq.
  destruct (bellmanFord_variants nodes edges s) as (Hd & _ & Hflag).
  cbv zeta in *.
  assert (Hno : Result.hasNegativeCycle (GraphAlgorithms.bellmanFord nodes edges s)
                = false).
  { rewrite Heq in Hstable. revert Hstable.
    unfold GraphAlgorithms.bellmanFord. cbn zeta.
    destruct (List.find _ edges) as [e|] eqn:Hf; simpl; [|reflexivity].
    intros Hst. apply find_some in Hf as [Hin Himp].
    rewrite Hst in Himp by (apply list_elem_of_In; exact Hin). discriminate. }
  split; [assumption|]. split; [congruence|]. split; [assumption | congruence].
Qed.

Lemma second_variant_dijkstra_agrees_witness :
  let nodes := [mkNode "A"; mkNode ""; mkNode "B"] in
  let edges := [mkEdge "A" "" 1; mkEdge "" "B" 1; mkEdge "Z" "A" 0] in
  Result.distances (Part001.dijkstra nodes edges "A")
  = Result.distances (GraphAlgorithms.bellmanFord nodes edges "A") /\
  Result.distances (Part001.dijkstra nodes edges "A")
  = Result.distances (Part001.bellmanFord nodes edges "A") /\
  Result.hasNegativeCycle (GraphAlgorithms.bellmanFord nodes edges "A") = false /\
  Result.hasNegativeCycle (Part001.bellmanFord nodes edges "A") = false.
Proof.
  apply (second_variant_dijkstra_agrees
           [mkNode "A"; mkNode ""; mkNode "B"]
           [mkEdge "A" "" 1; mkEdge "" "B" 1; mkEdge "Z" "A" 0] "A");
    try solve [plain_keys]; try solve [exact_sums].
  intros e He. cbn in He.
  repeat (apply elem_of_cons in He as [->|He]; [simpl; lia|]).
  inversion He.
Defined.

(** ** Stable distances are shortest-walk weights (any weights) *)

Section Shortest.
Context (nodes : list GraphNode) (edges : list GraphEdge) (s : string).

Lemma reachable_source_le d p :
  reachable nodes edges s d p -> s ∈ ids nodes ->
  exists x, d !! s = Some (Fin x) /\ x <= 0.
Proof.
  intros Hr Hs. induction Hr as [|d p e x0 Hr IH He Hsrc Hlt].
  - exists 0. rewrite initDistances_lookup, decide_True by assumption.
    rewrite bool_decide_eq_true_2 by reflexivity. split; [reflexivity | lia].
  - destruct IH as (x & Hx & Hle). destruct (decide (s = destination e)) as [Heq|Hne].
    + rewrite <- Heq in *. rewrite (get_lookup _ _ _ Hx) in Hlt. simpl in Hlt.
      apply bool_decide_eq_true in Hlt. exists (x0 + weight e).
      rewrite lookup_insert_eq. split; [reflexivity | lia].
    + exists x. rewrite lookup_insert_ne by congruence. auto.
Qed.

Lemma stable_below_walk_from d p x0 v y k :
  reachable nodes edges s d p -> stable edges d ->
  d !! s = Some (Fin x0) ->
  walk nodes edges s v y k ->
  exists z, d !! v = Some (Fin z) /\ z <= x0 + y.
Proof.
  intros Hr Hst Hs Hw. induction Hw as [_|e x k Hw IH He Hdest].
  - exists x0. split; [assumption | lia].
  - destruct IH as (z & Hz & Hle).
    destruct (reachable_lookup nodes edges s d p (destination e) Hr Hdest)
      as (a & Ha & HnaN).
    specialize (Hst e He). unfold improves in Hst.
    rewrite (get_lookup _ _ _ Hz), (get_lookup _ _ _ Ha) in Hst. simpl in Hst.
    destruct a as [z'| |]; simpl in Hst; try congruence.
    apply bool_decide_eq_false in Hst. exists z'. split; [exact Ha | lia].
Qed.

(** In a stable snapshot the source is still at distance 0, whatever the
    signs of the weights. *)
Lemma stable_source_zero d p :
  reachable nodes edges s d p -> stable edges d -> s ∈ ids nodes ->
  d !! s = Some (Fin 0).
Proof.
  intros Hr Hst Hs. destruct (reachable_source_le d p Hr Hs) as (x0 & Hx0 & Hle).
  destruct (reachable_walk nodes edges s _ _ _ _ Hr Hx0) as [k Hw].
  destruct (stable_below_walk_from d p x0 s x0 k Hr Hst Hx0 Hw) as (z & Hz & Hle').
  rewrite Hx0 in Hz. simplify_eq. rewrite Hx0. do 2 f_equal. lia.
Qed.

Lemma stable_shortestWalks d p :
  reachable nodes edges s d p -> stable edges d -> shortestWalks nodes edges s d.
Proof.
  intros Hr Hst v Hv.
  destruct (reachable_lookup nodes edges s d p v Hr Hv) as (a & Ha & HnaN).
  rewrite Ha. destruct a as [x| |]; [| |congruence].
  - split; [eapply reachable_walk; eassumption|].
    intros y k Hw.
    pose proof (stable_source_zero d p Hr Hst (walk_source _ _ _ _ _ _ Hw)) as Hs.
    destruct (stable_below_walk_from d p 0 v y k Hr Hst Hs Hw) as (z & Hz & Hle).
    rewrite Ha in Hz. simplify_eq. lia.
  - intros y k Hw.
    pose proof (stable_source_zero d p Hr Hst (walk_source _ _ _ _ _ _ Hw)) as Hs.
    destruct (stable_below_walk_from d p 0 v y k Hr Hst Hs Hw) as (z & Hz & _).
    rewrite Ha in Hz. discriminate.
Qed.

Lemma bellmanFord_flag_stable :
  Result.hasNegativeCycle (GraphAlgorithms.bellmanFord nodes edges s) = false ->
  stable edges (Result.distances (GraphAlgorithms.bellmanFord nodes edges s)).
Proof.
  unfold GraphAlgorithms.bellmanFord. cbn zeta.
  destruct (List.find _ edges) as [e|] eqn:Hf; simpl; [discriminate|].
  intros _ e He. destruct (improves _ e) eqn:Hi; [|reflexivity].
  eapply find_none in Hf; [|apply list_elem_of_In; exact He]. congruence.
Qed.

End Shortest.

(** Bellman-Ford is correct whenever it reports no negative cycle, for
    weights of any sign, on inputs with plain keys and exact sums: in both
    variants the final distance of every listed node is the weight of a
    lightest walk from the source, and is infinite exactly when no walk
    from the source arrives. *)
Theorem bellmanFord_shortest_walks nodes edges s :
  plainKeys nodes edges ->
  exactSums nodes edges ->
  Result.hasNegativeCycle (GraphAlgorithms.bellmanFord nodes edges s) = false ->
  shortestWalks nodes edges s
    (Result.distances (GraphAlgorithms.bellmanFord nodes edges s)) /\
  shortestWalks nodes edges s
    (Result.distances (Part001.bellmanFord nodes edges s)).
Proof.
  intros _ _.
  intros Hflag.
  destruct (bellmanFord_reachable nodes edges s) as [Hr _].
  pose proof (bellmanFord_flag_stable nodes edges s Hflag) as Hst.
  destruct (bellmanFord_variants nodes edges s) as (Hd & _).
  cbv zeta in Hd. rewrite Hd.
  split; eapply stable_shortestWalks; eassumption.
Qed.

Lemma bellmanFord_shortest_walks_witness :
  let nodes := [mkNode "A"; mkNode "B"; mkNode "C"] in
  let edges := [mkEdge "A" "B" 4; mkEdge "A" "C" 5; mkEdge "C" "B" (-3)] in
  shortestWalks nodes edges "A"
    (Result.distances (GraphAlgorithms.bellmanFord nodes edges "A")) /\
  shortestWalks nodes edges "A"
    (Result.distances (Part001.bellmanFord nodes edges "A")).
Proof.
  apply (bellmanFord_shortest_walks
           [mkNode "A"; mkNode "B"; mkNode "C"]
           [mkEdge "A" "B" 4; mkEdge "A" "C" 5; mkEdge "C" "B" (-3)] "A");
    try solve [plain_keys]; try solve [exact_sums].
  vm_compute. reflexivity.
Defined.

(** Dijkstra is correct under non-negative weights, on inputs with plain
    keys and exact sums: the second variant always, [client/lib] whenever
    it returns and no listed node has the empty id; the final distances are
    shortest-walk weights. *)
Theorem dijkstra_shortest_walks nodes edges s :
  plainKeys nodes edges ->
  exactSums nodes edges ->
  nonNegative edges ->
  shortestWalks nodes edges s (Result.distances (Part001.dijkstra nodes edges s)) /\
  match GraphAlgorithms.dijkstra nodes edges s with
  | Some r => EmptyString ∉ ids nodes -> shortestWalks nodes edges s (Result.distances r)
  | None => ~ sourcesKnown nodes edges
  end.
Proof.
  intros _ _.
  intros Hnonneg. split.
  - destruct (part001_dijkstra_distances nodes edges s Hnonneg) as (Hr & Hst & _).
    eapply stable_shortestWalks; eassumption.
  - destruct (GraphAlgorithms.dijkstra nodes edges s) as [r|] eqn:E;
      [|apply (dijkstra_None nodes edges s); exact E].
    intros Hempty.
    assert (Hsrc : sourcesKnown nodes edges).
    { destruct (decide (sourcesKnown nodes edges)) as [|Hn]; [assumption|].
      apply (dijkstra_None nodes edges s) in Hn. congruence. }
    destruct (dijkstra_distances nodes edges s Hsrc Hempty Hnonneg)
      as (r' & Hr' & Hreach & Hst & _).
    rewrite E in Hr'. injection Hr' as <-.
    eapply stable_shortestWalks; eassumption.
Qed.

Lemma dijkstra_shortest_walks_witness :
  let nodes := [mkNode "A"; mkNode "B"; mkNode "C"] in
  let edges := [mkEdge "A" "B" 4; mkEdge "A" "C" 1; mkEdge "C" "B" 1] in
  shortestWalks nodes edges "A" (Result.distances (Part001.dijkstra nodes edges "A")) /\
  match GraphAlgorithms.dijkstra nodes edges "A" with
  | Some r => EmptyString ∉ ids nodes -> shortestWalks nodes edges "A" (Result.distances r)
  | None => ~ sourcesKnown nodes edges
  end.
Proof.
  apply (dijkstra_shortest_walks
           [mkNode "A"; mkNode "B"; mkNode "C"]
           [mkEdge "A" "B" 4; mkEdge "A" "C" 1; mkEdge "C" "B" 1] "A");
    try solve [plain_keys]; try solve [exact_sums].
  intros e He. cbn in He.
  repeat (apply elem_of_cons in He as [->|He]; [simpl; lia|]).
  inversion He.
Defined.

(** ** Predecessors and the shortest-path tree *)

Lemma reachable_predecessorEdge nodes edges s d p :
  reachable nodes edges s d p -> predecessorEdge edges false d p.
Proof.
  induction 1 as [|d p e0 x0 Hr IH He0 Hsrc Hlt]; intros v u Hp.
  - rewrite initPrevious_lookup in Hp. destruct (decide _); discriminate.
  - unfold get in Hsrc. destruct (d !! source e0) as [a0|] eqn:Hu0; simpl in Hsrc;
      [subst a0 | discriminate].
    destruct (decide (v = destination e0)) as [->|Hne].
    + rewrite lookup_insert_eq in Hp. simplify_eq.
      exists e0. rewrite lookup_insert_eq.
      destruct (decide (source e0 = destination e0)) as [Heq|Hneq].
      * rewrite <- Heq in *. rewrite lookup_insert_eq.
        rewrite (get_lookup _ _ _ Hu0) in Hlt. simpl in Hlt.
        apply bool_decide_eq_true in Hlt.
        eexists _, _. repeat (split; [reflexivity || eassumption|]). lia.
      * rewrite lookup_insert_ne by congruence.
        eexists _, _. repeat (split; [reflexivity || eassumption|]). lia.
    + rewrite lookup_insert_ne in Hp by congruence.
      destruct (IH v u Hp) as (e & xu & xv & He & Hs & Hd & Hxu & Hxv & Hle).
      exists e. rewrite (lookup_insert_ne _ (destination e0) v) by congruence.
      destruct (decide (u = destination e0)) as [->|Hneq].
      * rewrite lookup_insert_eq. rewrite (get_lookup _ _ _ Hxu) in Hlt.
        simpl in Hlt. apply bool_decide_eq_true in Hlt.
        eexists _, _. repeat (split; [reflexivity || eassumption|]). lia.
      * rewrite lookup_insert_ne by congruence.
        eexists _, _. repeat (split; [reflexivity || eassumption|]). assumption.
Qed.

Lemma stable_predecessorEdge nodes edges s d p :
  reachable nodes edges s d p -> stable edges d -> predecessorEdge edges true d p.
Proof.
  intros Hr Hst v u Hp.
  destruct (reachable_predecessorEdge _ _ _ _ _ Hr v u Hp)
    as (e & xu & xv & He & Hs & Hd & Hxu & Hxv & Hle).
  exists e, xu, xv. repeat (split; [assumption|]).
  specialize (Hst e He). unfold improves in Hst. rewrite Hs, Hd in Hst.
  rewrite (get_lookup _ _ _ Hxu), (get_lookup _ _ _ Hxv) in Hst. simpl in Hst.
  apply bool_decide_eq_false in Hst. lia.
Qed.

Lemma findEdge_is_Some edges p n e :
  e ∈ edges -> source e = p -> destination e = n -> is_Some (findEdge edges p n).
Proof.
  intros He Hs Hd. unfold findEdge.
  destruct (List.find _ edges) as [e'|] eqn:Hf; [eauto|].
  eapply find_none in Hf; [|apply list_elem_of_In; exact He]. simpl in Hf.
  rewrite !bool_decide_eq_true_2 in Hf by assumption. discriminate.
Qed.

Lemma part001_buildTree_fold nodes edges (prev : gmap string (option string)) acc :
  foldl (fun tree n =>
           match prev !! id n with
           | Some (Some p) =>
               match findEdge edges p (id n) with
               | Some e => tree ++ [e]
               | None => tree
               end
           | _ => tree
           end) acc nodes
  = acc ++ omap (fun n => match prev !! id n with
                          | Some (Some p) => findEdge edges p (id n)
                          | _ => None
                          end) nodes.
Proof.
  revert acc. induction nodes as [|n nodes IH]; intros acc; cbn [foldl omap list_omap].
  - rewrite app_nil_r. reflexivity.
  - rewrite IH. destruct (prev !! id n) as [[p|]|]; try reflexivity.
    destruct (findEdge edges p (id n)); [|reflexivity].
    rewrite <- app_assoc. reflexivity.
Qed.

Lemma part001_buildTree_elem nodes edges (prev : gmap string (option string)) e :
  e ∈ Part001.buildTree nodes edges prev <->
  exists n p, n ∈ ids nodes /\ prev !! n = Some (Some p) /\ findEdge edges p n = Some e.
Proof.
  unfold Part001.buildTree. rewrite part001_buildTree_fold, app_nil_l.
  rewrite list_elem_of_omap. split.
  - intros (n & Hn & Hf). destruct (prev !! id n) as [[p|]|] eqn:Hp; try discriminate.
    exists (id n), p. split; [apply elem_of_ids; eauto | auto].
  - intros (k & p & Hk & Hp & Hf). apply elem_of_ids in Hk as (n & Hn & <-).
    exists n. rewrite Hp. auto.
Qed.

Lemma part001_buildTree_length nodes edges (prev : gmap string (option string)) :
  (length (Part001.buildTree nodes edges prev) <= length nodes)%nat.
Proof.
  unfold Part001.buildTree. rewrite part001_buildTree_fold, app_nil_l.
  induction nodes as [|n nodes IH]; cbn [omap list_omap length]; [lia|].
  destruct (match prev !! id n with
            | Some (Some p) => findEdge edges p (id n)
            | _ => None
            end); cbn [length]; lia.
Qed.

Section Tree.
Context (nodes : list GraphNode) (edges : list GraphEdge) (s : string).

Lemma part001_tree_of_reachable d p hasCycle steps :
  reachable nodes edges s d p ->
  let r := Result.mk d p steps hasCycle (Part001.buildTree nodes edges p) in
  treeSound nodes edges r /\ treeComplete false nodes r.
Proof.
  intros Hr. cbn zeta. split; [split|]; cbn [Result.shortestPathTree Result.previous].
  - intros e He. apply part001_buildTree_elem in He as (n & q & Hn & Hq & Hf).
    apply findEdge_Some in Hf as (He & <- & <-). auto.
  - apply part001_buildTree_length.
  - intros n u Hn Hu _.
    destruct (reachable_predecessorEdge _ _ _ _ _ Hr n u Hu)
      as (e & _ & _ & He & Hs & Hd & _).
    destruct (findEdge_is_Some edges u n e He Hs Hd) as [e' He'].
    exists e'. split; [apply part001_buildTree_elem; eauto|].
    apply findEdge_Some in He' as (_ & ? & ?). auto.
Qed.

Lemma tree_of_reachable d p hasCycle steps :
  reachable nodes edges s d p ->
  let r := Result.mk d p steps hasCycle (GraphAlgorithms.buildTree nodes edges p) in
  treeSound nodes edges r /\ treeComplete true nodes r.
Proof.
  intros Hr. cbn zeta.
  destruct (part001_tree_of_reachable d p hasCycle steps Hr) as [[Hs Hl] Hc].
  cbn [Result.shortestPathTree Result.previous] in *.
  split; [split|]; cbn [Result.shortestPathTree Result.previous];
    rewrite buildTree_variants.
  - intros e He. apply list_elem_of_filter in He as [_ He]. auto.
  - etransitivity; [apply length_filter | exact Hl].
  - intros n u Hn Hu Hne. destruct (Hc n u Hn Hu I) as (e & He & Hse & Hde).
    exists e. split; [|auto]. apply list_elem_of_filter. split; [|assumption].
    rewrite Hse. unfold truthy. rewrite bool_decide_eq_false_2 by assumption.
    reflexivity.
Qed.

End Tree.

Lemma part001_buildTree_inNodeOrder nodes edges (prev : gmap string (option string)) :
  (destination <$> Part001.buildTree nodes edges prev) `sublist_of` ids nodes.
Proof.
  unfold Part001.buildTree. rewrite part001_buildTree_fold, app_nil_l.
  induction nodes as [|n nodes IH]; cbn [omap list_omap ids fmap list_fmap];
    [constructor|].
  destruct (prev !! id n) as [[p|]|]; try (apply sublist_cons; exact IH).
  destruct (findEdge edges p (id n)) as [e|] eqn:Hf; [|apply sublist_cons; exact IH].
  apply findEdge_Some in Hf as (_ & _ & <-).
  cbn [fmap list_fmap]. apply sublist_skip. exact IH.
Qed.

Lemma buildTree_inNodeOrder nodes edges (prev : gmap string (option string)) :
  (destination <$> GraphAlgorithms.buildTree nodes edges prev) `sublist_of` ids nodes.
Proof.
  rewrite buildTree_variants.
  etransitivity; [|apply part001_buildTree_inNodeOrder].
  apply fmap_sublist, sublist_filter.
Qed.

(** What the reconstruction returns on inputs with plain keys, for both
    algorithms of both variants: only input edges from a node's final
    predecessor to that node; at most one edge for each entry of the node
    list, in the order of the node list; and one for every listed node that
    has a predecessor (in [client/lib]: a predecessor whose id is not the
    empty string, and for Bellman-Ford only when no negative cycle is
    reported, the tree being empty otherwise). *)
Theorem shortestPathTree_contents nodes edges s :
  plainKeys nodes edges ->
  (treeSound nodes edges (Part001.dijkstra nodes edges s) /\
   treeInNodeOrder nodes (Part001.dijkstra nodes edges s) /\
   treeComplete false nodes (Part001.dijkstra nodes edges s)) /\
  (treeSound nodes edges (Part001.bellmanFord nodes edges s) /\
   treeInNodeOrder nodes (Part001.bellmanFord nodes edges s) /\
   treeComplete false nodes (Part001.bellmanFord nodes edges s)) /\
  (treeSound nodes edges (GraphAlgorithms.bellmanFord nodes edges s) /\
   treeInNodeOrder nodes (GraphAlgorithms.bellmanFord nodes edges s) /\
   if Result.hasNegativeCycle (GraphAlgorithms.bellmanFord nodes edges s)
   then Result.shortestPathTree (GraphAlgorithms.bellmanFord nodes edges s) = []
   else treeComplete true nodes (GraphAlgorithms.bellmanFord nodes edges s)) /\
  match GraphAlgorithms.dijkstra nodes edges s with
  | Some r =>
      treeSound nodes edges r /\ treeInNodeOrder nodes r /\ treeComplete true nodes r
  | None => ~ sourcesKnown nodes edges
  end.
Proof.
  intros _. split; [|split; [|split]].
  - destruct (part001_dijkstra_reachable nodes edges s) as [Hr _].
    revert Hr. unfold Part001.dijkstra. cbn zeta.
    cbn [Result.distances Result.previous]. intros Hr.
    destruct (part001_tree_of_reachable nodes edges s _ _ false
                (Part001.steps
                   (Part001.whileLoop (length nodes) nodes
                      (Part001.buildAdjacencyList nodes edges)
                      (Part001.mkD (initDistances nodes s) (initPrevious nodes) ∅
                         [Part001.initialStep nodes s] 1)) ++ []) Hr) as [Hs Hc].
    split; [exact Hs|]. split; [apply part001_buildTree_inNodeOrder | exact Hc].
  - destruct (part001_bellmanFord_reachable nodes edges s) as [Hr _].
    revert Hr. unfold Part001.bellmanFord. cbn zeta.
    destruct (Part001.cycleCheck _ _) as [st b].
    cbn [Result.distances Result.previous]. intros Hr.
    destruct (part001_tree_of_reachable nodes edges s _ _ b [] Hr) as [Hs Hc].
    split; [exact Hs|]. split; [apply part001_buildTree_inNodeOrder | exact Hc].
  - destruct (bellmanFord_reachable nodes edges s) as [Hr _].
    revert Hr. unfold GraphAlgorithms.bellmanFord. cbn zeta.
    destruct (List.find _ edges); cbn [Result.distances Result.previous
                                         Result.hasNegativeCycle].
    + intros _. split; [|split; [|reflexivity]].
      * split; simpl; [|lia].
        intros e He. apply elem_of_nil in He. contradiction.
      * unfold treeInNodeOrder. simpl. apply sublist_nil_l.
    + intros Hr.
      destruct (tree_of_reachable nodes edges s _ _ false [] Hr) as [Hs Hc].
      split; [exact Hs|]. split; [apply buildTree_inNodeOrder | exact Hc].
  - destruct (GraphAlgorithms.dijkstra nodes edges s) as [r|] eqn:E;
      [|apply (dijkstra_None nodes edges s); exact E].
    destruct (dijkstra_reachable nodes edges s r E) as [Hr _].
    revert E Hr. unfold GraphAlgorithms.dijkstra.
    destruct (GraphAlgorithms.buildAdjacencyList nodes edges); [|discriminate].
    cbn zeta. intros [= <-]. cbn [Result.distances Result.previous]. intros Hr.
    destruct (tree_of_reachable nodes edges s _ _ false [] Hr) as [Hs Hc].
    split; [exact Hs|]. split; [apply buildTree_inNodeOrder | exact Hc].
Qed.

Lemma shortestPathTree_contents_witness :
  let nodes := [mkNode "A"; mkNode "B"; mkNode "C"] in
  let edges := [mkEdge "A" "B" 4; mkEdge "A" "C" 1; mkEdge "C" "B" 1] in
  treeSound nodes edges (Part001.dijkstra nodes edges "A") /\
  treeInNodeOrder nodes (Part001.dijkstra nodes edges "A") /\
  treeComplete false nodes (Part001.dijkstra nodes edges "A").
Proof.
  apply (shortestPathTree_contents
           [mkNode "A"; mkNode "B"; mkNode "C"]
           [mkEdge "A" "B" 4; mkEdge "A" "C" 1; mkEdge "C" "B" 1] "A").
  plain_keys.
Defined.

(** On inputs with plain keys and exact sums, when Bellman-Ford reports no
    negative cycle, every recorded predecessor is tight in both variants: a
    node with predecessor [u] is exactly the weight of some input edge from
    [u] farther from the source than [u]. *)
Theorem bellmanFord_predecessors_tight nodes edges s :
  plainKeys nodes edges ->
  exactSums nodes edges ->
  Result.hasNegativeCycle (GraphAlgorithms.bellmanFord nodes edges s) = false ->
  predecessorEdge edges true
    (Result.distances (GraphAlgorithms.bellmanFord nodes edges s))
    (Result.previous (GraphAlgorithms.bellmanFord nodes edges s)) /\
  predecessorEdge edges true
    (Result.distances (Part001.bellmanFord nodes edges s))
    (Result.previous (Part001.bellmanFord nodes edges s)).
Proof.
  intros _ _.
  intros Hflag.
  destruct (bellmanFord_reachable nodes edges s) as [Hr _].
  pose proof (bellmanFord_flag_stable nodes edges s Hflag) as Hst.
  destruct (bellmanFord_variants nodes edges s) as (Hd & Hp & _).
  cbv zeta in Hd, Hp. rewrite Hd, Hp.
  split; eapply stable_predecessorEdge; eassumption.
Qed.

Lemma bellmanFord_predecessors_tight_witness :
  let nodes := [mkNode "A"; mkNode "B"; mkNode "C"] in
  let edges := [mkEdge "A" "B" 4; mkEdge "A" "C" 5; mkEdge "C" "B" (-3)] in
  predecessorEdge edges true
    (Result.distances (GraphAlgorithms.bellmanFord nodes edges "A"))
    (Result.previous (GraphAlgorithms.bellmanFord nodes edges "A")) /\
  predecessorEdge edges true
    (Result.distances (Part001.bellmanFord nodes edges "A"))
    (Result.previous (Part001.bellmanFord nodes edges "A")).
Proof.
  apply (bellmanFord_predecessors_tight
           [mkNode "A"; mkNode "B"; mkNode "C"]
           [mkEdge "A" "B" 4; mkEdge "A" "C" 5; mkEdge "C" "B" (-3)] "A");
    try solve [plain_keys]; try solve [exact_sums].
  vm_compute. reflexivity.
Defined.

(** The same for Dijkstra under non-negative weights, on inputs with plain
    keys and exact sums. *)
Theorem dijkstra_predecessors_tight nodes edges s :
  plainKeys nodes edges ->
  exactSums nodes edges ->
  nonNegative edges ->
  predecessorEdge edges true
    (Result.distances (Part001.dijkstra nodes edges s))
    (Result.previous (Part001.dijkstra nodes edges s)) /\
  match GraphAlgorithms.dijkstra nodes edges s with
  | Some r =>
      EmptyString ∉ ids nodes ->
      predecessorEdge edges true (Result.distances r) (Result.previous r)
  | None => ~ sourcesKnown nodes edges
  end.
Proof.
  intros _ _.
  intros Hnonneg. split.
  - destruct (part001_dijkstra_distances nodes edges s Hnonneg) as (Hr & Hst & _).
    eapply stable_predecessorEdge; eassumption.
  - destruct (GraphAlgorithms.dijkstra nodes edges s) as [r|] eqn:E;
      [|apply (dijkstra_None nodes edges s); exact E].
    intros Hempty.
    assert (Hsrc : sourcesKnown nodes edges).
    { destruct (decide (sourcesKnown nodes edges)) as [|Hn]; [assumption|].
      apply (dijkstra_None nodes edges s) in Hn. congruence. }
    destruct (dijkstra_distances nodes edges s Hsrc Hempty Hnonneg)
      as (r' & Hr' & Hreach & Hst & _).
    rewrite E in Hr'. injection Hr' as <-.
    eapply stable_predecessorEdge; eassumption.
Qed.

Lemma dijkstra_predecessors_tight_witness :
  let nodes := [mkNode "A"; mkNode "B"; mkNode "C"] in
  let edges := [mkEdge "A" "B" 4; mkEdge "A" "C" 1; mkEdge "C" "B" 1] in
  predecessorEdge edges true
    (Result.distances (Part001.dijkstra nodes edges "A"))
    (Result.previous (Part001.dijkstra nodes edges "A")) /\
  match GraphAlgorithms.dijkstra nodes edges "A" with
  | Some r =>
      EmptyString ∉ ids nodes ->
      predecessorEdge edges true (Result.distances r) (Result.previous r)
  | None => ~ sourcesKnown nodes edges
  end.
Proof.
  apply (dijkstra_predecessors_tight
           [mkNode "A"; mkNode "B"; mkNode "C"]
           [mkEdge "A" "B" 4; mkEdge "A" "C" 1; mkEdge "C" "B" 1] "A");
    try solve [plain_keys]; try solve [exact_sums].
  intros e He. cbn in He.
  repeat (apply elem_of_cons in He as [->|He]; [simpl; lia|]).
  inversion He.
Defined.

(** ** Anatomy of the traces *)

Lemma relaxationTrace_snoc edges steps d p x :
  relaxationTrace edges steps ->
  lastIsCurrent steps d p ->
  stepAfter edges d p x ->
  relaxationTrace edges (steps ++ [x]) /\
  lastIsCurrent (steps ++ [x]) (Step.distances x) (Step.previous x).
Proof.
  intros Ht (a' & Hlast & Hd & Hp) Hx. split; [|apply lastIsCurrent_snoc].
  intros i a u Ha Hu.
  apply lookup_app_Some in Hu as [Hu|[Hlen Hu]].
  - apply lookup_app_Some in Ha as [Ha|[Hlen _]].
    + eapply Ht; eauto.
    + apply lookup_lt_Some in Hu. lia.
  - apply list_lookup_singleton_Some in Hu as [Hi <-].
    assert (i = pred (length steps)) as -> by lia.
    rewrite lookup_app_l in Ha by lia.
    rewrite last_lookup in Hlast. rewrite Hlast in Ha. simplify_eq.
    exact Hx.
Qed.

Lemma relaxationTrace_singleton edges x : relaxationTrace edges [x].
Proof. intros i a b Ha Hb. apply lookup_lt_Some in Hb. simpl in Hb. lia. Qed.

Lemma stepAfter_same edges (x : AlgorithmStep) :
  Step.type x <> relax ->
  stepAfter edges (Step.distances x) (Step.previous x) x.
Proof. intros Hx. unfold stepAfter. rewrite decide_False by assumption. auto. Qed.

Section Traces.
Context (nodes : list GraphNode) (edges : list GraphEdge) (s : string).

Local Abbreviation traced steps d p :=
  (relaxationTrace edges steps /\ lastIsCurrent steps d p).

(** *** [client/lib] *)

Lemma relaxNeighbors_traced m nbrs st :
  (forall v w, (v, w) ∈ nbrs -> mkEdge m v w ∈ edges) ->
  traced (GraphAlgorithms.steps st) (GraphAlgorithms.distances st)
         (GraphAlgorithms.previous st) ->
  let st' := GraphAlgorithms.relaxNeighbors m nbrs st in
  traced (GraphAlgorithms.steps st') (GraphAlgorithms.distances st')
         (GraphAlgorithms.previous st').
Proof.
  revert st. induction nbrs as [|[v w] nbrs IH]; intros st Hin [Ht Hl]; cbn zeta;
    simpl; [auto|].
  assert (Hrest : forall v' w', (v', w') ∈ nbrs -> mkEdge m v' w' ∈ edges).
  { intros v' w' H. apply Hin. apply elem_of_cons. auto. }
  destruct (jsLt _ _) eqn:Hlt; [|apply IH; auto].
  destruct (jsLt_true_l _ _ Hlt) as [y Hy].
  apply jsAdd_Fin_inv in Hy as Hx. destruct Hx as (x & Hx & ->).
  rewrite Hx in *. cbn [jsAdd] in *.
  apply IH; [assumption|]. cbn [GraphAlgorithms.steps GraphAlgorithms.distances
                                 GraphAlgorithms.previous].
  match goal with
  | |- relaxationTrace _ (_ ++ [?step]) /\ _ =>
      apply (relaxationTrace_snoc edges _ _ _ step Ht Hl)
  end.
  unfold stepAfter. rewrite decide_True by reflexivity.
  exists (mkEdge m v w), x. cbn.
  split; [apply Hin, elem_of_cons; auto|]. auto 10.
Qed.

Lemma visit_traced adjList m x st :
  GraphAlgorithms.buildAdjacencyList nodes edges = Some adjList ->
  traced (GraphAlgorithms.steps st) (GraphAlgorithms.distances st)
         (GraphAlgorithms.previous st) ->
  let st' := GraphAlgorithms.visit adjList m x st in
  traced (GraphAlgorithms.steps st') (GraphAlgorithms.distances st')
         (GraphAlgorithms.previous st').
Proof.
  intros Hadj [Ht Hl]. unfold GraphAlgorithms.visit. cbn zeta.
  cbn [GraphAlgorithms.steps GraphAlgorithms.distances GraphAlgorithms.previous].
  apply relaxNeighbors_traced.
  - intros v w. apply (buildAdjacencyList_total_lookup nodes). assumption.
  - cbn [GraphAlgorithms.steps GraphAlgorithms.distances GraphAlgorithms.previous].
    match goal with
    | |- relaxationTrace _ (_ ++ [?step]) /\ _ =>
        apply (relaxationTrace_snoc edges _ _ _ step Ht Hl)
    end.
    unfold stepAfter. rewrite decide_False by discriminate. auto.
Qed.

Lemma whileLoop_traced fuel adjList st :
  GraphAlgorithms.buildAdjacencyList nodes edges = Some adjList ->
  traced (GraphAlgorithms.steps st) (GraphAlgorithms.distances st)
         (GraphAlgorithms.previous st) ->
  let st' := GraphAlgorithms.whileLoop fuel nodes adjList st in
  traced (GraphAlgorithms.steps st') (GraphAlgorithms.distances st')
         (GraphAlgorithms.previous st').
Proof.
  intros Hadj. revert st. induction fuel as [|fuel IH]; intros st Hinv; cbn zeta;
    simpl; [assumption|].
  destruct (bool_decide _); [|assumption].
  destruct (GraphAlgorithms.selectMin _ _ _) as [[m|] x]; [|assumption].
  destruct (truthy m); [|assumption].
  apply IH. apply visit_traced; assumption.
Qed.

Lemma relaxEdges_traced i es st b :
  (forall e, e ∈ es -> e ∈ edges) ->
  traced (GraphAlgorithms.bsteps st) (GraphAlgorithms.bdistances st)
         (GraphAlgorithms.bprevious st) ->
  let st' := (GraphAlgorithms.relaxEdges i es st b).1 in
  traced (GraphAlgorithms.bsteps st') (GraphAlgorithms.bdistances st')
         (GraphAlgorithms.bprevious st').
Proof.
  revert st b. induction es as [|e es IH]; intros st b Hin [Ht Hl]; cbn zeta;
    simpl; [auto|].
  assert (Hrest : forall e', e' ∈ es -> e' ∈ edges).
  { intros e' H. apply Hin. apply elem_of_cons. auto. }
  destruct (notInfinity _ && improves _ _) eqn:Hc; [|apply IH; auto].
  apply andb_true_iff in Hc as [_ Hlt]. unfold improves in Hlt.
  destruct (jsLt_true_l _ _ Hlt) as [y Hy].
  apply jsAdd_Fin_inv in Hy as Hx. destruct Hx as (x & Hx & ->).
  rewrite Hx in *. cbn [jsAdd] in *.
  apply IH; [assumption|]. cbn [GraphAlgorithms.bsteps GraphAlgorithms.bdistances
                                 GraphAlgorithms.bprevious].
  match goal with
  | |- relaxationTrace _ (_ ++ [?step]) /\ _ =>
      apply (relaxationTrace_snoc edges _ _ _ step Ht Hl)
  end.
  unfold stepAfter. rewrite decide_True by reflexivity.
  exists e, x. cbn. split; [apply Hin, elem_of_cons; auto|]. auto 10.
Qed.

Lemma passes_traced count i st :
  traced (GraphAlgorithms.bsteps st) (GraphAlgorithms.bdistances st)
         (GraphAlgorithms.bprevious st) ->
  let st' := GraphAlgorithms.passes count i edges st in
  traced (GraphAlgorithms.bsteps st') (GraphAlgorithms.bdistances st')
         (GraphAlgorithms.bprevious st').
Proof.
  revert i st. induction count as [|count IH]; intros i st Hinv; cbn zeta; simpl;
    [assumption|].
  pose proof (relaxEdges_traced i edges st false (fun e H => H) Hinv) as [Ht Hl].
  destruct (GraphAlgorithms.relaxEdges i edges st false) as [st' relaxed].
  cbn [fst] in Ht, Hl. destruct relaxed; [apply IH; auto|].
  cbn [GraphAlgorithms.bsteps GraphAlgorithms.bdistances GraphAlgorithms.bprevious].
  match goal with
  | |- relaxationTrace _ (_ ++ [?step]) /\ _ =>
      apply (relaxationTrace_snoc edges _ _ _ step Ht Hl)
  end.
  unfold stepAfter. rewrite decide_False by discriminate. auto.
Qed.

(** *** The second variant *)

Lemma part001_relaxNeighbors_traced m nbrs st :
  (forall v w, (v, w) ∈ nbrs -> mkEdge m v w ∈ edges) ->
  traced (Part001.steps st) (Part001.distances st) (Part001.previous st) ->
  let st' := Part001.relaxNeighbors m nbrs st in
  traced (Part001.steps st') (Part001.distances st') (Part001.previous st').
Proof.
  revert st. induction nbrs as [|[v w] nbrs IH]; intros st Hin [Ht Hl]; cbn zeta;
    simpl; [auto|].
  assert (Hrest : forall v' w', (v', w') ∈ nbrs -> mkEdge m v' w' ∈ edges).
  { intros v' w' H. apply Hin. apply elem_of_cons. auto. }
  destruct (jsLt _ _) eqn:Hlt; [|apply IH; auto].
  destruct (jsLt_true_l _ _ Hlt) as [y Hy].
  apply jsAdd_Fin_inv in Hy as Hx. destruct Hx as (x & Hx & ->).
  rewrite Hx in *. cbn [jsAdd] in *.
  apply IH; [assumption|]. cbn [Part001.steps Part001.distances Part001.previous].
  match goal with
  | |- relaxationTrace _ (_ ++ [?step]) /\ _ =>
      apply (relaxationTrace_snoc edges _ _ _ step Ht Hl)
  end.
  unfold stepAfter. rewrite decide_True by reflexivity.
  exists (mkEdge m v w), x. cbn.
  split; [apply Hin, elem_of_cons; auto|]. auto 10.
Qed.

Lemma part001_whileLoop_traced fuel st :
  traced (Part001.steps st) (Part001.distances st) (Part001.previous st) ->
  let st' :=
    Part001.whileLoop fuel nodes (Part001.buildAdjacencyList nodes edges) st in
  traced (Part001.steps st') (Part001.distances st') (Part001.previous st').
Proof.
  revert st. induction fuel as [|fuel IH]; intros st Hinv; cbn zeta; simpl;
    [assumption|].
  destruct (bool_decide _); [|assumption].
  destruct (Part001.selectMin _ _ _) as [[m|] x]; [|assumption].
  destruct (notInfinity x); [|assumption].
  apply IH. destruct Hinv as [Ht Hl]. unfold Part001.visit. cbn zeta.
  cbn [Part001.steps Part001.distances Part001.previous].
  apply part001_relaxNeighbors_traced.
  - intros v w. apply part001_adjacent_edges.
  - cbn [Part001.steps Part001.distances Part001.previous].
    match goal with
    | |- relaxationTrace _ (_ ++ [?step]) /\ _ =>
        apply (relaxationTrace_snoc edges _ _ _ step Ht Hl)
    end.
    unfold stepAfter. rewrite decide_False by discriminate. auto.
Qed.

Lemma part001_relaxEdges_traced i es st b :
  (forall e, e ∈ es -> e ∈ edges) ->
  traced (Part001.bsteps st) (Part001.bdistances st) (Part001.bprevious st) ->
  let st' := (Part001.relaxEdges i es st b).1 in
  traced (Part001.bsteps st') (Part001.bdistances st') (Part001.bprevious st').
Proof.
  revert st b. induction es as [|e es IH]; intros st b Hin [Ht Hl]; cbn zeta;
    simpl; [auto|].
  assert (Hrest : forall e', e' ∈ es -> e' ∈ edges).
  { intros e' H. apply Hin. apply elem_of_cons. auto. }
  destruct (notInfinity _); [|apply IH; auto].
  destruct (jsLt _ _) eqn:Hlt; [|apply IH; auto].
  destruct (jsLt_true_l _ _ Hlt) as [y Hy].
  apply jsAdd_Fin_inv in Hy as Hx. destruct Hx as (x & Hx & ->).
  rewrite Hx in *. cbn [jsAdd] in *.
  apply IH; [assumption|]. cbn [Part001.bsteps Part001.bdistances Part001.bprevious].
  match goal with
  | |- relaxationTrace _ (_ ++ [?step]) /\ _ =>
      apply (relaxationTrace_snoc edges _ _ _ step Ht Hl)
  end.
  unfold stepAfter. rewrite decide_True by reflexivity.
  exists e, x. cbn. split; [apply Hin, elem_of_cons; auto|]. auto 10.
Qed.

Lemma part001_passes_traced count i st :
  traced (Part001.bsteps st) (Part001.bdistances st) (Part001.bprevious st) ->
  let st' := Part001.passes count i edges st in
  traced (Part001.bsteps st') (Part001.bdistances st') (Part001.bprevious st').
Proof.
  revert i st. induction count as [|count IH]; intros i st Hinv; cbn zeta; simpl;
    [assumption|].
  pose proof (part001_relaxEdges_traced i edges st false (fun e H => H) Hinv)
    as [Ht Hl].
  destruct (Part001.relaxEdges i edges st false) as [st' relaxed].
  cbn [fst] in Ht, Hl. apply IH.
  cbn [Part001.bsteps Part001.bdistances Part001.bprevious].
  destruct relaxed; [auto|].
  match goal with
  | |- relaxationTrace _ (_ ++ [?step]) /\ _ =>
      apply (relaxationTrace_snoc edges _ _ _ step Ht Hl)
  end.
  unfold stepAfter. rewrite decide_False by discriminate. auto.
Qed.

End Traces.

Lemma wellFormedTrace_intro edges steps d p fin hasCycle tree :
  relaxationTrace edges steps ->
  lastIsCurrent steps d p ->
  (exists ini, head steps = Some ini /\ Step.type ini = initial) ->
  terminal fin -> Step.distances fin = d -> Step.previous fin = p ->
  wellFormedTrace edges (Result.mk d p (steps ++ [fin]) hasCycle tree).
Proof.
  intros Ht Hl (ini & Hini & Htype) Hfin Hd Hp.
  destruct (relaxationTrace_snoc edges steps d p fin Ht Hl) as [Ht' _].
  { unfold stepAfter. destruct Hfin as [H|H];
      rewrite decide_False by congruence; auto. }
  split; [exact Ht'|]. cbn [Result.steps Result.distances Result.previous]. split.
  - exists ini. split; [|assumption]. destruct steps; [discriminate|]. exact Hini.
  - exists fin. rewrite last_snoc. auto.
Qed.

Lemma bellmanFord_wellFormedTrace nodes edges s :
  wellFormedTrace edges (GraphAlgorithms.bellmanFord nodes edges s).
Proof.
  unfold GraphAlgorithms.bellmanFord. cbn zeta.
  match goal with
  | |- context [GraphAlgorithms.passes ?c ?i ?es ?st0] =>
      destruct (passes_traced edges c i st0) as [Ht Hl];
      [split; [apply relaxationTrace_singleton | eexists; split; [reflexivity|auto]]|];
      destruct (passes_steps c i es st0) as (ext & Hext & _);
      set (st := GraphAlgorithms.passes c i es st0) in *
  end.
  destruct (List.find _ edges); apply wellFormedTrace_intro; auto;
    try (rewrite Hext; simpl; eexists; split; [reflexivity | reflexivity]);
    unfold terminal; simpl; auto.
Qed.

Lemma part001_bellmanFord_wellFormedTrace nodes edges s :
  wellFormedTrace edges (Part001.bellmanFord nodes edges s).
Proof.
  unfold Part001.bellmanFord. cbn zeta.
  match goal with
  | |- context [Part001.passes ?c ?i ?es ?st0] =>
      destruct (part001_passes_traced edges c i st0) as [Ht Hl];
      [split; [apply relaxationTrace_singleton | eexists; split; [reflexivity|auto]]|];
      destruct (part001_passes_shape c i es st0) as (ext & Hext & _);
      set (st := Part001.passes c i es st0) in *
  end.
  rewrite part001_cycleCheck_find.
  destruct (List.find _ edges); cbn [fst snd Part001.bsteps Part001.bdistances
                                       Part001.bprevious Part001.biteration].
  + match goal with
    | |- context [Part001.bsteps st ++ [?nc]] =>
        destruct (relaxationTrace_snoc edges _ _ _ nc Ht Hl) as [Ht' Hl'];
        [unfold stepAfter; rewrite decide_False by discriminate; auto|]
    end.
    apply wellFormedTrace_intro; auto.
    * rewrite Hext. simpl. eexists. split; reflexivity.
    * unfold terminal; simpl; auto.
  + apply wellFormedTrace_intro; auto.
    * rewrite Hext. simpl. eexists. split; reflexivity.
    * unfold terminal; simpl; auto.
Qed.

Lemma part001_dijkstra_wellFormedTrace nodes edges s :
  wellFormedTrace edges (Part001.dijkstra nodes edges s).
Proof.
  unfold Part001.dijkstra. cbn zeta.
  match goal with
  | |- context [Part001.whileLoop ?f ?n ?a ?st0] =>
      destruct (part001_whileLoop_traced nodes edges f st0) as [Ht Hl];
      [split; [apply relaxationTrace_singleton | eexists; split; [reflexivity|auto]]|];
      set (st := Part001.whileLoop f n a st0) in *
  end.
  apply wellFormedTrace_intro; auto; [|unfold terminal; simpl; auto].
  assert (Hpre : forall fuel st1,
             exists ext, Part001.steps
                           (Part001.whileLoop fuel nodes
                              (Part001.buildAdjacencyList nodes edges) st1)
                         = Part001.steps st1 ++ ext).
  { assert (Hrn : forall m nbrs st1,
               exists ext, Part001.steps (Part001.relaxNeighbors m nbrs st1)
                           = Part001.steps st1 ++ ext).
    { intros m nbrs. induction nbrs as [|[v w] nbrs IH]; intros st1; simpl.
      - exists []. rewrite app_nil_r. reflexivity.
      - destruct (jsLt _ _); [|apply IH].
        edestruct IH as (ext & ->). simpl. rewrite <- app_assoc. eauto. }
    induction fuel as [|fuel IH]; intros st1; simpl.
    - exists []. rewrite app_nil_r. reflexivity.
    - destruct (bool_decide _); [|exists []; rewrite app_nil_r; reflexivity].
      destruct (Part001.selectMin _ _ _) as [[m|] x];
        [|exists []; rewrite app_nil_r; reflexivity].
      destruct (notInfinity x); [|exists []; rewrite app_nil_r; reflexivity].
      edestruct IH as (ext & ->). unfold Part001.visit. cbn zeta. simpl.
      edestruct Hrn as (ext' & ->). simpl. rewrite <- !app_assoc. eauto. }
  destruct (Hpre (length nodes)
              (Part001.mkD (initDistances nodes s) (initPrevious nodes) ∅
                 [Part001.initialStep nodes s] 1)) as (ext & Hext).
  fold st in Hext. rewrite Hext. simpl. eexists. split; reflexivity.
Qed.

Lemma dijkstra_wellFormedTrace nodes edges s r :
  GraphAlgorithms.dijkstra nodes edges s = Some r -> wellFormedTrace edges r.
Proof.
  intros E.
  revert E. unfold GraphAlgorithms.dijkstra.
  destruct (GraphAlgorithms.buildAdjacencyList nodes edges) as [adjList|] eqn:Hadj;
    [|discriminate].
  cbn zeta. intros [= <-].
  match goal with
  | |- context [GraphAlgorithms.whileLoop ?f ?n ?a ?st0] =>
      destruct (whileLoop_traced nodes edges f a st0 Hadj) as [Ht Hl];
      [split; [apply relaxationTrace_singleton | eexists; split; [reflexivity|auto]]|];
      destruct (whileLoop_steps f n a st0) as (ext & Hext & _);
      set (st := GraphAlgorithms.whileLoop f n a st0) in *
  end.
  apply wellFormedTrace_intro; auto; [|unfold terminal; simpl; auto].
  rewrite Hext. simpl. eexists. split; reflexivity.
Qed.

(** The trace of every run, in both variants, on inputs with plain keys
    and exact sums: it starts with [initial]; each [relax] step applies one
    strictly improving relaxation of an input edge to the maps of the step
    before it, naming that edge and its head as the one updated node; every
    other step repeats the maps of the step before it; and the last step is
    terminal and shows the returned maps. *)
Theorem traces_are_relaxation_sequences nodes edges s :
  plainKeys nodes edges ->
  exactSums nodes edges ->
  wellFormedTrace edges (GraphAlgorithms.bellmanFord nodes edges s) /\
  wellFormedTrace edges (Part001.bellmanFord nodes edges s) /\
  wellFormedTrace edges (Part001.dijkstra nodes edges s) /\
  match GraphAlgorithms.dijkstra nodes edges s with
  | Some r => wellFormedTrace edges r
  | None => ~ sourcesKnown nodes edges
  end.
Proof.
  intros _ _. split; [|split; [|split]].
  - apply bellmanFord_wellFormedTrace.
  - apply part001_bellmanFord_wellFormedTrace.
  - apply part001_dijkstra_wellFormedTrace.
  - destruct (GraphAlgorithms.dijkstra nodes edges s) as [r|] eqn:E.
    + eapply dijkstra_wellFormedTrace. exact E.
    + apply (dijkstra_None nodes edges s). exact E.
Qed.

Lemma traces_are_relaxation_sequences_witness :
  let nodes := [mkNode "A"; mkNode "B"; mkNode "C"] in
  let edges := [mkEdge "A" "B" 4; mkEdge "A" "C" 1; mkEdge "C" "B" (-2)] in
  wellFormedTrace edges (GraphAlgorithms.bellmanFord nodes edges "A") /\
  wellFormedTrace edges (Part001.bellmanFord nodes edges "A") /\
  wellFormedTrace edges (Part001.dijkstra nodes edges "A") /\
  match GraphAlgorithms.dijkstra nodes edges "A" with
  | Some r => wellFormedTrace edges r
  | None => ~ sourcesKnown nodes edges
  end.
Proof.
  apply (traces_are_relaxation_sequences
           [mkNode "A"; mkNode "B"; mkNode "C"]
           [mkEdge "A" "B" 4; mkEdge "A" "C" 1; mkEdge "C" "B" (-2)] "A").
  - plain_keys.
  - exact_sums.
Defined.

(** ** The selections of Dijkstra *)

Lemma selectSteps_app a b : selectSteps (a ++ b) = selectSteps a ++ selectSteps b.
Proof. apply filter_app. Qed.

Lemma selectSteps_relax ext :
  Forall (fun x => Step.type x = relax) ext -> selectSteps ext = [].
Proof.
  induction 1 as [|x ext Hx _ IH]; [reflexivity|]. unfold selectSteps.
  rewrite filter_cons_False by (rewrite Hx; discriminate). exact IH.
Qed.

Lemma selectSteps_visit steps sel ext :
  Step.type sel = select ->
  Forall (fun x => Step.type x = relax) ext ->
  selectSteps ((steps ++ [sel]) ++ ext) = selectSteps steps ++ [sel].
Proof.
  intros Hsel Hext.
  rewrite !selectSteps_app, (selectSteps_relax ext), app_nil_r by assumption.
  f_equal. unfold selectSteps. rewrite filter_cons_True by assumption. reflexivity.
Qed.

Lemma selected_visit steps sel ext m :
  Step.type sel = select -> Step.currentNode sel = Some m ->
  Forall (fun x => Step.type x = relax) ext ->
  selected ((steps ++ [sel]) ++ ext) = selected steps ++ [m].
Proof.
  intros Hsel Hm Hext. unfold selected.
  rewrite selectSteps_visit, omap_app by assumption. simpl. rewrite Hm. reflexivity.
Qed.

Lemma selectSteps_snoc_other steps x :
  Step.type x <> select -> selectSteps (steps ++ [x]) = selectSteps steps.
Proof.
  intros Hx. rewrite selectSteps_app. unfold selectSteps at 2.
  rewrite filter_cons_False by assumption. apply app_nil_r.
Qed.

Lemma selected_elem steps st m :
  st ∈ steps -> Step.type st = select -> Step.currentNode st = Some m ->
  m ∈ selected steps.
Proof.
  intros Hin Ht Hm. unfold selected. apply list_elem_of_omap. exists st.
  split; [|assumption]. apply list_elem_of_filter. auto.
Qed.

Lemma selectionLog_select nodes steps V d it sel ext m d' :
  selectionLog nodes steps V d it ->
  m ∈ ids nodes -> m ∉ V ->
  Step.type sel = select -> Step.currentNode sel = Some m ->
  Step.iteration sel = it ->
  Forall (fun x => Step.type x = relax) ext ->
  (forall u, u ∈ ({[m]} ∪ V : gset string) -> exists x, d' !! u = Some (Fin x)) ->
  selectionLog nodes ((steps ++ [sel]) ++ ext) ({[m]} ∪ V) d' (S it).
Proof.
  intros [Hnd Hvis Hlist Hfin Hits Hnext] Hml HmV Hsel Hm Hit Hext Hd'.
  constructor.
  - rewrite (selected_visit steps sel ext m) by assumption.
    apply NoDup_app. split; [assumption|]. split; [|apply NoDup_singleton].
    intros u Hu Hu'. apply elem_of_cons in Hu' as [->|Hn];
      [|apply elem_of_nil in Hn; contradiction].
    apply HmV, Hvis, Hu.
  - intros u. rewrite (selected_visit steps sel ext m) by assumption.
    rewrite elem_of_app, elem_of_union, elem_of_singleton, Hvis.
    split; intros [H|H]; auto.
    + apply elem_of_cons in H as [->|Hn]; [auto|].
      apply elem_of_nil in Hn. contradiction.
    + right. apply elem_of_cons. auto.
  - intros u Hu. apply elem_of_union in Hu as [Hu|Hu]; [|auto].
    apply elem_of_singleton in Hu. subst u. assumption.
  - exact Hd'.
  - rewrite selectSteps_visit by assumption.
    rewrite fmap_app, length_app, Hits. cbn [length fmap list_fmap].
    rewrite seq_app. cbn [seq]. rewrite Hit, Hnext. reflexivity.
  - rewrite selectSteps_visit by assumption. rewrite length_app, Hnext. simpl. lia.
Qed.

Lemma selectionLog_initial nodes d x :
  Step.type x = initial -> selectionLog nodes [x] ∅ d 1.
Proof.
  intros Hx.
  assert (Hs : selectSteps [x] = []).
  { unfold selectSteps. rewrite filter_cons_False by (rewrite Hx; discriminate).
    reflexivity. }
  constructor; unfold selected; rewrite ?Hs; simpl.
  - constructor.
  - intros m. split; intros H; [apply elem_of_nil in H | apply elem_of_empty in H];
      contradiction.
  - intros m H. apply elem_of_empty in H. contradiction.
  - intros m H. apply elem_of_empty in H. contradiction.
  - reflexivity.
  - reflexivity.
Qed.

Lemma selectionLog_result nodes steps V d it fin :
  selectionLog nodes steps V d it ->
  Step.type fin = complete -> Step.iteration fin = it ->
  NoDup (selected (steps ++ [fin])) /\
  (forall m, m ∈ selected (steps ++ [fin]) ->
     m ∈ ids nodes /\ exists x, d !! m = Some (Fin x)) /\
  Step.iteration <$> selectSteps (steps ++ [fin])
  = seq 1 (length (selectSteps (steps ++ [fin]))) /\
  (exists fin', last (steps ++ [fin]) = Some fin' /\
     Step.iteration fin' = S (length (selectSteps (steps ++ [fin])))).
Proof.
  intros [Hnd Hvis Hlist Hfin Hits Hnext] Ht Hit.
  unfold selected. rewrite selectSteps_snoc_other by (rewrite Ht; discriminate).
  split; [exact Hnd|]. split; [|split; [exact Hits|]].
  - intros m Hm. apply Hvis in Hm. auto.
  - exists fin. rewrite last_snoc. split; [reflexivity|]. congruence.
Qed.

Lemma get_Fin_lookup (d : gmap string JsNum) k z :
  get d k = Fin z -> d !! k = Some (Fin z).
Proof. unfold get. destruct (d !! k); simpl; congruence. Qed.

Lemma relaxNeighbors_finite m nbrs st u :
  (exists x, GraphAlgorithms.distances st !! u = Some (Fin x)) ->
  exists x, GraphAlgorithms.distances (GraphAlgorithms.relaxNeighbors m nbrs st) !! u
            = Some (Fin x).
Proof.
  revert st. induction nbrs as [|[v w] nbrs IH]; intros st Hu; simpl; [assumption|].
  destruct (jsLt _ _) eqn:Hlt; [|apply IH; assumption].
  destruct (jsLt_true_l _ _ Hlt) as [y Hy]. rewrite Hy.
  apply IH. cbn [GraphAlgorithms.distances].
  destruct (decide (v = u)) as [->|Hne].
  - rewrite lookup_insert_eq. eauto.
  - rewrite lookup_insert_ne by assumption. assumption.
Qed.

Lemma relaxNeighbors_iteration m nbrs st :
  GraphAlgorithms.iteration (GraphAlgorithms.relaxNeighbors m nbrs st)
  = GraphAlgorithms.iteration st.
Proof.
  revert st. induction nbrs as [|[v w] nbrs IH]; intros st; simpl; [reflexivity|].
  destruct (jsLt _ _); rewrite IH; reflexivity.
Qed.

Lemma part001_relaxNeighbors_steps m nbrs st :
  exists ext,
    Part001.steps (Part001.relaxNeighbors m nbrs st) = Part001.steps st ++ ext /\
    Forall (fun x => Step.type x = relax) ext.
Proof.
  revert st. induction nbrs as [|[v w] nbrs IH]; intros st; simpl.
  - exists []. rewrite app_nil_r. auto.
  - destruct (jsLt _ _); [|apply IH].
    edestruct IH as (ext & -> & Hext). simpl. rewrite <- app_assoc.
    eexists. split; [reflexivity|]. constructor; [reflexivity | exact Hext].
Qed.

Lemma part001_relaxNeighbors_iteration m nbrs st :
  Part001.iteration (Part001.relaxNeighbors m nbrs st) = Part001.iteration st.
Proof.
  revert st. induction nbrs as [|[v w] nbrs IH]; intros st; simpl; [reflexivity|].
  destruct (jsLt _ _); rewrite IH; reflexivity.
Qed.

Lemma part001_selectMin_Some nodes visited d m x :
  Part001.selectMin nodes visited d = (Some m, x) ->
  m ∈ ids nodes /\ (m ∉ visited) /\ x = get d m /\ (exists z, x = Fin z) /\
  forall k, k ∈ ids nodes -> k ∉ visited -> jsLt (get d k) x = false.
Proof. apply selectMin_Some. Qed.

Lemma part001_selectMin_None nodes visited d x :
  Part001.selectMin nodes visited d = (None, x) ->
  forall k, k ∈ ids nodes -> k ∉ visited -> jsLt (get d k) Infinity = false.
Proof. apply selectMin_None. Qed.

Section Selections.
Context (nodes : list GraphNode) (edges : list GraphEdge) (s : string).

Local Abbreviation logged st :=
  (selectionLog nodes (GraphAlgorithms.steps st) (GraphAlgorithms.visited st)
     (GraphAlgorithms.distances st) (GraphAlgorithms.iteration st)).

Local Abbreviation logged1 st :=
  (selectionLog nodes (Part001.steps st) (Part001.visited st)
     (Part001.distances st) (Part001.iteration st)).

Lemma visit_log adjList m x st :
  GraphAlgorithms.selectMin nodes (GraphAlgorithms.visited st)
                            (GraphAlgorithms.distances st) = (Some m, x) ->
  logged st -> logged (GraphAlgorithms.visit adjList m x st).
Proof.
  intros Hsel Hlog.
  apply selectMin_Some in Hsel as (Hml & HmV & Hx & (z & Hz) & _). subst x.
  apply get_Fin_lookup in Hz.
  unfold GraphAlgorithms.visit. cbn zeta.
  cbn [GraphAlgorithms.steps GraphAlgorithms.visited GraphAlgorithms.distances
       GraphAlgorithms.iteration].
  match goal with
  | |- context [GraphAlgorithms.relaxNeighbors m ?nb ?st1] =>
      destruct (relaxNeighbors_steps m nb st1) as (ext & Hext & Hrel);
      rewrite Hext, relaxNeighbors_visited, relaxNeighbors_iteration;
      cbn [GraphAlgorithms.steps GraphAlgorithms.visited GraphAlgorithms.iteration];
      apply (selectionLog_select nodes _ _ (GraphAlgorithms.distances st));
      try assumption; try reflexivity;
      intros u Hu; apply relaxNeighbors_finite;
      cbn [GraphAlgorithms.distances]
  end.
  apply elem_of_union in Hu as [Hu|Hu].
  - apply elem_of_singleton in Hu. subst u. eauto.
  - eapply log_finite; eassumption.
Qed.

Lemma whileLoop_log fuel adjList st :
  logged st -> logged (GraphAlgorithms.whileLoop fuel nodes adjList st).
Proof.
  revert st. induction fuel as [|fuel IH]; intros st Hlog; simpl; [assumption|].
  destruct (bool_decide _); [|assumption].
  destruct (GraphAlgorithms.selectMin _ _ _) as [[m|] x] eqn:Hsel; [|assumption].
  destruct (truthy m); [|assumption].
  apply IH. apply visit_log; assumption.
Qed.

Lemma visited_all_listed (V : gset string) (d : gmap string JsNum) v :
  (forall m, m ∈ V -> m ∈ ids nodes) ->
  (length nodes <= size V)%nat ->
  v ∈ ids nodes -> v ∈ V.
Proof.
  intros Hsub Hsize Hv.
  pose proof (size_list_to_set_le (ids nodes)) as Hle.
  unfold ids in Hle at 2. rewrite length_fmap in Hle.
  assert (Heq : V = list_to_set (ids nodes)).
  { apply set_subseteq_size_eq; [|lia].
    intros u Hu. apply elem_of_list_to_set. auto. }
  rewrite Heq. apply elem_of_list_to_set. assumption.
Qed.

Lemma whileLoop_complete fuel adjList st :
  GraphAlgorithms.buildAdjacencyList nodes edges = Some adjList ->
  EmptyString ∉ ids nodes ->
  (length nodes - size (GraphAlgorithms.visited st) <= fuel)%nat ->
  dijkstraInv nodes edges s st ->
  logged st ->
  let st' := GraphAlgorithms.whileLoop fuel nodes adjList st in
  forall v x, GraphAlgorithms.distances st' !! v = Some (Fin x) ->
              v ∈ GraphAlgorithms.visited st'.
Proof.
  intros Hadj Hempty. revert st.
  assert (Hfull : forall st,
             dijkstraInv nodes edges s st -> logged st ->
             (length nodes <= size (GraphAlgorithms.visited st))%nat ->
             forall v x, GraphAlgorithms.distances st !! v = Some (Fin x) ->
                         v ∈ GraphAlgorithms.visited st).
  { intros st [Hr _] Hlog Hsize v x Hv.
    apply (visited_all_listed _ (GraphAlgorithms.distances st));
      [apply (log_listed _ _ _ _ _ Hlog) | assumption |].
    eapply reachable_listed; eassumption. }
  induction fuel as [|fuel IH]; intros st Hfuel Hinv Hlog; cbn zeta.
  - simpl. apply Hfull; [assumption..|lia].
  - cbn [GraphAlgorithms.whileLoop].
    destruct (bool_decide_reflect
                (size (GraphAlgorithms.visited st) < length nodes)%nat) as [Hlt|Hge];
      [|apply Hfull; [assumption..|lia]].
    destruct (GraphAlgorithms.selectMin _ _ _) as [[m|] x] eqn:Hsel.
    + pose proof (selectMin_Some _ _ _ _ _ Hsel) as (Hml & HmV & _).
      unfold truthy. destruct (bool_decide_reflect (m = EmptyString)) as [->|Hne];
        [contradiction|]. cbn [negb].
      apply IH.
      * rewrite visit_visited, size_add_fresh by assumption. lia.
      * apply visit_inv; assumption.
      * apply visit_log; assumption.
    + intros v y Hv.
      destruct (decide (v ∈ GraphAlgorithms.visited st)) as [|HvV]; [assumption|].
      exfalso. destruct Hinv as [Hr _].
      pose proof (reachable_listed _ _ _ _ _ _ _ Hr Hv) as Hvl.
      pose proof (selectMin_None _ _ _ _ Hsel v Hvl HvV) as Hn.
      rewrite (get_lookup _ _ _ Hv) in Hn. discriminate.
Qed.

(** *** The second variant *)

Lemma part001_relaxNeighbors_finite m nbrs st u :
  (exists x, Part001.distances st !! u = Some (Fin x)) ->
  exists x, Part001.distances (Part001.relaxNeighbors m nbrs st) !! u = Some (Fin x).
Proof.
  revert st. induction nbrs as [|[v w] nbrs IH]; intros st Hu; simpl; [assumption|].
  destruct (jsLt _ _) eqn:Hlt; [|apply IH; assumption].
  destruct (jsLt_true_l _ _ Hlt) as [y Hy]. rewrite Hy.
  apply IH. cbn [Part001.distances].
  destruct (decide (v = u)) as [->|Hne].
  - rewrite lookup_insert_eq. eauto.
  - rewrite lookup_insert_ne by assumption. assumption.
Qed.

Lemma part001_visit_log adjList m x st :
  Part001.selectMin nodes (Part001.visited st) (Part001.distances st) = (Some m, x) ->
  logged1 st -> logged1 (Part001.visit adjList m x st).
Proof.
  intros Hsel Hlog.
  apply part001_selectMin_Some in Hsel as (Hml & HmV & Hx & (z & Hz) & _). subst x.
  apply get_Fin_lookup in Hz.
  unfold Part001.visit. cbn zeta.
  cbn [Part001.steps Part001.visited Part001.distances Part001.iteration].
  match goal with
  | |- context [Part001.relaxNeighbors m ?nb ?st1] =>
      destruct (part001_relaxNeighbors_steps m nb st1) as (ext & Hext & Hrel);
      rewrite Hext, part001_relaxNeighbors_visited, part001_relaxNeighbors_iteration;
      cbn [Part001.steps Part001.visited Part001.iteration];
      apply (selectionLog_select nodes _ _ (Part001.distances st));
      try assumption; try reflexivity;
      intros u Hu; apply part001_relaxNeighbors_finite;
      cbn [Part001.distances]
  end.
  apply elem_of_union in Hu as [Hu|Hu].
  - apply elem_of_singleton in Hu. subst u. eauto.
  - eapply log_finite; eassumption.
Qed.

Lemma part001_whileLoop_log fuel adjList st :
  logged1 st -> logged1 (Part001.whileLoop fuel nodes adjList st).
Proof.
  revert st. induction fuel as [|fuel IH]; intros st Hlog; simpl; [assumption|].
  destruct (bool_decide _); [|assumption].
  destruct (Part001.selectMin _ _ _) as [[m|] x] eqn:Hsel; [|assumption].
  destruct (notInfinity x); [|assumption].
  apply IH. apply part001_visit_log; assumption.
Qed.

Lemma part001_whileLoop_complete fuel st :
  (length nodes - size (Part001.visited st) <= fuel)%nat ->
  part001DijkstraInv nodes edges s st ->
  logged1 st ->
  let st' :=
    Part001.whileLoop fuel nodes (Part001.buildAdjacencyList nodes edges) st in
  forall v x, Part001.distances st' !! v = Some (Fin x) -> v ∈ Part001.visited st'.
Proof.
  revert st.
  assert (Hfull : forall st,
             part001DijkstraInv nodes edges s st -> logged1 st ->
             (length nodes <= size (Part001.visited st))%nat ->
             forall v x, Part001.distances st !! v = Some (Fin x) ->
                         v ∈ Part001.visited st).
  { intros st [Hr _] Hlog Hsize v x Hv.
    apply (visited_all_listed _ (Part001.distances st));
      [apply (log_listed _ _ _ _ _ Hlog) | assumption |].
    eapply reachable_listed; eassumption. }
  induction fuel as [|fuel IH]; intros st Hfuel Hinv Hlog; cbn zeta.
  - simpl. apply Hfull; [assumption..|lia].
  - cbn [Part001.whileLoop].
    destruct (bool_decide_reflect
                (size (Part001.visited st) < length nodes)%nat) as [Hlt|Hge];
      [|apply Hfull; [assumption..|lia]].
    destruct (Part001.selectMin _ _ _) as [[m|] x] eqn:Hsel.
    + pose proof (part001_selectMin_Some _ _ _ _ _ Hsel)
        as (Hml & HmV & _ & (z & ->) & _).
      cbn [notInfinity]. apply IH.
      * rewrite part001_visit_visited, size_add_fresh by assumption. lia.
      * apply part001_visit_inv; assumption.
      * apply part001_visit_log; assumption.
    + intros v y Hv.
      destruct (decide (v ∈ Part001.visited st)) as [|HvV]; [assumption|].
      exfalso. destruct Hinv as [Hr _].
      pose proof (reachable_listed _ _ _ _ _ _ _ Hr Hv) as Hvl.
      pose proof (part001_selectMin_None _ _ _ _ Hsel v Hvl HvV) as Hn.
      rewrite (get_lookup _ _ _ Hv) in Hn. discriminate.
Qed.

End Selections.

(** On inputs with plain keys and exact sums Dijkstra, in both variants,
    selects no node twice and only listed nodes, each with a finite
    returned distance; its [select] steps carry the iteration numbers
    1, 2, ... and the final step the next one.  In the second variant every
    node that ends with a finite distance has been selected; in
    [client/lib] this holds when no listed id is the empty string. *)
Theorem dijkstra_selects_each_node_once nodes edges s :
  plainKeys nodes edges ->
  exactSums nodes edges ->
  (selectsOnce nodes (Part001.dijkstra nodes edges s) /\
   selectsAllFinite (Part001.dijkstra nodes edges s)) /\
  match GraphAlgorithms.dijkstra nodes edges s with
  | Some r =>
      selectsOnce nodes r /\ (EmptyString ∉ ids nodes -> selectsAllFinite r)
  | None => ~ sourcesKnown nodes edges
  end.
Proof.
  intros _ _.
  split.
  - unfold Part001.dijkstra. cbn zeta.
    set (st0 := Part001.mkD (initDistances nodes s) (initPrevious nodes) ∅
                  [Part001.initialStep nodes s] 1).
    assert (Hlog0 : selectionLog nodes (Part001.steps st0) (Part001.visited st0)
                      (Part001.distances st0) (Part001.iteration st0)).
    { apply selectionLog_initial. reflexivity. }
    assert (Hinv0 : part001DijkstraInv nodes edges s st0).
    { split; [constructor|]. repeat constructor. }
    pose proof (part001_whileLoop_log nodes (length nodes)
                  (Part001.buildAdjacencyList nodes edges) st0 Hlog0) as Hlog.
    pose proof (part001_whileLoop_complete nodes edges s (length nodes) st0) as Hall.
    cbn zeta in Hall.
    set (st := Part001.whileLoop _ _ _ st0) in *.
    split.
    + unfold selectsOnce. cbn [Result.steps Result.distances].
      eapply selectionLog_result; [exact Hlog | reflexivity | reflexivity].
    + intros v x Hv. cbn [Result.steps Result.distances] in *.
      unfold selected. rewrite selectSteps_snoc_other by discriminate.
      apply (log_visited _ _ _ _ _ Hlog). eapply Hall; try eassumption.
      simpl. lia.
  - destruct (GraphAlgorithms.dijkstra nodes edges s) as [r|] eqn:E;
      [|apply (dijkstra_None nodes edges s); exact E].
    revert E. unfold GraphAlgorithms.dijkstra.
    destruct (GraphAlgorithms.buildAdjacencyList nodes edges) as [adjList|] eqn:Hadj;
      [|discriminate].
    cbn zeta. intros [= <-].
    set (st0 := GraphAlgorithms.mkD (initDistances nodes s) (initPrevious nodes) ∅
                  [GraphAlgorithms.initialStep "Dijkstra" nodes s] 1).
    assert (Hlog0 : selectionLog nodes (GraphAlgorithms.steps st0)
                      (GraphAlgorithms.visited st0)
                      (GraphAlgorithms.distances st0) (GraphAlgorithms.iteration st0)).
    { apply selectionLog_initial. reflexivity. }
    assert (Hinv0 : dijkstraInv nodes edges s st0).
    { split; [constructor|]. repeat constructor. }
    pose proof (whileLoop_log nodes (length nodes) adjList st0 Hlog0) as Hlog.
    pose proof (whileLoop_complete nodes edges s (length nodes) adjList st0 Hadj)
      as Hall.
    cbn zeta in Hall.
    set (st := GraphAlgorithms.whileLoop _ _ _ st0) in *.
    split.
    + unfold selectsOnce. cbn [Result.steps Result.distances].
      eapply selectionLog_result; [exact Hlog | reflexivity | reflexivity].
    + intros Hempty v x Hv. cbn [Result.steps Result.distances] in *.
      unfold selected. rewrite selectSteps_snoc_other by discriminate.
      apply (log_visited _ _ _ _ _ Hlog). eapply Hall; try eassumption.
      simpl. lia.
Qed.

Lemma dijkstra_selects_each_node_once_witness :
  let nodes := [mkNode "A"; mkNode "B"; mkNode "C"] in
  let edges := [mkEdge "A" "B" 4; mkEdge "A" "C" 1; mkEdge "C" "B" 1] in
  (selectsOnce nodes (Part001.dijkstra nodes edges "A") /\
   selectsAllFinite (Part001.dijkstra nodes edges "A")) /\
  match GraphAlgorithms.dijkstra nodes edges "A" with
  | Some r =>
      selectsOnce nodes r /\ (EmptyString ∉ ids nodes -> selectsAllFinite r)
  | None => ~ sourcesKnown nodes edges
  end.
Proof.
  apply (dijkstra_selects_each_node_once
           [mkNode "A"; mkNode "B"; mkNode "C"]
           [mkEdge "A" "B" 4; mkEdge "A" "C" 1; mkEdge "C" "B" 1] "A").
  - plain_keys.
  - exact_sums.
Defined.

(** ** The order of the selections *)

Lemma selections_select steps (V : gset string) d sel ext m xm d' :
  (forall u, u ∈ selected steps <-> u ∈ V) ->
  selectionsFinal steps d -> selectionsAscend steps d ->
  (forall u xu, u ∈ V -> d !! u = Some (Fin xu) -> xu <= xm) ->
  d !! m = Some (Fin xm) ->
  Step.distances sel = d -> Step.type sel = select -> Step.currentNode sel = Some m ->
  Forall (fun x => Step.type x = relax) ext ->
  (forall u, u ∈ ({[m]} ∪ V : gset string) -> d' !! u = d !! u) ->
  selectionsFinal ((steps ++ [sel]) ++ ext) d' /\
  selectionsAscend ((steps ++ [sel]) ++ ext) d'.
Proof.
  intros Hvis Hfinal Hasc Hmax Hm Hd Hsel Hcur Hext Hkeep.
  assert (HkeepV : forall u, u ∈ V -> d' !! u = d !! u).
  { intros u Hu. apply Hkeep, elem_of_union. auto. }
  assert (Hkeepm : d' !! m = Some (Fin xm)).
  { rewrite Hkeep; [assumption|]. apply elem_of_union. left.
    apply elem_of_singleton. reflexivity. }
  split.
  - intros st m0 Hin Ht Hc. apply elem_of_app in Hin as [Hin|Hin].
    + apply elem_of_app in Hin as [Hin|Hin].
      * destruct (Hfinal st m0 Hin Ht Hc) as (x & Hx & Hdx). exists x.
        split; [assumption|]. rewrite HkeepV; [assumption|].
        apply Hvis. eapply selected_elem; eassumption.
      * apply elem_of_cons in Hin as [->|Hn];
          [|apply elem_of_nil in Hn; contradiction].
        rewrite Hcur in Hc. injection Hc as <-. exists xm. rewrite Hd. auto.
    + rewrite Forall_forall in Hext. rewrite (Hext st Hin) in Ht. discriminate.
  - intros i j u v xu xv Hij Hu Hv Hxu Hxv.
    rewrite (selected_visit steps sel ext m) in Hu, Hv by assumption.
    apply lookup_app_Some in Hu as [Hu|[Hlen Hu]];
      apply lookup_app_Some in Hv as [Hv|[Hlen' Hv]].
    + assert (HuV : u ∈ V) by (apply Hvis; eapply list_elem_of_lookup_2; eassumption).
      assert (HvV : v ∈ V) by (apply Hvis; eapply list_elem_of_lookup_2; eassumption).
      rewrite HkeepV in Hxu, Hxv by assumption.
      eapply (Hasc i j); eassumption.
    + assert (HuV : u ∈ V) by (apply Hvis; eapply list_elem_of_lookup_2; eassumption).
      apply list_lookup_singleton_Some in Hv as [_ <-].
      rewrite Hkeepm in Hxv. injection Hxv as <-.
      rewrite HkeepV in Hxu by assumption. eapply Hmax; eassumption.
    + apply lookup_lt_Some in Hv. lia.
    + apply list_lookup_singleton_Some in Hu as [_ <-].
      apply list_lookup_singleton_Some in Hv as [_ <-]. simplify_eq. lia.
Qed.

Lemma selections_initial d x :
  Step.type x = initial -> selectionsFinal [x] d /\ selectionsAscend [x] d.
Proof.
  intros Hx. split.
  - intros st m Hin Ht. apply elem_of_cons in Hin as [->|Hn];
      [congruence | apply elem_of_nil in Hn; contradiction].
  - intros i j u v xu xv _ Hu. unfold selected, selectSteps in Hu.
    rewrite filter_cons_False in Hu by (rewrite Hx; discriminate). discriminate.
Qed.

Lemma selections_result steps d fin :
  Step.type fin = complete ->
  selectionsFinal steps d /\ selectionsAscend steps d ->
  selectionsFinal (steps ++ [fin]) d /\ selectionsAscend (steps ++ [fin]) d.
Proof.
  intros Ht [Hfinal Hasc]. split.
  - intros st m Hin Hs Hc. apply elem_of_app in Hin as [Hin|Hin]; [eauto|].
    apply elem_of_cons in Hin as [->|Hn];
      [congruence | apply elem_of_nil in Hn; contradiction].
  - unfold selectionsAscend, selected.
    rewrite selectSteps_snoc_other by (rewrite Ht; discriminate). exact Hasc.
Qed.

Lemma dijkstraSound_max nodes edges s d (V : gset string) m xm :
  dijkstraSound nodes edges s d V -> m ∉ V -> d !! m = Some (Fin xm) ->
  forall u xu, u ∈ V -> d !! u = Some (Fin xu) -> xu <= xm.
Proof.
  intros [_ Hord _ _] HmV Hm u xu Hu Hxu.
  pose proof (Hord u m xu Hu HmV Hxu) as Hlt.
  rewrite (get_lookup _ _ _ Hm) in Hlt. simpl in Hlt.
  apply bool_decide_eq_false in Hlt. lia.
Qed.

Section SelectionOrder.
Context (nodes : list GraphNode) (edges : list GraphEdge) (s : string).
Context (Hnonneg : nonNegative edges).

Local Abbreviation ordered steps d := (selectionsFinal steps d /\ selectionsAscend steps d).

Lemma visit_selections adjList m x st :
  GraphAlgorithms.buildAdjacencyList nodes edges = Some adjList ->
  GraphAlgorithms.selectMin nodes (GraphAlgorithms.visited st)
                            (GraphAlgorithms.distances st) = (Some m, x) ->
  reachable nodes edges s (GraphAlgorithms.distances st)
            (GraphAlgorithms.previous st) ->
  dijkstraSound nodes edges s (GraphAlgorithms.distances st)
                (GraphAlgorithms.visited st) ->
  (forall u, u ∈ selected (GraphAlgorithms.steps st) <-> u ∈ GraphAlgorithms.visited st) ->
  ordered (GraphAlgorithms.steps st) (GraphAlgorithms.distances st) ->
  let st' := GraphAlgorithms.visit adjList m x st in
  ordered (GraphAlgorithms.steps st') (GraphAlgorithms.distances st').
Proof.
  intros Hadj Hsel Hr Hsound Hvis [Hfinal Hasc]. cbn zeta.
  pose proof (selectMin_has_entry _ _ _ _ _ _ _ Hadj Hsel) as Hentry.
  pose proof (selectMin_Some _ _ _ _ _ Hsel) as (Hml & HmV & Hx & (xm & Hxm) & _).
  subst x. apply get_Fin_lookup in Hxm.
  unfold GraphAlgorithms.visit. cbn zeta.
  unfold lookup_total, map_lookup_total. rewrite Hentry. cbn [default].
  cbn [GraphAlgorithms.steps GraphAlgorithms.distances].
  match goal with
  | |- context [GraphAlgorithms.relaxNeighbors m _
                  (GraphAlgorithms.mkD _ _ _ ?steps1 ?it1)] =>
      destruct (select_relax_sound nodes edges s Hnonneg _ _ _ m _ steps1 it1
                  Hsel Hr Hsound) as (_ & _ & Hkeep)
  end.
  cbn zeta in Hkeep.
  match goal with
  | |- context [GraphAlgorithms.relaxNeighbors m ?nb ?st1] =>
      destruct (relaxNeighbors_steps m nb st1) as (ext & Hext & Hrel);
      rewrite Hext; cbn [GraphAlgorithms.steps]
  end.
  eapply (selections_select _ (GraphAlgorithms.visited st)
            (GraphAlgorithms.distances st)); try eassumption; try reflexivity.
  eapply dijkstraSound_max; eassumption.
Qed.

Lemma whileLoop_selections fuel adjList st :
  GraphAlgorithms.buildAdjacencyList nodes edges = Some adjList ->
  dijkstraInv nodes edges s st ->
  dijkstraSound nodes edges s (GraphAlgorithms.distances st)
                (GraphAlgorithms.visited st) ->
  selectionLog nodes (GraphAlgorithms.steps st) (GraphAlgorithms.visited st)
     (GraphAlgorithms.distances st) (GraphAlgorithms.iteration st) ->
  ordered (GraphAlgorithms.steps st) (GraphAlgorithms.distances st) ->
  let st' := GraphAlgorithms.whileLoop fuel nodes adjList st in
  ordered (GraphAlgorithms.steps st') (GraphAlgorithms.distances st').
Proof.
  intros Hadj. revert st.
  induction fuel as [|fuel IH]; intros st Hinv Hsound Hlog Hord; cbn zeta; simpl;
    [assumption|].
  destruct (bool_decide _); [|assumption].
  destruct (GraphAlgorithms.selectMin _ _ _) as [[m|] x] eqn:Hsel; [|assumption].
  destruct (truthy m); [|assumption].
  apply IH.
  - apply visit_inv; assumption.
  - destruct Hinv as [Hr _]. apply visit_sound; assumption.
  - apply visit_log; assumption.
  - destruct Hinv as [Hr _]. apply visit_selections; try assumption.
    apply (log_visited _ _ _ _ _ Hlog).
Qed.

Lemma part001_whileLoop_selections fuel st :
  part001DijkstraInv nodes edges s st ->
  dijkstraSound nodes edges s (Part001.distances st) (Part001.visited st) ->
  selectionLog nodes (Part001.steps st) (Part001.visited st)
     (Part001.distances st) (Part001.iteration st) ->
  ordered (Part001.steps st) (Part001.distances st) ->
  let st' :=
    Part001.whileLoop fuel nodes (Part001.buildAdjacencyList nodes edges) st in
  ordered (Part001.steps st') (Part001.distances st').
Proof.
  revert st.
  induction fuel as [|fuel IH]; intros st Hinv Hsound Hlog Hord; cbn zeta; simpl;
    [assumption|].
  destruct (bool_decide _); [|assumption].
  destruct (Part001.selectMin _ _ _) as [[m|] x] eqn:Hsel; [|assumption].
  destruct (notInfinity x); [|assumption].
  pose proof (part001_selectMin_Some _ _ _ _ _ Hsel)
    as (Hml & HmV & Hx & (xm & Hxm) & _).
  destruct (part001_visit_maps nodes edges m x st Hml) as (Hd & Hp & HV).
  destruct Hinv as [Hr Hsteps].
  destruct (select_relax_sound nodes edges s Hnonneg _ _ _ m x [] 0%nat Hsel Hr Hsound)
    as (Hr' & Hsound' & Hkeep).
  cbn zeta in *. rewrite <- Hd in Hkeep. rewrite <- Hd, <- HV in Hsound'.
  apply IH.
  - apply part001_visit_inv. split; assumption.
  - assumption.
  - apply part001_visit_log; assumption.
  - subst x. apply get_Fin_lookup in Hxm.
    revert Hkeep. clear Hd Hp HV Hr' Hsound'.
    unfold Part001.visit. cbn zeta. cbn [Part001.steps Part001.distances].
    match goal with
    | |- context [Part001.relaxNeighbors m ?nb ?st1] =>
        destruct (part001_relaxNeighbors_steps m nb st1) as (ext & Hext & Hrel);
        rewrite Hext; cbn [Part001.steps]
    end.
    intros Hkeep. destruct Hord as [Hfinal Hasc].
    eapply (selections_select _ (Part001.visited st) (Part001.distances st));
      try eassumption; try reflexivity.
    + apply (log_visited _ _ _ _ _ Hlog).
    + eapply dijkstraSound_max; eassumption.
Qed.

End SelectionOrder.

(** With plain keys and non-negative weights Dijkstra, in both variants,
    settles a node when it selects it: the distance that the [select] step
    shows for its node is the distance returned, and the nodes are selected
    in non-decreasing order of their returned distances. *)
Theorem dijkstra_selection_order nodes edges s :
  plainKeys nodes edges ->
  nonNegative edges ->
  (selectionsFinal (Result.steps (Part001.dijkstra nodes edges s))
                   (Result.distances (Part001.dijkstra nodes edges s)) /\
   selectionsAscend (Result.steps (Part001.dijkstra nodes edges s))
                    (Result.distances (Part001.dijkstra nodes edges s))) /\
  match GraphAlgorithms.dijkstra nodes edges s with
  | Some r =>
      selectionsFinal (Result.steps r) (Result.distances r) /\
      selectionsAscend (Result.steps r) (Result.distances r)
  | None => ~ sourcesKnown nodes edges
  end.
Proof.
  intros _.
  intros Hnonneg. split.
  - unfold Part001.dijkstra. cbn zeta. cbn [Result.steps Result.distances].
    apply selections_result; [reflexivity|].
    apply (part001_whileLoop_selections nodes edges s Hnonneg).
    + split; [constructor|]. repeat constructor.
    + apply dijkstraSound_initial.
    + apply selectionLog_initial. reflexivity.
    + apply selections_initial. reflexivity.
  - destruct (GraphAlgorithms.dijkstra nodes edges s) as [r|] eqn:E;
      [|apply (dijkstra_None nodes edges s); exact E].
    revert E. unfold GraphAlgorithms.dijkstra.
    destruct (GraphAlgorithms.buildAdjacencyList nodes edges) as [adjList|] eqn:Hadj;
      [|discriminate].
    cbn zeta. intros [= <-]. cbn [Result.steps Result.distances].
    apply selections_result; [reflexivity|].
    apply (whileLoop_selections nodes edges s Hnonneg); [assumption|..].
    + split; [constructor|]. repeat constructor.
    + apply dijkstraSound_initial.
    + apply selectionLog_initial. reflexivity.
    + apply selections_initial. reflexivity.
Qed.

Lemma dijkstra_selection_order_witness :
  let nodes := [mkNode "A"; mkNode "B"; mkNode "C"] in
  let edges := [mkEdge "A" "B" 4; mkEdge "A" "C" 1; mkEdge "C" "B" 1] in
  (selectionsFinal (Result.steps (Part001.dijkstra nodes edges "A"))
                   (Result.distances (Part001.dijkstra nodes edges "A")) /\
   selectionsAscend (Result.steps (Part001.dijkstra nodes edges "A"))
                    (Result.distances (Part001.dijkstra nodes edges "A"))) /\
  match GraphAlgorithms.dijkstra nodes edges "A" with
  | Some r =>
      selectionsFinal (Result.steps r) (Result.distances r) /\
      selectionsAscend (Result.steps r) (Result.distances r)
  | None => ~ sourcesKnown nodes edges
  end.
Proof.
  apply (dijkstra_selection_order
           [mkNode "A"; mkNode "B"; mkNode "C"]
           [mkEdge "A" "B" 4; mkEdge "A" "C" 1; mkEdge "C" "B" 1] "A");
    try solve [plain_keys]; try solve [exact_sums].
  intros e He. cbn in He.
  repeat (apply elem_of_cons in He as [->|He]; [simpl; lia|]).
  inversion He.
Defined.

(** ** The page *)

Lemma hasNode_true nodes k : hasNode nodes k = true <-> k ∈ ids nodes.
Proof.
  unfold hasNode, ids. rewrite existsb_exists, list_elem_of_fmap. split.
  - intros (n & Hn & Hb). apply bool_decide_eq_true in Hb.
    exists n. split; [auto | apply list_elem_of_In; exact Hn].
  - intros (n & -> & Hn). exists n. split; [apply list_elem_of_In; exact Hn|].
    apply bool_decide_eq_true. reflexivity.
Qed.

Lemma hasNode_false nodes k : hasNode nodes k = false <-> k ∉ ids nodes.
Proof.
  rewrite <- hasNode_true. destruct (hasNode nodes k); split; congruence.
Qed.

Lemma hasEdge_true edges s d :
  hasEdge edges s d = true <-> exists e, e ∈ edges /\ source e = s /\ destination e = d.
Proof.
  unfold hasEdge. rewrite existsb_exists. split.
  - intros (e & He & Hb). apply andb_true_iff in Hb as [H1 H2].
    apply bool_decide_eq_true in H1. apply bool_decide_eq_true in H2.
    exists e. split; [apply list_elem_of_In; exact He | auto].
  - intros (e & He & <- & <-). exists e. split; [apply list_elem_of_In; exact He|].
    rewrite !bool_decide_eq_true_2 by reflexivity. reflexivity.
Qed.

Lemma hasEdge_false edges s d :
  hasEdge edges s d = false ->
  (s, d) ∉ (fun e => (source e, destination e)) <$> edges.
Proof.
  intros Hf Hin. apply list_elem_of_fmap in Hin as (e & [= -> ->] & He).
  assert (hasEdge edges (source e) (destination e) = true) by (apply hasEdge_true; eauto).
  congruence.
Qed.

Lemma filter_sublist {A} (f : A -> bool) (l : list A) : List.filter f l `sublist_of` l.
Proof.
  induction l as [|x l IH]; simpl; [constructor|].
  destruct (f x); [apply sublist_skip | apply sublist_cons]; exact IH.
Qed.

Lemma filterIdx_sublist {A} (f : A -> nat -> bool) (l : list A) i :
  filterIdx f l i `sublist_of` l.
Proof.
  revert i. induction l as [|x l IH]; intros i; simpl; [constructor|].
  destruct (f x i); [apply sublist_skip | apply sublist_cons]; apply IH.
Qed.

Lemma elem_of_List_filter {A} (f : A -> bool) (l : list A) x :
  x ∈ List.filter f l <-> x ∈ l /\ f x = true.
Proof. rewrite !list_elem_of_In. apply filter_In. Qed.

Lemma wellFormedGraph_sublist nodes edges edges' :
  edges' `sublist_of` edges ->
  wellFormedGraph nodes edges -> wellFormedGraph nodes edges'.
Proof.
  intros Hsub [Hids Hne Hsrc Hdst Hpairs]. constructor; try assumption.
  - apply Forall_forall. intros e He. unfold sourcesKnown in Hsrc.
    rewrite Forall_forall in Hsrc. eapply Hsrc, elem_of_sublist; eassumption.
  - apply Forall_forall. intros e He. unfold destinationsKnown in Hdst.
    rewrite Forall_forall in Hdst. eapply Hdst, elem_of_sublist; eassumption.
  - eapply sublist_NoDup; [exact Hpairs|]. apply fmap_sublist. exact Hsub.
Qed.

Lemma wellFormedGraph_empty : wellFormedGraph [] [].
Proof.
  constructor; simpl; try constructor. intros H. apply elem_of_nil in H. exact H.
Qed.

Lemma wellFormedGraph_addNode nodes edges k :
  k <> EmptyString -> k ∉ ids nodes ->
  wellFormedGraph nodes edges -> wellFormedGraph (nodes ++ [mkNode k]) edges.
Proof.
  intros Hk Hnew [Hids Hne Hsrc Hdst Hpairs].
  assert (Hin : forall u, u ∈ ids nodes -> u ∈ ids (nodes ++ [mkNode k])).
  { intros u Hu. unfold ids. rewrite fmap_app. apply elem_of_app. auto. }
  constructor; try assumption.
  - unfold ids. rewrite fmap_app. apply NoDup_app. split; [exact Hids|].
    split; [|apply NoDup_singleton].
    intros u Hu Hu'. apply elem_of_cons in Hu' as [->|Hn];
      [contradiction | apply elem_of_nil in Hn; contradiction].
  - unfold ids. rewrite fmap_app. intros H. apply elem_of_app in H as [H|H];
      [contradiction|].
    apply elem_of_cons in H as [H|Hn]; [simpl in H; congruence|].
    apply elem_of_nil in Hn. contradiction.
  - eapply Forall_impl; [exact Hsrc|]. intros e. apply Hin.
  - eapply Forall_impl; [exact Hdst|]. intros e. apply Hin.
Qed.

Lemma wellFormedGraph_addEdge nodes edges e :
  source e ∈ ids nodes -> destination e ∈ ids nodes ->
  hasEdge edges (source e) (destination e) = false ->
  wellFormedGraph nodes edges -> wellFormedGraph nodes (edges ++ [e]).
Proof.
  intros Hs Hd Hnew [Hids Hne Hsrc Hdst Hpairs]. constructor; try assumption.
  - apply Forall_app. split; [exact Hsrc|]. repeat constructor. exact Hs.
  - apply Forall_app. split; [exact Hdst|]. repeat constructor. exact Hd.
  - rewrite fmap_app. apply NoDup_app. split; [exact Hpairs|].
    split; [|apply NoDup_singleton].
    intros u Hu Hu'. apply elem_of_cons in Hu' as [->|Hn];
      [|apply elem_of_nil in Hn; contradiction].
    eapply hasEdge_false; eassumption.
Qed.

Lemma wellFormedGraph_removeNode nodes edges k :
  wellFormedGraph nodes edges ->
  wellFormedGraph
    (List.filter (fun n => negb (bool_decide (id n = k))) nodes)
    (List.filter (fun e => negb (bool_decide (source e = k)) &&
                           negb (bool_decide (destination e = k))) edges).
Proof.
  intros [Hids Hne Hsrc Hdst Hpairs].
  set (keep := fun n : GraphNode => negb (bool_decide (id n = k))).
  assert (Hin : forall u, u ∈ ids nodes -> u <> k -> u ∈ ids (List.filter keep nodes)).
  { intros u Hu Huk. unfold ids in *. apply list_elem_of_fmap in Hu as (n & -> & Hn).
    apply list_elem_of_fmap. exists n. split; [reflexivity|].
    apply elem_of_List_filter. split; [assumption|]. unfold keep.
    rewrite bool_decide_eq_false_2 by assumption. reflexivity. }
  assert (Hsub : forall u, u ∈ ids (List.filter keep nodes) -> u ∈ ids nodes).
  { intros u Hu. unfold ids in *. eapply elem_of_sublist; [exact Hu|].
    apply fmap_sublist, filter_sublist. }
  unfold sourcesKnown, destinationsKnown in *. rewrite Forall_forall in Hsrc, Hdst.
  constructor.
  - eapply sublist_NoDup; [exact Hids|]. apply fmap_sublist, filter_sublist.
  - intros H. apply Hne, Hsub, H.
  - apply Forall_forall. intros e He. apply elem_of_List_filter in He as [He Hb].
    apply andb_true_iff in Hb as [H1 _]. apply negb_true_iff in H1.
    apply bool_decide_eq_false in H1. auto.
  - apply Forall_forall. intros e He. apply elem_of_List_filter in He as [He Hb].
    apply andb_true_iff in Hb as [_ H2]. apply negb_true_iff in H2.
    apply bool_decide_eq_false in H2. auto.
  - eapply sublist_NoDup; [exact Hpairs|]. apply fmap_sublist, filter_sublist.
Qed.

Lemma result_steps_nonempty_lib_bf nodes edges s :
  (0 < length (Result.steps (GraphAlgorithms.bellmanFord nodes edges s)))%nat.
Proof.
  unfold GraphAlgorithms.bellmanFord. cbn zeta.
  destruct (List.find _ edges); cbn [Result.steps]; rewrite length_app; simpl; lia.
Qed.

Lemma result_steps_nonempty_lib_dijkstra nodes edges s r :
  GraphAlgorithms.dijkstra nodes edges s = Some r ->
  (0 < length (Result.steps r))%nat.
Proof.
  unfold GraphAlgorithms.dijkstra.
  destruct (GraphAlgorithms.buildAdjacencyList nodes edges); [|discriminate].
  cbn zeta. intros [= <-]. cbn [Result.steps]. rewrite length_app. simpl. lia.
Qed.

Section Page.
Context (trim : string -> string) (splitSpaces : string -> list string)
        (parseInt : string -> option Z).

Local Abbreviation graphOk st := (wellFormedGraph (Index.nodes st) (Index.edges st)).

Lemma act_graph a st :
  graphOk st -> exists st', act trim splitSpaces parseInt a st = Some st' /\ graphOk st'.
Proof.
  intros Hwf. destruct a; simpl; try (eexists; split; [reflexivity | exact Hwf]).
  - eexists. split; [reflexivity|]. unfold InputPanel.handleAddNode. cbn zeta.
    destruct (truthy (trim nodeInput)) eqn:Ht; [|exact Hwf]. cbn [andb].
    unfold Index.handleAddNode.
    destruct (hasNode (Index.nodes st) (trim nodeInput)) eqn:Hh; [exact Hwf|].
    cbn [negb Index.setNodes Index.nodes Index.edges].
    apply wellFormedGraph_addNode; [|apply hasNode_false; exact Hh | exact Hwf].
    unfold truthy in Ht. apply negb_true_iff, bool_decide_eq_false in Ht. exact Ht.
  - eexists. split; [reflexivity|]. unfold InputPanel.handleAddEdge.
    destruct (splitSpaces (trim edgeInput)) as [|u [|v [|w [|]]]]; try exact Hwf.
    destruct (parseInt w) as [weight|]; [|exact Hwf].
    destruct (hasNode (Index.nodes st) u) eqn:Hu; [|exact Hwf].
    destruct (hasNode (Index.nodes st) v) eqn:Hv; [|exact Hwf].
    cbn [andb]. unfold Index.handleAddEdge. cbn [source destination].
    destruct (hasEdge (Index.edges st) u v) eqn:Hh; [exact Hwf|].
    cbn [negb Index.setEdges Index.nodes Index.edges].
    apply wellFormedGraph_addEdge; cbn [source destination];
      [apply hasNode_true; exact Hu | apply hasNode_true; exact Hv | exact Hh
      | exact Hwf].
  - eexists. split; [reflexivity|].
    unfold Index.handleRemoveNode. cbn [Index.setEdges Index.setNodes Index.nodes
                                         Index.edges].
    apply wellFormedGraph_removeNode. exact Hwf.
  - eexists. split; [reflexivity|].
    unfold Index.handleRemoveEdge. cbn [Index.setEdges Index.nodes Index.edges].
    eapply wellFormedGraph_sublist; [apply filterIdx_sublist | exact Hwf].
  - eexists. split; [reflexivity|]. apply wellFormedGraph_empty.
  - unfold Index.handleRun.
    destruct (negb (truthy (Index.sourceNode st)) || _); [eauto|].
    destruct (Index.selectedAlgorithm st).
    + destruct (dijkstra_is_Some (Index.nodes st) (Index.edges st)
                  (Index.sourceNode st) (wf_sources _ _ Hwf)) as [r ->].
      eexists. split; [reflexivity | exact Hwf].
    + eexists. split; [reflexivity | exact Hwf].
  - eexists. split; [reflexivity|]. unfold Index.handlePreviousStep.
    destruct (0 <? _)%nat; exact Hwf.
  - eexists. split; [reflexivity|]. unfold Index.handleNextStep.
    destruct (_ <? _)%nat; exact Hwf.
  - eexists. split; [reflexivity|]. unfold Index.tick.
    destruct (_ || _); [exact Hwf|]. destruct (_ <? _)%nat; exact Hwf.
Qed.

Lemma act_playback a st st' :
  act trim splitSpaces parseInt a st = Some st' -> playbackOk st -> playbackOk st'.
Proof.
  unfold playbackOk. intros Hact Hok. destruct a; simpl in Hact.
  - injection Hact as <-. unfold InputPanel.handleAddNode, Index.handleAddNode.
    cbn zeta. destruct (_ && _); [|exact Hok]. destruct (negb _); exact Hok.
  - injection Hact as <-. unfold InputPanel.handleAddEdge, Index.handleAddEdge.
    destruct (splitSpaces _) as [|u [|v [|w [|]]]]; try exact Hok.
    destruct (parseInt w); [|exact Hok]. destruct (_ && _); [|exact Hok].
    destruct (negb _); exact Hok.
  - injection Hact as <-. exact Hok.
  - injection Hact as <-. exact Hok.
  - injection Hact as <-. simpl. auto.
  - injection Hact as <-. exact Hok.
  - injection Hact as <-. exact Hok.
  - injection Hact as <-. exact Hok.
  - unfold Index.handleRun in Hact.
    destruct (negb (truthy (Index.sourceNode st)) || _);
      [injection Hact as <-; exact Hok|].
    destruct (Index.selectedAlgorithm st).
    + destruct (GraphAlgorithms.dijkstra _ _ _) as [r|] eqn:Hr; [|discriminate].
      injection Hact as <-. simpl. split; [reflexivity|].
      eapply result_steps_nonempty_lib_dijkstra. exact Hr.
    + injection Hact as <-. simpl. split; [reflexivity|].
      apply result_steps_nonempty_lib_bf.
  - injection Hact as <-. exact Hok.
  - injection Hact as <-. exact Hok.
  - injection Hact as <-. simpl. auto.
  - injection Hact as <-. unfold Index.handlePreviousStep.
    destruct (0 <? Index.currentStep st)%nat eqn:Hlt; [|exact Hok]. simpl.
    destruct (Index.result st).
    + destruct Hok as [Hs Hc]. split; [assumption | lia].
    + destruct Hok as (Hs & Hc & Hf). repeat split; [assumption | lia | assumption].
  - injection Hact as <-. unfold Index.handleNextStep.
    destruct (S (Index.currentStep st) <? _)%nat eqn:Hlt; [|exact Hok]. simpl.
    apply Nat.ltb_lt in Hlt.
    destruct (Index.result st); [|destruct Hok as [Hs _]; rewrite Hs in Hlt;
                                   simpl in Hlt; lia].
    destruct Hok as [Hs Hc]. split; [assumption | lia].
  - injection Hact as <-. unfold Index.tick.
    destruct (_ || _) eqn:Hg; [exact Hok|].
    apply orb_false_iff in Hg as [Hg _]. apply orb_false_iff in Hg as [Hg _].
    apply orb_false_iff in Hg as [Hrun _]. apply negb_false_iff in Hrun.
    destruct (S (Index.currentStep st) <? _)%nat eqn:Hlt; simpl.
    + apply Nat.ltb_lt in Hlt.
      destruct (Index.result st); [|destruct Hok as [Hs _]; rewrite Hs in Hlt;
                                     simpl in Hlt; lia].
      destruct Hok as [Hs Hc]. split; [assumption | lia].
    + destruct (Index.result st); [exact Hok|].
      destruct Hok as (_ & _ & Hf). congruence.
Qed.

Lemma session_invariant actions st :
  graphOk st -> playbackOk st ->
  exists st', session trim splitSpaces parseInt actions st = Some st' /\
              graphOk st' /\ playbackOk st'.
Proof.
  revert st. induction actions as [|a actions IH]; intros st Hwf Hok; simpl; [eauto|].
  destruct (act_graph a st Hwf) as (st1 & Hact & Hwf1). rewrite Hact.
  apply IH; [exact Hwf1|]. eapply act_playback; eassumption.
Qed.

Lemma session_initial actions :
  exists st, session trim splitSpaces parseInt actions Index.initialState = Some st /\
             graphOk st /\ playbackOk st.
Proof.
  apply session_invariant; [apply wellFormedGraph_empty|].
  unfold playbackOk. simpl. auto.
Qed.

End Page.

Lemma dijkstra_tree nodes edges s r :
  GraphAlgorithms.dijkstra nodes edges s = Some r ->
  treeSound nodes edges r /\ treeComplete true nodes r.
Proof.
  intros E. destruct (dijkstra_reachable nodes edges s r E) as [Hr _].
  revert E Hr. unfold GraphAlgorithms.dijkstra.
  destruct (GraphAlgorithms.buildAdjacencyList nodes edges); [|discriminate].
  cbn zeta. intros [= <-]. cbn [Result.distances Result.previous].
  apply tree_of_reachable.
Qed.

Lemma bellmanFord_tree nodes edges s :
  Result.hasNegativeCycle (GraphAlgorithms.bellmanFord nodes edges s) = false ->
  treeSound nodes edges (GraphAlgorithms.bellmanFord nodes edges s) /\
  treeComplete true nodes (GraphAlgorithms.bellmanFord nodes edges s).
Proof.
  destruct (bellmanFord_reachable nodes edges s) as [Hr _].
  revert Hr. unfold GraphAlgorithms.bellmanFord. cbn zeta.
  destruct (List.find _ edges); cbn [Result.distances Result.previous
                                       Result.hasNegativeCycle]; [discriminate|].
  intros Hr _. revert Hr. apply tree_of_reachable.
Qed.

Lemma stable_flag_false nodes edges s :
  stable edges (Result.distances (GraphAlgorithms.bellmanFord nodes edges s)) ->
  Result.hasNegativeCycle (GraphAlgorithms.bellmanFord nodes edges s) = false.
Proof.
  unfold GraphAlgorithms.bellmanFord. cbn zeta.
  destruct (List.find _ edges) as [e|] eqn:Hf; simpl; [|reflexivity].
  intros Hst. apply find_some in Hf as [Hin Himp].
  rewrite Hst in Himp by (apply list_elem_of_In; exact Hin). discriminate.
Qed.

(** The marking of an edge on the canvas, for a graph with listed,
    non-empty endpoints and a tree that is sound and complete. *)
Lemma isInShortestPath_previous nodes edges r e :
  wellFormedGraph nodes edges ->
  treeSound nodes edges r -> treeComplete true nodes r ->
  e ∈ edges ->
  GraphCanvas.isInShortestPath (Result.shortestPathTree r) e = true <->
  Result.previous r !! destination e = Some (Some (source e)).
Proof.
  intros [Hids Hne Hsrc Hdst Hpairs] [Hsound _] Hcomplete He.
  unfold GraphCanvas.isInShortestPath. rewrite hasEdge_true. split.
  - intros (e' & He' & Hs & Hd). destruct (Hsound e' He') as (_ & _ & Hp).
    rewrite Hs, Hd in Hp. exact Hp.
  - intros Hp. unfold sourcesKnown, destinationsKnown in *.
    rewrite Forall_forall in Hsrc, Hdst.
    apply (Hcomplete (destination e) (source e)); [auto | exact Hp |].
    intros Heq. apply Hne. rewrite <- Heq. auto.
Qed.

(** Whatever the user does on the page, starting from the empty page, no
    handler throws, and the graph held by the page keeps distinct,
    non-empty node ids, edges between listed nodes only, and at most one
    edge per ordered pair of nodes. *)
Theorem page_never_throws trim splitSpaces parseInt actions :
  exists st,
    session trim splitSpaces parseInt actions Index.initialState = Some st /\
    wellFormedGraph (Index.nodes st) (Index.edges st).
Proof.
  destruct (session_initial trim splitSpaces parseInt actions) as (st & Hs & Hwf & _).
  eauto.
Qed.

(** Whatever the user does, the playback stays coherent: the steps shown
    are those of the held result, the cursor points at an existing step
    whenever there are steps, and a run in progress has a result. *)
Theorem playback_cursor_in_bounds trim splitSpaces parseInt actions :
  exists st,
    session trim splitSpaces parseInt actions Index.initialState = Some st /\
    playbackOk st /\
    (Index.steps st <> [] -> is_Some (Index.currentStepData st)) /\
    (Index.isRunning st = true -> is_Some (Index.result st)).
Proof.
  destruct (session_initial trim splitSpaces parseInt actions) as (st & Hs & _ & Hok).
  exists st. split; [exact Hs|]. split; [exact Hok|].
  unfold playbackOk in Hok. unfold Index.currentStepData.
  destruct (Index.result st) as [r|].
  - destruct Hok as [_ Hc]. split; [|eauto].
    intros _. apply lookup_lt_is_Some. exact Hc.
  - destruct Hok as (Hs' & _ & Hf). split; [congruence|]. congruence.
Qed.

Lemma handleRun_runs st :
  truthy (Index.sourceNode st) = true -> Index.nodes st <> [] ->
  Index.handleRun st
  = match
      match Index.selectedAlgorithm st with
      | Dijkstra =>
          GraphAlgorithms.dijkstra (Index.nodes st) (Index.edges st)
                                   (Index.sourceNode st)
      | BellmanFord =>
          Some (GraphAlgorithms.bellmanFord (Index.nodes st) (Index.edges st)
                                            (Index.sourceNode st))
      end
    with
    | Some r =>
        Some (Index.mk (Index.nodes st) (Index.edges st) (Index.selectedAlgorithm st)
                (Index.sourceNode st) true false 0 (Some r) (Result.steps r)
                (Index.manualMode st))
    | None => None
    end.
Proof.
  intros Hs Hn. unfold Index.handleRun. rewrite Hs.
  destruct (Index.nodes st); [contradiction|]. reflexivity.
Qed.

(** On a graph built on the page, with plain node ids, non-negative
    weights and exact sums, pressing Start shows the same distances under
    either algorithm: both runs succeed, Bellman-Ford reports no negative
    cycle, and the distances are the weights of the lightest walks from the
    chosen source. *)
Theorem start_shows_shortest_distances trim splitSpaces parseInt actions st :
  session trim splitSpaces parseInt actions Index.initialState = Some st ->
  truthy (Index.sourceNode st) = true ->
  Index.nodes st <> [] ->
  nonNegative (Index.edges st) ->
  plainIds (Index.nodes st) ->
  exactSums (Index.nodes st) (Index.edges st) ->
  exists std stb rd rb,
    Index.handleRun (Index.setSelectedAlgorithm Dijkstra st) = Some std /\
    Index.result std = Some rd /\
    Index.handleRun (Index.setSelectedAlgorithm BellmanFord st) = Some stb /\
    Index.result stb = Some rb /\
    Result.distances rd = Result.distances rb /\
    Result.hasNegativeCycle rb = false /\
    shortestWalks (Index.nodes st) (Index.edges st) (Index.sourceNode st)
                  (Result.distances rd).
Proof.
  intros Hsess Hsrc Hnodes Hnonneg _ _.
  destruct (session_initial trim splitSpaces parseInt actions) as (st' & Hs & Hwf & _).
  rewrite Hsess in Hs. injection Hs as <-.
  destruct (dijkstra_distances (Index.nodes st) (Index.edges st) (Index.sourceNode st)
              (wf_sources _ _ Hwf) (wf_nonempty _ _ Hwf) Hnonneg)
    as (rd & Hrd & Hreach & Hstable & Hwalks).
  pose proof (stable_is_bellmanFord _ _ _ Hnonneg _ _ Hreach Hstable Hwalks) as Heq.
  rewrite !handleRun_runs by assumption.
  cbn [Index.setSelectedAlgorithm Index.selectedAlgorithm Index.nodes Index.edges
       Index.sourceNode].
  rewrite Hrd. do 4 eexists.
  split; [reflexivity|]. split; [reflexivity|]. split; [reflexivity|].
  split; [reflexivity|]. split; [exact Heq|]. split.
  - apply stable_flag_false. rewrite <- Heq. exact Hstable.
  - eapply stable_shortestWalks; eassumption.
Qed.

Lemma start_shows_shortest_distances_witness :
  let st := Index.mk [mkNode "A"; mkNode "B"] [mkEdge "A" "B" 2] Dijkstra "A"
                     false false 0 None [] false in
  exists std stb rd rb,
    Index.handleRun (Index.setSelectedAlgorithm Dijkstra st) = Some std /\
    Index.result std = Some rd /\
    Index.handleRun (Index.setSelectedAlgorithm BellmanFord st) = Some stb /\
    Index.result stb = Some rb /\
    Result.distances rd = Result.distances rb /\
    Result.hasNegativeCycle rb = false /\
    shortestWalks (Index.nodes st) (Index.edges st) (Index.sourceNode st)
                  (Result.distances rd).
Proof.
  apply (start_shows_shortest_distances
           (fun x => x)
           (fun x => if bool_decide (x = "A B 2") then ["A"; "B"; "2"] else [])
           (fun x => if bool_decide (x = "2") then Some 2 else None)
           [AddNode "A"; AddNode "B"; AddEdge "A B 2"; ChooseSource "A"]).
  - vm_compute. reflexivity.
  - reflexivity.
  - discriminate.
  - intros e He. cbn in He.
    repeat (apply elem_of_cons in He as [->|He]; [simpl; lia|]).
    inversion He.
  - unfold plainIds. cbn [Index.nodes ids fmap list_fmap id]. plain_keys.
  - unfold exactSums. cbn [Index.nodes Index.edges]. exact_sums.
Defined.

(** After Start on a graph built on the page, the first step is shown and,
    unless a negative cycle was reported, the canvas marks an edge as part
    of the shortest-path tree exactly when its tail is the recorded
    predecessor of its head. *)
Theorem canvas_marks_predecessor_edges trim splitSpaces parseInt actions st :
  session trim splitSpaces parseInt actions Index.initialState = Some st ->
  truthy (Index.sourceNode st) = true ->
  Index.nodes st <> [] ->
  exists st' r,
    Index.handleRun st = Some st' /\
    Index.result st' = Some r /\
    Index.isRunning st' = true /\
    Index.currentStepData st' = head (Result.steps r) /\
    (Result.hasNegativeCycle r = false ->
     forall e, e ∈ Index.edges st' ->
       GraphCanvas.isInShortestPath (Result.shortestPathTree r) e = true <->
       Result.previous r !! destination e = Some (Some (source e))).
Proof.
  intros Hsess Hsrc Hnodes.
  destruct (session_initial trim splitSpaces parseInt actions) as (st' & Hs & Hwf & _).
  rewrite Hsess in Hs. injection Hs as <-.
  rewrite handleRun_runs by assumption.
  destruct (Index.selectedAlgorithm st).
  - destruct (dijkstra_is_Some (Index.nodes st) (Index.edges st)
                (Index.sourceNode st) (wf_sources _ _ Hwf)) as [r Hr].
    rewrite Hr. do 2 eexists. split; [reflexivity|]. split; [reflexivity|].
    split; [reflexivity|]. split.
    { unfold Index.currentStepData. cbn. destruct (Result.steps r); reflexivity. }
    intros _ e He. cbn in He.
    destruct (dijkstra_tree _ _ _ _ Hr) as [Hsound Hcomplete].
    eapply isInShortestPath_previous; eassumption.
  - do 2 eexists. split; [reflexivity|]. split; [reflexivity|].
    split; [reflexivity|]. split.
    { unfold Index.currentStepData. cbn.
      destruct (Result.steps _); reflexivity. }
    intros Hflag e He. cbn in He.
    destruct (bellmanFord_tree _ _ _ Hflag) as [Hsound Hcomplete].
    eapply isInShortestPath_previous; eassumption.
Qed.

Lemma canvas_marks_predecessor_edges_witness :
  let st := Index.mk [mkNode "A"; mkNode "B"] [mkEdge "A" "B" 2] Dijkstra "A"
                     false false 0 None [] false in
  exists st' r,
    Index.handleRun st = Some st' /\
    Index.result st' = Some r /\
    Index.isRunning st' = true /\
    Index.currentStepData st' = head (Result.steps r) /\
    (Result.hasNegativeCycle r = false ->
     forall e, e ∈ Index.edges st' ->
       GraphCanvas.isInShortestPath (Result.shortestPathTree r) e = true <->
       Result.previous r !! destination e = Some (Some (source e))).
Proof.
  apply (canvas_marks_predecessor_edges
           (fun x => x)
           (fun x => if bool_decide (x = "A B 2") then ["A"; "B"; "2"] else [])
           (fun x => if bool_decide (x = "2") then Some 2 else None)
           [AddNode "A"; AddNode "B"; AddEdge "A B 2"; ChooseSource "A"]).
  - vm_compute. reflexivity.
  - reflexivity.
  - discriminate.
Defined.

(** ** Negative cycles *)

Section Cycles.
Context (nodes : list GraphNode) (edges : list GraphEdge).

Lemma trail_walk a v x l :
  trail nodes edges a v x l -> walk nodes edges a v x (length l - 1).
Proof.
  induction 1 as [Ha|e x l Ht IH He Hd].
  - constructor. exact Ha.
  - assert (Hl : (0 < length l)%nat) by (destruct Ht; simpl; lia).
    replace (length (destination e :: l) - 1)%nat with (S (length l - 1))
      by (simpl; lia).
    constructor; assumption.
Qed.

Lemma walk_trail a v x k :
  walk nodes edges a v x k -> exists l, trail nodes edges a v x l /\ length l = S k.
Proof.
  induction 1 as [Ha|e x k Hw (l & Ht & Hl) He Hd].
  - exists [a]. split; [constructor; exact Ha | reflexivity].
  - exists (destination e :: l). split; [constructor; assumption|]. simpl. lia.
Qed.

Lemma trail_listed a v x l u :
  trail nodes edges a v x l -> u ∈ l -> u ∈ ids nodes.
Proof.
  induction 1 as [Ha|e x l Ht IH He Hd]; intros Hu.
  - apply elem_of_cons in Hu as [->|Hn]; [exact Ha|].
    apply elem_of_nil in Hn. contradiction.
  - apply elem_of_cons in Hu as [->|Hu]; auto.
Qed.

Lemma trail_end_listed a v x l : trail nodes edges a v x l -> v ∈ ids nodes.
Proof. destruct 1; assumption. Qed.

(** A trail can be cut at any node it visits. *)
Lemma trail_split a v x l u :
  trail nodes edges a v x l -> u ∈ l ->
  exists x1 l1 c j,
    trail nodes edges a u x1 l1 /\ walk nodes edges u v c j /\ x = x1 + c /\
    (NoDup l -> NoDup l1).
Proof.
  induction 1 as [Ha|e x l Ht IH He Hd]; intros Hu.
  - apply elem_of_cons in Hu as [->|Hn]; [|apply elem_of_nil in Hn; contradiction].
    exists 0, [a], 0, 0%nat.
    split; [constructor; exact Ha|]. split; [constructor; exact Ha|]. auto.
  - destruct (decide (u = destination e)) as [->|Hne].
    + exists (x + weight e), (destination e :: l), 0, 0%nat.
      split; [constructor; assumption|]. split; [constructor; assumption|].
      split; [lia | auto].
    + apply elem_of_cons in Hu as [?|Hu]; [contradiction|].
      destruct (IH Hu) as (x1 & l1 & c & j & Ht1 & Hw & -> & Hnd).
      exists x1, l1, (c + weight e), (S j).
      split; [exact Ht1|]. split; [constructor; assumption|].
      split; [lia|]. intros Hl. apply Hnd. apply NoDup_cons in Hl as [_ Hl]. exact Hl.
Qed.

(** Either a negative cycle shows, or the trail can be replaced by one
    that is no heavier and visits no node twice. *)
Lemma trail_simplify s v x l :
  trail nodes edges s v x l ->
  negativeCycle nodes edges s \/
  exists x' l', trail nodes edges s v x' l' /\ x' <= x /\ NoDup l'.
Proof.
  induction 1 as [Hs|e x l Ht IH He Hd].
  - right. exists 0, [s]. split; [constructor; exact Hs|]. split; [lia|].
    apply NoDup_singleton.
  - destruct IH as [Hneg|(x' & l' & Ht' & Hle & Hnd)]; [left; exact Hneg|].
    destruct (decide (destination e ∈ l')) as [Hin|Hnin].
    + destruct (trail_split _ _ _ _ _ Ht' Hin) as (x1 & l1 & c & j & Ht1 & Hw & -> & Hnd1).
      destruct (decide (c + weight e < 0)) as [Hc|Hc].
      * left. exists (destination e), x1, (length l1 - 1)%nat, (c + weight e), (S j).
        split; [apply trail_walk; exact Ht1|]. split; [|exact Hc].
        constructor; assumption.
      * right. exists x1, l1. split; [exact Ht1|]. split; [lia | auto].
    + right. exists (x' + weight e), (destination e :: l').
      split; [constructor; assumption|]. split; [lia|].
      apply NoDup_cons. auto.
Qed.

Lemma trail_simple_length a v x l :
  trail nodes edges a v x l -> NoDup l -> (length l <= length nodes)%nat.
Proof.
  intros Ht Hnd.
  pose proof (size_list_to_set_le (ids nodes)) as Hle.
  unfold ids in Hle at 2. rewrite length_fmap in Hle.
  rewrite <- (size_list_to_set (C := gset string) l) by exact Hnd.
  etransitivity; [|exact Hle].
  apply subseteq_size. intros u Hu. apply elem_of_list_to_set in Hu.
  apply elem_of_list_to_set. eapply trail_listed; eassumption.
Qed.

Context (s : string).

(** A stable reachable snapshot is below every walk from any node of finite
    distance. *)
Lemma stable_along_walk d p a x0 v y k :
  reachable nodes edges s d p -> stable edges d ->
  d !! a = Some (Fin x0) ->
  walk nodes edges a v y k ->
  exists z, d !! v = Some (Fin z) /\ z <= x0 + y.
Proof.
  intros Hr Hst Ha Hw. induction Hw as [_|e x k Hw IH He Hdest].
  - exists x0. split; [assumption | lia].
  - destruct IH as (z & Hz & Hle).
    destruct (reachable_lookup nodes edges s d p (destination e) Hr Hdest)
      as (b & Hb & HnaN).
    specialize (Hst e He). unfold improves in Hst.
    rewrite (get_lookup _ _ _ Hz), (get_lookup _ _ _ Hb) in Hst. simpl in Hst.
    destruct b as [zb| |]; [| |congruence]; simpl in Hst; [|discriminate].
    apply bool_decide_eq_false in Hst. exists zb. split; [assumption | lia].
Qed.

Lemma stable_no_negativeCycle d p :
  reachable nodes edges s d p -> stable edges d -> ~ negativeCycle nodes edges s.
Proof.
  intros Hr Hst (v & x & k & c & j & Hw & Hc & Hneg).
  destruct (stable_below_walk_from nodes edges s d p) with (v := v) (y := x) (k := k)
    (x0 := 0) as (z & Hz & _); try assumption.
  { eapply stable_source_zero; try eassumption. eapply walk_source; eassumption. }
  destruct (stable_along_walk d p v z v c j Hr Hst Hz Hc) as (z' & Hz' & Hle).
  rewrite Hz in Hz'. simplify_eq. lia.
Qed.

Lemma improving_edge_negativeCycle d p e :
  reachable nodes edges s d p ->
  boundedBy nodes edges s (length nodes - 1) d ->
  e ∈ edges -> improves d e = true ->
  negativeCycle nodes edges s.
Proof.
  intros Hr Hb He Himp. unfold improves in Himp.
  destruct (jsLt_true_l _ _ Himp) as [y Hy].
  apply jsAdd_Fin_inv in Hy as Hx. destruct Hx as (x & Hx & ->).
  rewrite Hx in Himp. cbn [jsAdd] in Himp.
  pose proof (jsLt_true_r _ _ Himp) as HnaN.
  destruct (get_not_NaN_lookup _ _ HnaN) as [b Hb'].
  pose proof (reachable_listed _ _ _ _ _ _ _ Hr Hb') as Hdest.
  apply get_Fin_lookup in Hx.
  destruct (reachable_walk nodes edges s _ _ _ _ Hr Hx) as [k Hw].
  assert (Hw' : walk nodes edges s (destination e) (x + weight e) (S k))
    by (constructor; assumption).
  destruct (walk_trail _ _ _ _ Hw') as (l & Ht & _).
  destruct (trail_simplify _ _ _ _ Ht) as [Hneg|(x' & l' & Ht' & Hle & Hnd)];
    [exact Hneg|].
  exfalso.
  pose proof (trail_simple_length _ _ _ _ Ht' Hnd) as Hlen.
  destruct (Hb _ _ _ (trail_walk _ _ _ _ Ht')) as (z & Hz & Hzle); [lia|].
  rewrite (get_lookup _ _ _ Hz) in Himp. simpl in Himp.
  apply bool_decide_eq_true in Himp. lia.
Qed.

Lemma bellmanFord_flag_negativeCycle :
  Result.hasNegativeCycle (GraphAlgorithms.bellmanFord nodes edges s) = true <->
  negativeCycle nodes edges s.
Proof.
  destruct (bellmanFord_reachable nodes edges s) as [Hr _].
  split.
  - intros Hflag.
    assert (Himp : exists e, e ∈ edges /\
               improves (Result.distances (GraphAlgorithms.bellmanFord nodes edges s)) e
               = true).
    { revert Hflag. unfold GraphAlgorithms.bellmanFord. cbn zeta.
      destruct (List.find _ edges) as [e|] eqn:Hf; simpl; [|discriminate].
      intros _. apply find_some in Hf as [Hin Hi]. exists e.
      split; [apply list_elem_of_In; exact Hin | exact Hi]. }
    destruct Himp as (e & He & Hi).
    destruct (bellmanFord_distances nodes edges s) as [Hst|Hb].
    + rewrite (Hst e He) in Hi. discriminate.
    + eapply improving_edge_negativeCycle; eassumption.
  - intros Hneg.
    destruct (Result.hasNegativeCycle (GraphAlgorithms.bellmanFord nodes edges s))
      eqn:Hflag; [reflexivity|].
    exfalso. eapply stable_no_negativeCycle; [exact Hr | | exact Hneg].
    apply bellmanFord_flag_stable. exact Hflag.
Qed.

End Cycles.

(** On inputs with plain keys and exact sums Bellman-Ford, in both
    variants, reports a negative cycle exactly when one exists: when some
    node reached by a walk from the source lies on a closed walk of
    negative total weight. *)
Theorem bellmanFord_detects_negative_cycles nodes edges s :
  plainKeys nodes edges ->
  exactSums nodes edges ->
  (Result.hasNegativeCycle (GraphAlgorithms.bellmanFord nodes edges s) = true <->
   negativeCycle nodes edges s) /\
  (Result.hasNegativeCycle (Part001.bellmanFord nodes edges s) = true <->
   negativeCycle nodes edges s).
Proof.
  intros _ _.
  destruct (bellmanFord_variants nodes edges s) as (_ & _ & Hflag).
  cbv zeta in Hflag. rewrite Hflag.
  split; apply bellmanFord_flag_negativeCycle.
Qed.

Lemma bellmanFord_detects_negative_cycles_witness :
  let nodes := [mkNode "A"; mkNode "B"; mkNode "C"] in
  let edges := [mkEdge "A" "B" 1; mkEdge "B" "C" (-2); mkEdge "C" "B" 1] in
  (Result.hasNegativeCycle (GraphAlgorithms.bellmanFord nodes edges "A") = true <->
   negativeCycle nodes edges "A") /\
  (Result.hasNegativeCycle (Part001.bellmanFord nodes edges "A") = true <->
   negativeCycle nodes edges "A").
Proof.
  apply (bellmanFord_detects_negative_cycles
           [mkNode "A"; mkNode "B"; mkNode "C"]
           [mkEdge "A" "B" 1; mkEdge "B" "C" (-2); mkEdge "C" "B" 1] "A").
  - plain_keys.
  - exact_sums.
Defined.

(** ** The predecessors form a tree rooted at the source *)

Section Rooted.
Context (nodes : list GraphNode) (edges : list GraphEdge) (s : string).

(** One relaxation: [v] gets the new distance [y] and the predecessor [u]. *)
Context (d : gmap string JsNum) (p : gmap string (option string)).
Context (u v : string) (y : Z).
Context (Hlisted : forall k a, d !! k = Some a -> k ∈ ids nodes).
Context (Hlower : forall xv, d !! v = Some (Fin xv) -> y < xv).

Local Abbreviation d' := (<[v := Fin y]> d).
Local Abbreviation p' := (<[v := Some u]> p).

(** A node stays rooted unless its path passes through [v]. *)
Lemma rooted_relax_avoid t :
  rooted edges s d p t ->
  rooted edges s d' p' t \/
  exists c j xv xt,
    walk nodes edges v t c j /\ d !! v = Some (Fin xv) /\ d !! t = Some (Fin xt) /\
    xv + c <= xt.
Proof.
  induction 1 as [x Hp Hd|e xu xv Hr IH He Hp Hxu Hxv Hle].
  - destruct (decide (s = v)) as [<-|Hne].
    + right. exists 0, 0%nat, x, x.
      split; [constructor; eapply Hlisted; eassumption|]. repeat split; auto. lia.
    + left. apply (rooted_root _ _ _ _ x); rewrite lookup_insert_ne by congruence;
        assumption.
  - destruct (decide (destination e = v)) as [<-|Hne].
    + right. exists 0, 0%nat, xv, xv.
      split; [constructor; eapply Hlisted; eassumption|]. repeat split; auto. lia.
    + destruct IH as [IH|(c & j & xv0 & xt & Hw & Hv & Ht & Hc)].
      * left. destruct (decide (source e = v)) as [Hsv|Hsv].
        -- apply (rooted_step _ _ _ _ e y xv); try assumption.
           ++ rewrite lookup_insert_ne by congruence. assumption.
           ++ rewrite Hsv. apply lookup_insert_eq.
           ++ rewrite lookup_insert_ne by congruence. assumption.
           ++ rewrite Hsv in Hxu. specialize (Hlower _ Hxu). lia.
        -- apply (rooted_step _ _ _ _ e xu xv); try assumption;
             rewrite lookup_insert_ne by congruence; assumption.
      * right. rewrite Hxu in Ht. injection Ht as <-.
        exists (c + weight e), (S j), xv0, xv.
        split; [constructor; [assumption..|eapply Hlisted; eassumption]|].
        repeat split; auto. lia.
Qed.

(** Once [v] is rooted again, so is every node that was. *)
Lemma rooted_relax_given t :
  rooted edges s d' p' v ->
  rooted edges s d p t -> rooted edges s d' p' t.
Proof.
  intros Hv. induction 1 as [x Hp Hd|e xu xv Hr IH He Hp Hxu Hxv Hle].
  - destruct (decide (s = v)) as [<-|Hne]; [exact Hv|].
    apply (rooted_root _ _ _ _ x); rewrite lookup_insert_ne by congruence; assumption.
  - destruct (decide (destination e = v)) as [<-|Hne]; [exact Hv|].
    destruct (decide (source e = v)) as [Hsv|Hsv].
    + apply (rooted_step _ _ _ _ e y xv); try assumption.
      * rewrite lookup_insert_ne by congruence. assumption.
      * rewrite Hsv. apply lookup_insert_eq.
      * rewrite lookup_insert_ne by congruence. assumption.
      * rewrite Hsv in Hxu. specialize (Hlower _ Hxu). lia.
    + apply (rooted_step _ _ _ _ e xu xv); try assumption;
        rewrite lookup_insert_ne by congruence; assumption.
Qed.

End Rooted.

Section RootedRuns.
Context (nodes : list GraphNode) (edges : list GraphEdge) (s : string).
Context (Hnocycle : ~ negativeCycle nodes edges s).

(** Without a negative cycle, every snapshot that the engine can pass
    through has all its nodes of finite distance rooted. *)
Lemma reachable_rooted d p :
  reachable nodes edges s d p ->
  forall t x, d !! t = Some (Fin x) -> rooted edges s d p t.
Proof.
  induction 1 as [|d p e0 x0 Hr IH He0 Hsrc Hlt]; intros t x Ht.
  - rewrite initDistances_lookup in Ht.
    destruct (decide (t ∈ ids nodes)) as [Hin|]; [|discriminate].
    destruct (bool_decide_reflect (t = s)) as [->|]; [|discriminate].
    apply (rooted_root _ _ _ _ 0).
    + rewrite initPrevious_lookup, decide_True by assumption. reflexivity.
    + rewrite initDistances_lookup, decide_True by assumption.
      rewrite bool_decide_eq_true_2 by reflexivity. reflexivity.
  - apply get_Fin_lookup in Hsrc.
    pose proof (jsLt_true_r _ _ Hlt) as HnaN.
    destruct (get_not_NaN_lookup _ _ HnaN) as [b Hb].
    pose proof (reachable_listed _ _ _ _ _ _ _ Hr Hb) as Hdest.
    assert (Hlisted : forall k a, d !! k = Some a -> k ∈ ids nodes).
    { intros k a. apply (reachable_listed _ _ _ _ _ _ _ Hr). }
    assert (Hlower : forall xv, d !! destination e0 = Some (Fin xv) ->
                                x0 + weight e0 < xv).
    { intros xv Hxv. rewrite (get_lookup _ _ _ Hxv) in Hlt. simpl in Hlt.
      apply bool_decide_eq_true in Hlt. exact Hlt. }
    assert (Hu : rooted edges s (<[destination e0 := Fin (x0 + weight e0)]> d)
                   (<[destination e0 := Some (source e0)]> p) (source e0)).
    { destruct (rooted_relax_avoid nodes edges s d p (source e0) (destination e0)
                  (x0 + weight e0) Hlisted Hlower (source e0) (IH _ _ Hsrc))
        as [Hleft|(c & j & xv & xt & Hw & Hv & Hxt & Hc)]; [exact Hleft|].
      exfalso. apply Hnocycle.
      destruct (reachable_walk nodes edges s _ _ _ _ Hr Hv) as [k Hk].
      exists (destination e0), xv, k, (c + weight e0), (S j).
      split; [exact Hk|]. split; [constructor; assumption|].
      rewrite Hsrc in Hxt. injection Hxt as <-. specialize (Hlower _ Hv). lia. }
    assert (Hne : source e0 <> destination e0).
    { intros Heq. apply Hnocycle.
      destruct (reachable_walk nodes edges s _ _ _ _ Hr Hsrc) as [k Hk].
      exists (destination e0), x0, k, (0 + weight e0), 1%nat.
      split; [rewrite <- Heq; exact Hk|]. split.
      - rewrite <- Heq at 1. constructor; [|assumption..].
        constructor. rewrite Heq. exact Hdest.
      - rewrite <- Heq in Hlower. specialize (Hlower _ Hsrc). lia. }
    assert (Hv : rooted edges s (<[destination e0 := Fin (x0 + weight e0)]> d)
                   (<[destination e0 := Some (source e0)]> p) (destination e0)).
    { apply (rooted_step _ _ _ _ e0 x0 (x0 + weight e0)); try assumption.
      - apply lookup_insert_eq.
      - rewrite lookup_insert_ne by congruence. exact Hsrc.
      - apply lookup_insert_eq.
      - lia. }
    destruct (decide (t = destination e0)) as [->|Hnt]; [exact Hv|].
    rewrite lookup_insert_ne in Ht by congruence.
    eapply rooted_relax_given; eauto.
Qed.

(** In a stable snapshot the paths weigh exactly the distances. *)
Lemma stable_treePaths d p :
  reachable nodes edges s d p -> stable edges d -> treePaths edges s d p.
Proof.
  intros Hr Hst t x Ht.
  pose proof (reachable_rooted d p Hr t x Ht) as Hrooted.
  pose proof (stable_predecessorEdge _ _ _ _ _ Hr Hst) as Htight.
  revert x Ht. induction Hrooted as [x0 Hp Hd|e xu xv Hroot IH He Hp Hxu Hxv Hle];
    intros x Ht.
  - pose proof (reachable_listed _ _ _ _ _ _ _ Hr Hd) as Hs.
    rewrite (stable_source_zero nodes edges s d p Hr Hst Hs) in Ht.
    injection Ht as <-. exists 0%nat. constructor. exact Hp.
  - destruct (IH xu Hxu) as [k Hk].
    destruct (Htight _ _ Hp) as (e' & xu' & xv' & He' & Hs' & Hd' & Hxu' & Hxv' & Heq).
    rewrite Hxu in Hxu'. rewrite Ht in Hxv'. simplify_eq.
    exists (S k). rewrite <- Hd'. apply treePath_step; [|assumption|].
    + rewrite Hs'. exact Hk.
    + rewrite Hs', Hd'. exact Hp.
Qed.

End RootedRuns.

Lemma nonNegative_no_negativeCycle nodes edges s :
  nonNegative edges -> ~ negativeCycle nodes edges s.
Proof.
  intros Hnonneg (v & x & k & c & j & _ & Hc & Hneg).
  pose proof (walk_nonneg nodes edges v Hnonneg _ _ _ Hc). lia.
Qed.

(** On inputs with plain keys and exact sums, when Bellman-Ford reports no
    negative cycle, in both variants the recorded predecessors form a tree
    of shortest paths: from every node of finite distance they lead back to
    the source, which has no predecessor, over input edges whose weights
    add up to that node's distance. *)
Theorem bellmanFord_predecessors_lead_to_source nodes edges s :
  plainKeys nodes edges ->
  exactSums nodes edges ->
  Result.hasNegativeCycle (GraphAlgorithms.bellmanFord nodes edges s) = false ->
  treePaths edges s
    (Result.distances (GraphAlgorithms.bellmanFord nodes edges s))
    (Result.previous (GraphAlgorithms.bellmanFord nodes edges s)) /\
  treePaths edges s
    (Result.distances (Part001.bellmanFord nodes edges s))
    (Result.previous (Part001.bellmanFord nodes edges s)).
Proof.
  intros _ _.
  intros Hflag.
  assert (Hno : ~ negativeCycle nodes edges s).
  { intros Hneg. apply (bellmanFord_flag_negativeCycle nodes edges s) in Hneg.
    congruence. }
  destruct (bellmanFord_reachable nodes edges s) as [Hr _].
  pose proof (bellmanFord_flag_stable nodes edges s Hflag) as Hst.
  destruct (bellmanFord_variants nodes edges s) as (Hd & Hp & _).
  cbv zeta in Hd, Hp. rewrite Hd, Hp.
  split; eapply stable_treePaths; eassumption.
Qed.

Lemma bellmanFord_predecessors_lead_to_source_witness :
  let nodes := [mkNode "A"; mkNode "B"; mkNode "C"] in
  let edges := [mkEdge "A" "B" 4; mkEdge "A" "C" 1; mkEdge "C" "B" (-2)] in
  treePaths edges "A"
    (Result.distances (GraphAlgorithms.bellmanFord nodes edges "A"))
    (Result.previous (GraphAlgorithms.bellmanFord nodes edges "A")) /\
  treePaths edges "A"
    (Result.distances (Part001.bellmanFord nodes edges "A"))
    (Result.previous (Part001.bellmanFord nodes edges "A")).
Proof.
  apply (bellmanFord_predecessors_lead_to_source
           [mkNode "A"; mkNode "B"; mkNode "C"]
           [mkEdge "A" "B" 4; mkEdge "A" "C" 1; mkEdge "C" "B" (-2)] "A");
    try solve [plain_keys]; try solve [exact_sums].
  vm_compute. reflexivity.
Defined.

(** The same for Dijkstra under non-negative weights, on inputs with plain
    keys and exact sums. *)
Theorem dijkstra_predecessors_lead_to_source nodes edges s :
  plainKeys nodes edges ->
  exactSums nodes edges ->
  nonNegative edges ->
  treePaths edges s
    (Result.distances (Part001.dijkstra nodes edges s))
    (Result.previous (Part001.dijkstra nodes edges s)) /\
  match GraphAlgorithms.dijkstra nodes edges s with
  | Some r =>
      EmptyString ∉ ids nodes ->
      treePaths edges s (Result.distances r) (Result.previous r)
  | None => ~ sourcesKnown nodes edges
  end.
Proof.
  intros _ _.
  intros Hnonneg.
  pose proof (nonNegative_no_negativeCycle nodes edges s Hnonneg) as Hno.
  split.
  - destruct (part001_dijkstra_distances nodes edges s Hnonneg) as (Hr & Hst & _).
    eapply stable_treePaths; eassumption.
  - destruct (GraphAlgorithms.dijkstra nodes edges s) as [r|] eqn:E;
      [|apply (dijkstra_None nodes edges s); exact E].
    intros Hempty.
    assert (Hsrc : sourcesKnown nodes edges).
    { destruct (decide (sourcesKnown nodes edges)) as [|Hn]; [assumption|].
      apply (dijkstra_None nodes edges s) in Hn. congruence. }
    destruct (dijkstra_distances nodes edges s Hsrc Hempty Hnonneg)
      as (r' & Hr' & Hreach & Hst & _).
    rewrite E in Hr'. injection Hr' as <-.
    eapply stable_treePaths; eassumption.
Qed.

Lemma dijkstra_predecessors_lead_to_source_witness :
  let nodes := [mkNode "A"; mkNode "B"; mkNode "C"] in
  let edges := [mkEdge "A" "B" 4; mkEdge "A" "C" 1; mkEdge "C" "B" 1] in
  treePaths edges "A"
    (Result.distances (Part001.dijkstra nodes edges "A"))
    (Result.previous (Part001.dijkstra nodes edges "A")) /\
  match GraphAlgorithms.dijkstra nodes edges "A" with
  | Some r =>
      EmptyString ∉ ids nodes ->
      treePaths edges "A" (Result.distances r) (Result.previous r)
  | None => ~ sourcesKnown nodes edges
  end.
Proof.
  apply (dijkstra_predecessors_lead_to_source
           [mkNode "A"; mkNode "B"; mkNode "C"]
           [mkEdge "A" "B" 4; mkEdge "A" "C" 1; mkEdge "C" "B" 1] "A");
    try solve [plain_keys]; try solve [exact_sums].
  intros e He. cbn in He.
  repeat (apply elem_of_cons in He as [->|He]; [simpl; lia|]).
  inversion He.
Defined.

(** ** The tree drawn on the canvas *)

Lemma NoDup_fmap_eq {A B} (f : A -> B) (l : list A) x y :
  NoDup (f <$> l) -> x ∈ l -> y ∈ l -> f x = f y -> x = y.
Proof.
  induction l as [|a l IH]; intros Hnd Hx Hy Heq.
  - apply elem_of_nil in Hx. contradiction.
  - rewrite fmap_cons in Hnd. apply NoDup_cons in Hnd as [Ha Hnd].
    apply elem_of_cons in Hx as [->|Hx]; apply elem_of_cons in Hy as [->|Hy].
    + reflexivity.
    + exfalso. apply Ha. rewrite Heq. apply list_elem_of_fmap. eauto.
    + exfalso. apply Ha. rewrite <- Heq. apply list_elem_of_fmap. eauto.
    + auto.
Qed.

(** In a graph built on the page, the returned tree holds every input edge
    that joins a recorded predecessor to its node. *)
Lemma tree_holds_predecessor_edges nodes edges r e :
  wellFormedGraph nodes edges ->
  treeSound nodes edges r -> treeComplete true nodes r ->
  e ∈ edges ->
  Result.previous r !! destination e = Some (Some (source e)) ->
  e ∈ Result.shortestPathTree r.
Proof.
  intros [Hids Hne Hsrc Hdst Hpairs] [Hsound _] Hcomplete He Hp.
  unfold sourcesKnown, destinationsKnown in *. rewrite Forall_forall in Hsrc, Hdst.
  destruct (Hcomplete (destination e) (source e)) as (e' & He' & Hs & Hd);
    [auto | exact Hp | |].
  { intros Heq. apply Hne. rewrite <- Heq. auto. }
  destruct (Hsound e' He') as (Hin & _).
  assert (e' = e) as <-; [|exact He'].
  eapply (NoDup_fmap_eq (fun e => (source e, destination e))); try eassumption.
  cbn beta. congruence.
Qed.

Lemma treePaths_in_tree nodes edges s r :
  wellFormedGraph nodes edges ->
  treeSound nodes edges r -> treeComplete true nodes r ->
  treePaths edges s (Result.distances r) (Result.previous r) ->
  treePaths (Result.shortestPathTree r) s (Result.distances r) (Result.previous r).
Proof.
  intros Hwf Hsound Hcomplete Hpaths v x Hv.
  destruct (Hpaths v x Hv) as [k Hk]. exists k. clear Hv.
  induction Hk as [Hroot|e x k Hk IH He Hp]; [constructor; exact Hroot|].
  constructor; [exact IH | | exact Hp].
  eapply tree_holds_predecessor_edges; eassumption.
Qed.

(** On a graph built on the page, with plain node ids, non-negative
    weights and exact sums, pressing Start with either algorithm returns a
    tree of shortest paths: the tree holds input edges only, and from every
    node of finite distance the recorded predecessors lead back to the
    chosen source over tree edges whose weights add up to that node's
    distance. *)
Theorem start_draws_shortest_path_tree trim splitSpaces parseInt actions st :
  session trim splitSpaces parseInt actions Index.initialState = Some st ->
  truthy (Index.sourceNode st) = true ->
  Index.nodes st <> [] ->
  nonNegative (Index.edges st) ->
  plainIds (Index.nodes st) ->
  exactSums (Index.nodes st) (Index.edges st) ->
  exists st' r,
    Index.handleRun st = Some st' /\
    Index.result st' = Some r /\
    (forall e, e ∈ Result.shortestPathTree r -> e ∈ Index.edges st) /\
    treePaths (Result.shortestPathTree r) (Index.sourceNode st)
              (Result.distances r) (Result.previous r).
Proof.
  intros Hsess Hsrc Hnodes Hnonneg _ _.
  destruct (session_initial trim splitSpaces parseInt actions) as (st' & Hs & Hwf & _).
  rewrite Hsess in Hs. injection Hs as <-.
  pose proof (nonNegative_no_negativeCycle (Index.nodes st) (Index.edges st)
                (Index.sourceNode st) Hnonneg) as Hno.
  rewrite handleRun_runs by assumption.
  destruct (Index.selectedAlgorithm st).
  - destruct (dijkstra_distances (Index.nodes st) (Index.edges st) (Index.sourceNode st)
                (wf_sources _ _ Hwf) (wf_nonempty _ _ Hwf) Hnonneg)
      as (r & Hr & Hreach & Hstable & _).
    rewrite Hr. do 2 eexists. split; [reflexivity|]. split; [reflexivity|].
    destruct (dijkstra_tree _ _ _ _ Hr) as [Hsound Hcomplete].
    split; [intros e He; apply Hsound; exact He|].
    eapply treePaths_in_tree; try eassumption.
    eapply stable_treePaths; eassumption.
  - do 2 eexists. split; [reflexivity|]. split; [reflexivity|].
    assert (Hflag : Result.hasNegativeCycle
                      (GraphAlgorithms.bellmanFord (Index.nodes st) (Index.edges st)
                         (Index.sourceNode st)) = false).
    { destruct (Result.hasNegativeCycle _) eqn:Hf; [|reflexivity].
      exfalso. apply Hno. apply bellmanFord_flag_negativeCycle. exact Hf. }
    destruct (bellmanFord_tree _ _ _ Hflag) as [Hsound Hcomplete].
    split; [intros e He; apply Hsound; exact He|].
    eapply treePaths_in_tree; try eassumption.
    destruct (bellmanFord_reachable (Index.nodes st) (Index.edges st)
                (Index.sourceNode st)) as [Hr _].
    eapply stable_treePaths; try eassumption.
    apply bellmanFord_flag_stable. exact Hflag.
Qed.

Lemma start_draws_shortest_path_tree_witness :
  let st := Index.mk [mkNode "A"; mkNode "B"] [mkEdge "A" "B" 2] Dijkstra "A"
                     false false 0 None [] false in
  exists st' r,
    Index.handleRun st = Some st' /\
    Index.result st' = Some r /\
    (forall e, e ∈ Result.shortestPathTree r -> e ∈ Index.edges st) /\
    treePaths (Result.shortestPathTree r) (Index.sourceNode st)
              (Result.distances r) (Result.previous r).
Proof.
  apply (start_draws_shortest_path_tree
           (fun x => x)
           (fun x => if bool_decide (x = "A B 2") then ["A"; "B"; "2"] else [])
           (fun x => if bool_decide (x = "2") then Some 2 else None)
           [AddNode "A"; AddNode "B"; AddEdge "A B 2"; ChooseSource "A"]).
  - vm_compute. reflexivity.
  - reflexivity.
  - discriminate.
  - intros e He. cbn in He.
    repeat (apply elem_of_cons in He as [->|He]; [simpl; lia|]).
    inversion He.
  - unfold plainIds. cbn [Index.nodes ids fmap list_fmap id]. plain_keys.
  - unfold exactSums. cbn [Index.nodes Index.edges]. exact_sums.
Defined.

(** ** The length of the traces *)

Lemma relaxNeighbors_length m nbrs st :
  (length (GraphAlgorithms.steps (GraphAlgorithms.relaxNeighbors m nbrs st))
   <= length (GraphAlgorithms.steps st) + length nbrs)%nat.
Proof.
  revert st. induction nbrs as [|[v w] nbrs IH]; intros st; simpl; [lia|].
  destruct (jsLt _ _).
  - etransitivity; [apply IH|]. simpl. rewrite length_app. simpl. lia.
  - etransitivity; [apply IH|]. lia.
Qed.

Lemma part001_relaxNeighbors_length m nbrs st :
  (length (Part001.steps (Part001.relaxNeighbors m nbrs st))
   <= length (Part001.steps st) + length nbrs)%nat.
Proof.
  revert st. induction nbrs as [|[v w] nbrs IH]; intros st; simpl; [lia|].
  destruct (jsLt _ _).
  - etransitivity; [apply IH|]. simpl. rewrite length_app. simpl. lia.
  - etransitivity; [apply IH|]. lia.
Qed.

Lemma relaxEdges_length i es st b :
  (length (GraphAlgorithms.bsteps (GraphAlgorithms.relaxEdges i es st b).1)
   <= length (GraphAlgorithms.bsteps st) + length es)%nat.
Proof.
  revert st b. induction es as [|e es IH]; intros st b; simpl; [lia|].
  destruct (_ && _).
  - etransitivity; [apply IH|]. simpl. rewrite length_app. simpl. lia.
  - etransitivity; [apply IH|]. lia.
Qed.

Lemma part001_relaxEdges_length i es st b :
  (length (Part001.bsteps (Part001.relaxEdges i es st b).1)
   <= length (Part001.bsteps st) + length es)%nat.
Proof.
  revert st b. induction es as [|e es IH]; intros st b; simpl; [lia|].
  destruct (notInfinity _); [|etransitivity; [apply IH|]; lia].
  destruct (jsLt _ _).
  - etransitivity; [apply IH|]. simpl. rewrite length_app. simpl. lia.
  - etransitivity; [apply IH|]. lia.
Qed.

Lemma passes_length count i es st :
  (length (GraphAlgorithms.bsteps (GraphAlgorithms.passes count i es st))
   <= length (GraphAlgorithms.bsteps st) + count * (length es `max` 1))%nat.
Proof.
  revert i st. induction count as [|count IH]; intros i st; simpl; [lia|].
  pose proof (relaxEdges_length i es st false) as Hlen.
  destruct (relaxEdges_steps i es st false) as (ext & Hext & _ & Hflag).
  destruct (GraphAlgorithms.relaxEdges i es st false) as [st' relaxed].
  cbn [fst snd] in *. destruct relaxed.
  - etransitivity; [apply IH|]. lia.
  - cbn [GraphAlgorithms.bsteps]. rewrite length_app. cbn [length].
    simpl in Hflag. symmetry in Hflag. apply negb_false_iff in Hflag.
    apply bool_decide_eq_true in Hflag. subst ext. rewrite app_nil_r in Hext.
    rewrite Hext. lia.
Qed.

Lemma part001_passes_length count i es st :
  (length (Part001.bsteps (Part001.passes count i es st))
   <= length (Part001.bsteps st) + count * (length es `max` 1))%nat.
Proof.
  revert i st. induction count as [|count IH]; intros i st; simpl; [lia|].
  pose proof (part001_relaxEdges_length i es st false) as Hlen.
  destruct (part001_relaxEdges_steps i es st false) as (ext & Hext & _ & Hflag & _).
  destruct (Part001.relaxEdges i es st false) as [st' relaxed].
  cbn [fst snd] in *. etransitivity; [apply IH|]. cbn [Part001.bsteps].
  destruct relaxed; [lia|].
  rewrite length_app. cbn [length].
  simpl in Hflag. symmetry in Hflag. apply negb_false_iff in Hflag.
  apply bool_decide_eq_true in Hflag. subst ext. rewrite app_nil_r in Hext.
  rewrite Hext. lia.
Qed.

(** The edges that leave a visited node, when one more node is visited. *)
Lemma leaving_add_fresh (edges : list GraphEdge) (m : string) (V : gset string) :
  m ∉ V ->
  length (filter (fun e => source e ∈ ({[m]} ∪ V : gset string)) edges)
  = (length (filter (fun e => source e = m) edges)
     + length (filter (fun e => source e ∈ V) edges))%nat.
Proof.
  intros Hm. induction edges as [|e edges IH]; [reflexivity|].
  rewrite !filter_cons.
  destruct (decide (source e = m)) as [Heq|Hne].
  - rewrite decide_True by (apply elem_of_union; left; apply elem_of_singleton; exact Heq).
    rewrite decide_False by (rewrite Heq; exact Hm). simpl. rewrite IH. reflexivity.
  - destruct (decide (source e ∈ V)) as [Hin|Hnin].
    + rewrite decide_True by (apply elem_of_union; auto). simpl. rewrite IH. lia.
    + rewrite decide_False; [exact IH|].
      intros H. apply elem_of_union in H as [H|H]; [|contradiction].
      apply elem_of_singleton in H. contradiction.
Qed.

Lemma outgoing_length m edges :
  length (outgoing m edges) = length (filter (fun e => source e = m) edges).
Proof. unfold outgoing. apply length_fmap. Qed.

Section Lengths.
Context (nodes : list GraphNode) (edges : list GraphEdge).

(** One step per visited node and at most one per edge that leaves a
    visited node, after the initial step. *)
Local Abbreviation budget steps V :=
  (length steps
   <= 1 + size V + length (filter (fun e => source e ∈ (V : gset string)) edges))%nat.

Lemma whileLoop_length fuel adjList st :
  GraphAlgorithms.buildAdjacencyList nodes edges = Some adjList ->
  budget (GraphAlgorithms.steps st) (GraphAlgorithms.visited st) ->
  let st' := GraphAlgorithms.whileLoop fuel nodes adjList st in
  budget (GraphAlgorithms.steps st') (GraphAlgorithms.visited st').
Proof.
  intros Hadj. revert st. induction fuel as [|fuel IH]; intros st Hb; cbn zeta; simpl;
    [assumption|].
  destruct (bool_decide _); [|assumption].
  destruct (GraphAlgorithms.selectMin _ _ _) as [[m|] x] eqn:Hsel; [|assumption].
  destruct (truthy m); [|assumption].
  apply IH.
  pose proof (selectMin_has_entry _ _ _ _ _ _ _ Hadj Hsel) as Hentry.
  apply selectMin_Some in Hsel as (_ & HmV & _).
  unfold GraphAlgorithms.visit. cbn zeta.
  unfold lookup_total, map_lookup_total. rewrite Hentry. cbn [default from_option Datatypes.id].
  cbn [GraphAlgorithms.steps GraphAlgorithms.visited].
  rewrite relaxNeighbors_visited. cbn [GraphAlgorithms.visited].
  etransitivity; [apply relaxNeighbors_length|].
  cbn [GraphAlgorithms.steps]. rewrite length_app. cbn [length].
  rewrite size_add_fresh, leaving_add_fresh, outgoing_length by assumption. lia.
Qed.

Lemma part001_whileLoop_length fuel st :
  budget (Part001.steps st) (Part001.visited st) ->
  let st' :=
    Part001.whileLoop fuel nodes (Part001.buildAdjacencyList nodes edges) st in
  budget (Part001.steps st') (Part001.visited st').
Proof.
  revert st. induction fuel as [|fuel IH]; intros st Hb; cbn zeta; simpl;
    [assumption|].
  destruct (bool_decide _); [|assumption].
  destruct (Part001.selectMin _ _ _) as [[m|] x] eqn:Hsel; [|assumption].
  destruct (notInfinity x); [|assumption].
  apply IH.
  apply part001_selectMin_Some in Hsel as (Hml & HmV & _).
  unfold Part001.visit. cbn zeta.
  rewrite part001_buildAdjacencyList_tolerant by assumption. cbn [default from_option Datatypes.id].
  cbn [Part001.steps Part001.visited].
  rewrite part001_relaxNeighbors_visited. cbn [Part001.visited].
  etransitivity; [apply part001_relaxNeighbors_length|].
  cbn [Part001.steps]. rewrite length_app. cbn [length].
  rewrite size_add_fresh, leaving_add_fresh, outgoing_length by assumption. lia.
Qed.

Lemma budget_total (steps : list AlgorithmStep) (V : gset string) :
  (forall m, m ∈ V -> m ∈ ids nodes) ->
  budget steps V ->
  (length steps <= 1 + length nodes + length edges)%nat.
Proof.
  intros Hsub Hb.
  assert (size V <= length nodes)%nat.
  { pose proof (size_list_to_set_le (ids nodes)) as Hle.
    unfold ids in Hle at 2. rewrite length_fmap in Hle.
    etransitivity; [|exact Hle]. apply subseteq_size.
    intros u Hu. apply elem_of_list_to_set. auto. }
  pose proof (length_filter (fun e => source e ∈ V) edges). lia.
Qed.

End Lengths.

Lemma bellmanFord_trace_length nodes edges s :
  (length (Result.steps (GraphAlgorithms.bellmanFord nodes edges s))
   <= 2 + (length nodes - 1) * (length edges `max` 1))%nat.
Proof.
  unfold GraphAlgorithms.bellmanFord. cbn zeta.
  match goal with
  | |- context [GraphAlgorithms.passes ?c ?i ?es ?st0] =>
      pose proof (passes_length c i es st0) as Hlen;
      set (st := GraphAlgorithms.passes c i es st0) in *
  end.
  cbn [GraphAlgorithms.bsteps length] in Hlen.
  destruct (List.find _ edges); cbn [Result.steps]; rewrite length_app;
    cbn [length]; lia.
Qed.

Lemma part001_bellmanFord_trace_length nodes edges s :
  (length (Result.steps (Part001.bellmanFord nodes edges s))
   <= 3 + (length nodes - 1) * (length edges `max` 1))%nat.
Proof.
  unfold Part001.bellmanFord. cbn zeta.
  match goal with
  | |- context [Part001.passes ?c ?i ?es ?st0] =>
      pose proof (part001_passes_length c i es st0) as Hlen;
      set (st := Part001.passes c i es st0) in *
  end.
  cbn [Part001.bsteps length] in Hlen.
  rewrite part001_cycleCheck_find.
  destruct (List.find _ edges); cbn [fst snd Part001.bsteps Result.steps];
    rewrite ?length_app; cbn [length]; lia.
Qed.

Lemma part001_dijkstra_trace_length nodes edges s :
  (length (Result.steps (Part001.dijkstra nodes edges s))
   <= 2 + length nodes + length edges)%nat.
Proof.
  unfold Part001.dijkstra. cbn zeta. cbn [Result.steps].
  set (st0 := Part001.mkD (initDistances nodes s) (initPrevious nodes) ∅
                [Part001.initialStep nodes s] 1).
  pose proof (part001_whileLoop_length nodes edges (length nodes) st0) as Hb.
  pose proof (part001_whileLoop_log nodes (length nodes)
                (Part001.buildAdjacencyList nodes edges) st0) as Hlog.
  cbn zeta in Hb. set (st := Part001.whileLoop _ _ _ st0) in *.
  rewrite length_app. cbn [length].
  assert (length (Part001.steps st) <= 1 + length nodes + length edges)%nat; [|lia].
  eapply budget_total; [|apply Hb].
  + apply (log_listed _ _ _ _ _ (Hlog ltac:(apply selectionLog_initial; reflexivity))).
  + subst st0. cbn [Part001.steps Part001.visited length]. lia.
Qed.

Lemma dijkstra_trace_length nodes edges s r :
  GraphAlgorithms.dijkstra nodes edges s = Some r ->
  (length (Result.steps r) <= 2 + length nodes + length edges)%nat.
Proof.
  intros E.
  revert E. unfold GraphAlgorithms.dijkstra.
  destruct (GraphAlgorithms.buildAdjacencyList nodes edges) as [adjList|] eqn:Hadj;
    [|discriminate].
  cbn zeta. intros [= <-]. cbn [Result.steps].
  set (st0 := GraphAlgorithms.mkD (initDistances nodes s) (initPrevious nodes) ∅
                [GraphAlgorithms.initialStep "Dijkstra" nodes s] 1).
  pose proof (whileLoop_length nodes edges (length nodes) adjList st0 Hadj) as Hb.
  pose proof (whileLoop_log nodes (length nodes) adjList st0) as Hlog.
  cbn zeta in Hb. set (st := GraphAlgorithms.whileLoop _ _ _ st0) in *.
  rewrite length_app. cbn [length].
  assert (length (GraphAlgorithms.steps st) <= 1 + length nodes + length edges)%nat;
    [|lia].
  eapply budget_total; [|apply Hb].
  + apply (log_listed _ _ _ _ _ (Hlog ltac:(apply selectionLog_initial; reflexivity))).
  + subst st0. cbn [GraphAlgorithms.steps GraphAlgorithms.visited length]. lia.
Qed.

(** The traces are short.  Bellman-Ford emits at most [max(|E|, 1)] steps
    in each of its at most [|V| - 1] passes, and one step more in the second
    variant, whose negative-cycle step does not end the run.  Dijkstra
    emits, besides the first and the last step, at most one step per node
    and one per edge: in [client/lib] whenever it returns, in the second
    variant on inputs with plain keys. *)
Theorem trace_lengths nodes edges s :
  (length (Result.steps (GraphAlgorithms.bellmanFord nodes edges s))
   <= 2 + (length nodes - 1) * (length edges `max` 1))%nat /\
  (length (Result.steps (Part001.bellmanFord nodes edges s))
   <= 3 + (length nodes - 1) * (length edges `max` 1))%nat /\
  (plainKeys nodes edges ->
   (length (Result.steps (Part001.dijkstra nodes edges s))
    <= 2 + length nodes + length edges)%nat) /\
  match GraphAlgorithms.dijkstra nodes edges s with
  | Some r => (length (Result.steps r) <= 2 + length nodes + length edges)%nat
  | None => ~ sourcesKnown nodes edges
  end.
Proof.
  split; [|split; [|split]].
  - apply bellmanFord_trace_length.
  - apply part001_bellmanFord_trace_length.
  - intros _. apply part001_dijkstra_trace_length.
  - destruct (GraphAlgorithms.dijkstra nodes edges s) as [r|] eqn:E.
    + eapply dijkstra_trace_length. exact E.
    + apply (dijkstra_None nodes edges s). exact E.
Qed.


Lemma relaxationTrace_bound edges steps W :
  0 <= W ->
  Forall (fun e => Z.abs (weight e) <= W) edges ->
  relaxationTrace edges steps ->
  (forall ini k x, head steps = Some ini ->
                   Step.distances ini !! k = Some (Fin x) -> x = 0) ->
  forall i st k x, steps !! i = Some st ->
    Step.distances st !! k = Some (Fin x) -> Z.abs x <= Z.of_nat i * W.
Proof.
  intros HW Hw Ht Hini i.
  induction i as [|i IH]; intros st k x Hst Hk.
  - rewrite (Hini st k x); [simpl; lia | | exact Hk].
    destruct steps; [discriminate|]. simpl in *. congruence.
  - assert (Hex : exists a, steps !! i = Some a).
    { apply lookup_lt_is_Some. apply lookup_lt_Some in Hst. lia. }
    destruct Hex as [a Ha].
    specialize (Ht i a st Ha Hst). unfold stepAfter in Ht.
    destruct (decide (Step.type st = relax)) as [_|_].
    + destruct Ht as (e & x0 & He & _ & _ & Hsrc & _ & Hd & _).
      rewrite Hd in Hk.
      assert (Hx0 : Z.abs x0 <= Z.of_nat i * W).
      { unfold get in Hsrc.
        destruct (Step.distances a !! source e) as [y|] eqn:Hy; [|discriminate].
        simpl in Hsrc. subst y. exact (IH a _ _ Ha Hy). }
      rewrite Forall_forall in Hw. specialize (Hw e He).
      destruct (decide (k = destination e)) as [->|Hne].
      * rewrite lookup_insert_eq in Hk. injection Hk as <-. lia.
      * rewrite lookup_insert_ne in Hk by congruence.
        specialize (IH a _ _ Ha Hk). lia.
    + destruct Ht as [Hd _]. rewrite Hd in Hk.
      specialize (IH a _ _ Ha Hk). lia.
Qed.

Lemma initDistances_finite_zero nodes s k x :
  initDistances nodes s !! k = Some (Fin x) -> x = 0.
Proof.
  rewrite initDistances_lookup.
  destruct (decide (k ∈ ids nodes)); [|discriminate].
  destruct (bool_decide (k = s)); congruence.
Qed.

Lemma exactSums_bound nodes edges :
  exactSums nodes edges ->
  let K := Z.of_nat (length nodes + 2) * Z.of_nat (length edges + 2) in
  Forall (fun e => Z.abs (weight e) <= 2 ^ 53 / K) edges.
Proof.
  intros H K. unfold exactSums in H. fold K in H.
  eapply Forall_impl; [exact H|]. intros e He. cbv beta in He.
  apply Z.div_le_lower_bound; [subst K; lia|]. lia.
Qed.

Lemma startsAtInit_safe nodes edges s r :
  exactSums nodes edges ->
  wellFormedTrace edges r ->
  (exists rest ini, Result.steps r = ini :: rest /\
                    Step.distances ini = initDistances nodes s) ->
  (length (Result.steps r) <= (length nodes + 2) * (length edges + 2))%nat ->
  snapshotsOk (fun d _ => safeSnapshot edges d) r.
Proof.
  intros Hex (Ht & _ & fin & Hfin & _ & Hd & _) (rest & ini & Hsteps & Hini) Hlen.
  set (K := Z.of_nat (length nodes + 2) * Z.of_nat (length edges + 2)).
  set (W := 2 ^ 53 / K).
  assert (HK : 0 < K) by (subst K; lia).
  assert (HW : 0 <= W) by (subst W; apply Z.div_pos; lia).
  assert (HKW : K * W <= 2 ^ 53) by (subst W; apply Z.mul_div_le; lia).
  pose proof (exactSums_bound nodes edges Hex) as Hw. cbv zeta in Hw. fold K W in Hw.
  assert (Hb : forall i st k x, Result.steps r !! i = Some st ->
             Step.distances st !! k = Some (Fin x) -> Z.abs x <= Z.of_nat i * W).
  { apply (relaxationTrace_bound edges _ W HW Hw Ht).
    intros ini' k x Hh. rewrite Hsteps in Hh. injection Hh as <-.
    rewrite Hini. apply initDistances_finite_zero. }
  assert (Hsafe : forall st, st ∈ Result.steps r -> safeSnapshot edges (Step.distances st)).
  { intros st Hst. apply list_elem_of_lookup in Hst as [i Hi].
    pose proof (lookup_lt_Some _ _ _ Hi) as Hlt.
    assert (Hi' : Z.of_nat i + 1 <= K) by (subst K; nia).
    split.
    - intros k x Hk. specialize (Hb i st k x Hi Hk). nia.
    - intros e x He Hsrc. unfold get in Hsrc.
      destruct (Step.distances st !! source e) as [y|] eqn:Hy; [|discriminate].
      simpl in Hsrc. subst y. specialize (Hb i st _ x Hi Hy).
      rewrite Forall_forall in Hw. specialize (Hw e He). nia. }
  split.
  - rewrite <- Hd. apply Hsafe. apply last_Some in Hfin as [l' ->].
    apply elem_of_app. right. apply elem_of_cons. left. reflexivity.
  - apply Forall_forall. exact Hsafe.
Qed.

Lemma part001_bellmanFord_first_step nodes edges s :
  exists rest,
    Result.steps (Part001.bellmanFord nodes edges s)
    = Part001.initialStep nodes s :: rest.
Proof.
  unfold Part001.bellmanFord. cbn zeta.
  match goal with
  | |- context [Part001.passes ?c ?i ?es ?st0] =>
      destruct (part001_passes_shape c i es st0) as (ext & Hext & _);
      set (st := Part001.passes c i es st0) in *
  end.
  rewrite part001_cycleCheck_find.
  destruct (List.find _ edges); cbn [fst snd Part001.bsteps Part001.bdistances
                                       Part001.bprevious Part001.biteration Result.steps];
    rewrite Hext; simpl; eauto.
Qed.

Lemma part001_dijkstra_first_step nodes edges s :
  exists rest,
    Result.steps (Part001.dijkstra nodes edges s)
    = Part001.initialStep nodes s :: rest.
Proof.
  unfold Part001.dijkstra. cbn zeta. cbn [Result.steps].
  assert (Hpre : forall fuel st1,
             exists ext, Part001.steps
                           (Part001.whileLoop fuel nodes
                              (Part001.buildAdjacencyList nodes edges) st1)
                         = Part001.steps st1 ++ ext).
  { assert (Hrn : forall m nbrs st1,
               exists ext, Part001.steps (Part001.relaxNeighbors m nbrs st1)
                           = Part001.steps st1 ++ ext).
    { intros m nbrs. induction nbrs as [|[v w] nbrs IH]; intros st1; simpl.
      - exists []. rewrite app_nil_r. reflexivity.
      - destruct (jsLt _ _); [|apply IH].
        edestruct IH as (ext & ->). simpl. rewrite <- app_assoc. eauto. }
    induction fuel as [|fuel IH]; intros st1; simpl.
    - exists []. rewrite app_nil_r. reflexivity.
    - destruct (bool_decide _); [|exists []; rewrite app_nil_r; reflexivity].
      destruct (Part001.selectMin _ _ _) as [[m|] x];
        [|exists []; rewrite app_nil_r; reflexivity].
      destruct (notInfinity x); [|exists []; rewrite app_nil_r; reflexivity].
      edestruct IH as (ext & ->). unfold Part001.visit. cbn zeta. simpl.
      edestruct Hrn as (ext' & ->). simpl. rewrite <- !app_assoc. eauto. }
  destruct (Hpre (length nodes)
              (Part001.mkD (initDistances nodes s) (initPrevious nodes) ∅
                 [Part001.initialStep nodes s] 1)) as (ext & Hext).
  rewrite Hext. simpl. eauto.
Qed.

(** On inputs with plain keys and exact sums no run leaves the range in
    which binary64 addition is exact: in every emitted snapshot and in the
    final maps of both algorithms of both variants, every finite distance,
    and every sum of a distance and the weight of an edge leaving its node,
    is an integer of absolute value at most [2^53]. *)
Theorem runs_stay_exact nodes edges s :
  plainKeys nodes edges ->
  exactSums nodes edges ->
  snapshotsOk (fun d _ => safeSnapshot edges d) (GraphAlgorithms.bellmanFord nodes edges s) /\
  snapshotsOk (fun d _ => safeSnapshot edges d) (Part001.bellmanFord nodes edges s) /\
  snapshotsOk (fun d _ => safeSnapshot edges d) (Part001.dijkstra nodes edges s) /\
  match GraphAlgorithms.dijkstra nodes edges s with
  | Some r => snapshotsOk (fun d _ => safeSnapshot edges d) r
  | None => ~ sourcesKnown nodes edges
  end.
Proof.
  intros _ Hex. split; [|split; [|split]].
  - apply (startsAtInit_safe nodes edges s); [exact Hex | | |].
    + apply bellmanFord_wellFormedTrace.
    + destruct (bellmanFord_first_step nodes edges s) as (rest & ->). eauto.
    + pose proof (bellmanFord_trace_length nodes edges s). nia.
  - apply (startsAtInit_safe nodes edges s); [exact Hex | | |].
    + apply part001_bellmanFord_wellFormedTrace.
    + destruct (part001_bellmanFord_first_step nodes edges s) as (rest & ->). eauto.
    + pose proof (part001_bellmanFord_trace_length nodes edges s). nia.
  - apply (startsAtInit_safe nodes edges s); [exact Hex | | |].
    + apply part001_dijkstra_wellFormedTrace.
    + destruct (part001_dijkstra_first_step nodes edges s) as (rest & ->). eauto.
    + pose proof (part001_dijkstra_trace_length nodes edges s). nia.
  - destruct (GraphAlgorithms.dijkstra nodes edges s) as [r|] eqn:E.
    + apply (startsAtInit_safe nodes edges s); [exact Hex | | |].
      * eapply dijkstra_wellFormedTrace. exact E.
      * destruct (dijkstra_first_step nodes edges s r E) as (rest & ->). eauto.
      * pose proof (dijkstra_trace_length nodes edges s r E). nia.
    + apply dijkstra_None in E. exact E.
Qed.

Lemma runs_stay_exact_witness :
  let nodes := [mkNode "A"; mkNode "B"; mkNode "C"] in
  let edges := [mkEdge "A" "B" 4; mkEdge "A" "C" 5; mkEdge "C" "B" (-3)] in
  snapshotsOk (fun d _ => safeSnapshot edges d) (GraphAlgorithms.bellmanFord nodes edges "A") /\
  snapshotsOk (fun d _ => safeSnapshot edges d) (Part001.bellmanFord nodes edges "A") /\
  snapshotsOk (fun d _ => safeSnapshot edges d) (Part001.dijkstra nodes edges "A") /\
  match GraphAlgorithms.dijkstra nodes edges "A" with
  | Some r => snapshotsOk (fun d _ => safeSnapshot edges d) r
  | None => ~ sourcesKnown nodes edges
  end.
Proof.
  apply (runs_stay_exact
           [mkNode "A"; mkNode "B"; mkNode "C"]
           [mkEdge "A" "B" 4; mkEdge "A" "C" 5; mkEdge "C" "B" (-3)] "A").
  - plain_keys.
  - exact_sums.
Defined.
